(** * Mandel: escape-time fractals on a 16x16 LED matrix

    A shallow embedding of the four Arduino sketches of the repository
    (Mandelbrot, Mandelbrot-minimal, Julia, Julia-palette) and the
    properties of their shared core: the serpentine coordinate mapper
    [XY], the window animator [resize], the escape-time loop of [mandel]
    and the colouring of a cell; then of what is built on it: the sweep
    of [mandel] over the matrix and the array [leds] it leaves, a pass
    of [loop], and the frame counter [showfps].

    Numbers are modelled as the sketches have them on the Arduino UNO
    named in their headers: [float] and [double] are both IEEE-754
    binary32 there, every operation rounds to nearest-even on its own,
    [uint8_t] and [uint16_t] wrap modulo 2^8 and 2^16, [int] has 16
    bits.  The loop counter never leaves [0, maxIterations] and the sums
    of [XY] stay far inside an [int], so they are plain [Z]; the product
    [iter*255] of the colour index leaves the [int] from [iter = 129]
    and is modelled with the two's-complement wrap that avr-gcc compiles
    (signed overflow is undefined in C++).
    [sin], [millis], [abs], [ColorFromPalette] and the CHSV conversion
    belong to libm, the Arduino core and FastLED: [abs] is written out
    as the core's macro, which evaluates its argument twice, and every
    call of [millis()] is a reading of its own; the others are arguments
    of the model.  The
    loop of [mandel] is the same in the four sketches up to the constant
    it adds; [mandel] runs it once per cell, from the coordinates
    [(x, y)] it accumulates across the window, and the properties below
    hold for every such starting point. *)

From Stdlib Require Import ZArith Lia List Bool QArith Lqa.
From Stdlib Require Import Floats.SpecFloat.
Import ListNotations.
Open Scope Z_scope.

(** ** Single-precision arithmetic *)

Definition prec : Z := 24.
Definition emax : Z := 128.

Definition float := spec_float.

Definition fadd : float -> float -> float := SFadd prec emax.
Definition fsub : float -> float -> float := SFsub prec emax.
Definition fmul : float -> float -> float := SFmul prec emax.
Definition fdiv : float -> float -> float := SFdiv prec emax.
Definition fopp : float -> float := SFopp.

(** [x > y], [x < y], [x >= y] on floats: false as soon as one side is NaN. *)
Definition fgt (x y : float) : bool := SFltb y x.
Definition flt (x y : float) : bool := SFltb x y.
Definition fge (x y : float) : bool := SFleb y x.

(** Conversion of an integer to [float] (implicit in [2*a], in
    [(float)millis()], in the comparison with a [uint8_t]). *)
Definition of_int (z : Z) : float := binary_normalize prec emax z 0 false.

(** A decimal literal [n/d] with [n] and [d] below 2^24: both are exact
    in binary32, so the quotient is the literal rounded once. *)
Definition lit (n d : Z) : float := fdiv (of_int n) (of_int d).

Definition is_nan (x : float) : bool :=
  match x with S754_nan => true | _ => false end.

Definition is_zero (x : float) : bool :=
  match x with S754_zero _ => true | _ => false end.

Definition is_finite (x : float) : bool :=
  match x with S754_zero _ | S754_finite _ _ _ => true | _ => false end.

(** The exact rational value [m * 2^e] of a finite float. *)
Definition pow2Q (e : Z) : Q :=
  match e with
  | Z0 => 1%Q
  | Zpos p => inject_Z (Z.pow_pos 2 p)
  | Zneg p => Qmake 1 (Pos.pow 2 p)
  end.

Definition valQ (m e : Z) : Q := (inject_Z m * pow2Q e)%Q.

Definition F2Q (x : float) : Q :=
  match x with
  | S754_finite s m e => valQ (if s then Zneg m else Zpos m) e
  | _ => 0%Q
  end.

(** The Arduino core's macro [abs(x)]: [((x)>0?(x):-(x))].  The
    argument is evaluated twice, once for the test and once in the branch
    taken; [abs_macro] takes the value of each evaluation, [abs] is the
    macro on an argument that gives the same value both times. *)
Definition abs_macro (x_test x_branch : float) : float :=
  if fgt x_test (of_int 0) then x_branch else fopp x_branch.

Definition abs (x : float) : float := abs_macro x x.

(** ** Fixed-width unsigned integers *)

Definition uint8 (z : Z) : Z := z mod 256.
Definition uint16 (z : Z) : Z := z mod 65536.

(** A result of [int] arithmetic on the UNO: 16 bits, two's complement. *)
Definition int16 (z : Z) : Z := (z + 32768) mod 65536 - 32768.

(** ** The matrix *)

Definition matrixWidth : Z := 16.
Definition matrixHeight : Z := 16.
Definition matrixSerpentineLayout : bool := true.
Definition NUM_LEDS : Z := matrixWidth * matrixHeight.

(** [XY], with the width and the layout flag of the sketch as arguments.
    The parameters are [uint8_t]; the sums are computed in [int] and
    stored in a [uint16_t].  [i] is declared without a value; one of the
    two tests always assigns it. *)
Definition XY_gen (width : Z) (serpentine : bool) (x y : Z) : Z :=
  let x := uint8 x in
  let y := uint8 y in
  let i := 0 in
  let i :=
    if Bool.eqb serpentine false then uint16 (y * width + x) else i in
  let i :=
    if Bool.eqb serpentine true then
      if negb (Z.land y 1 =? 0) then
        let reverseX := uint8 ((width - 1) - x) in
        uint16 (y * width + reverseX)
      else
        uint16 (y * width + x)
    else i in
  i.

(** [XY] as the four sketches compile it. *)
Definition XY (x y : Z) : Z := XY_gen matrixWidth matrixSerpentineLayout x y.

(** The cell wired at a given position of the strip. *)
Definition XY_inv (k : Z) : Z * Z :=
  let y := k / 16 in
  let c := k mod 16 in
  (if Z.odd y then 15 - c else c, y).

Definition in_grid (x y : Z) : Prop := 0 <= x < 16 /\ 0 <= y < 16.

(** The cell wired at position [k] of a strip, for any width and either
    layout. *)
Definition XY_gen_inv (width : Z) (serpentine : bool) (k : Z) : Z * Z :=
  let y := k / width in
  let c := k mod width in
  (if serpentine && Z.odd y then width - 1 - c else c, y).

(** One row of the matrix, left to right. *)
Definition row_indices (width : Z) (serpentine : bool) (y : Z) : list Z :=
  map (fun x => XY_gen width serpentine (Z.of_nat x) y)
      (seq 0 (Z.to_nat width)).

(** ** The escape-time loop *)

(** The locals of the [while] loop of [mandel]. *)
Record cell : Type := mkCell { a : float; b : float; iter : Z }.

Inductive flow : Type :=
| Next (s : cell)
| Exit.

(** One evaluation of the loop test and body.  [(cre, cim)] is the
    additive constant: the cell itself in the Mandelbrot sketches,
    [(reAl, imAg)] in the Julia ones. *)
Definition loop_body (maxIterations : Z) (maxCalc cre cim : float)
  (s : cell) : flow :=
  if iter s <? maxIterations then
    let aa := fmul (a s) (a s) in
    let bb := fmul (b s) (b s) in
    let len := fadd aa bb in
    if fgt len maxCalc then Exit
    else
      let b' := fadd (fmul (fmul (of_int 2) (a s)) (b s)) cim in
      let a' := fadd (fsub aa bb) cre in
      Next (mkCell a' b' (iter s + 1))
  else Exit.

(** The loop, with the number of times its body ran to the end.
    [None] only when the fuel is spent before the loop exits. *)
Fixpoint while_loop (fuel : nat) (maxIterations : Z) (maxCalc cre cim : float)
  (s : cell) (updates : nat) : option (cell * nat) :=
  match fuel with
  | O => None
  | S fuel' =>
      match loop_body maxIterations maxCalc cre cim s with
      | Exit => Some (s, updates)
      | Next s' =>
          while_loop fuel' maxIterations maxCalc cre cim s' (S updates)
      end
  end.

(** Fuel that always suffices: one test more than the bound. *)
Definition enough (maxIterations : Z) : nat := S (Z.to_nat maxIterations).

(** The iteration count of a cell starting at [(x, y)]. *)
Definition escape_time (maxIterations : Z) (maxCalc cre cim x y : float)
  : option Z :=
  option_map (fun r => iter (fst r))
    (while_loop (enough maxIterations) maxIterations maxCalc cre cim
       (mkCell x y 0) 0).

(** The recurrence alone: [z -> z^2 + c] applied [k] times, no test. *)
Definition update (cre cim : float) (z : float * float) : float * float :=
  let aa := fmul (fst z) (fst z) in
  let bb := fmul (snd z) (snd z) in
  (fadd (fsub aa bb) cre,
   fadd (fmul (fmul (of_int 2) (fst z)) (snd z)) cim).

Fixpoint orbit (cre cim : float) (z : float * float) (k : nat)
  : float * float :=
  match k with
  | O => z
  | S k' => update cre cim (orbit cre cim z k')
  end.

(** The escape test on a point. *)
Definition escaped (maxCalc : float) (z : float * float) : bool :=
  fgt (fadd (fmul (fst z) (fst z)) (fmul (snd z) (snd z))) maxCalc.

(** What the loop has done when it stops in [s'] after [n] updates from
    [s]: it followed the orbit, no earlier point was beyond the limit,
    and it stopped on the bound or on the test. *)
Definition stopped_after (maxIt : Z) (limit cre cim : float)
  (s s' : cell) (n : nat) : Prop :=
  iter s' = iter s + Z.of_nat n /\
  (a s', b s') = orbit cre cim (a s, b s) n /\
  (forall k, (k < n)%nat ->
     escaped limit (orbit cre cim (a s, b s) k) = false) /\
  (maxIt <= iter s' \/
   (iter s' < maxIt /\ escaped limit (orbit cre cim (a s, b s) n) = true)).

(** The two ways the sketches call the loop. *)
Definition mandelbrot_cell (maxIterations : Z) (maxCalc x y : float)
  : option Z :=
  escape_time maxIterations maxCalc x y x y.

Definition julia_cell (maxIterations : Z) (maxCalc reAl imAg x y : float)
  : option Z :=
  escape_time maxIterations maxCalc reAl imAg x y.

(** The exact squared magnitude of a finite point is above 4. *)
Definition norm_above_2 (x y : float) : Prop :=
  is_finite x = true /\ is_finite y = true /\
  (4 < F2Q x * F2Q x + F2Q y * F2Q y)%Q.

(** [v] is [-u], and [v] is [u], up to the sign of a zero. *)
Definition mirror (u v : float) : Prop :=
  v = fopp u \/ (is_zero u = true /\ is_zero v = true).

Definition same (u v : float) : Prop :=
  v = u \/ (is_zero u = true /\ is_zero v = true).

(** The locals of the loop with the counter one further. *)
Definition later (s : cell) : cell := mkCell (a s) (b s) (iter s + 1).

(** ** Colours *)

Record CRGB : Type := mkCRGB { red : Z; green : Z; blue : Z }.

Definition Black : CRGB := mkCRGB 0 0 0.

Definition CRGBPalette16 : Type := list CRGB.

(** The colour index [iter*255/maxIterations] as the [uint8_t] argument
    it is passed as: the product is an [int], [/] of C truncates. *)
Definition color_index (iter maxIterations : Z) : Z :=
  uint8 (Z.quot (int16 (iter * 255)) maxIterations).

(** Mandelbrot-minimal and Julia: a hue. *)
Definition color_hue (CHSV : Z -> Z -> Z -> CRGB)
  (maxIterations iter : Z) : CRGB :=
  if iter =? maxIterations then Black
  else CHSV (color_index iter maxIterations) 255 255.

(** Julia-palette: a palette entry at full brightness. *)
Definition color_palette (ColorFromPalette : CRGBPalette16 -> Z -> Z -> CRGB)
  (currentPalette : CRGBPalette16) (maxIterations iter : Z) : CRGB :=
  if iter =? maxIterations then Black
  else ColorFromPalette currentPalette (color_index iter maxIterations) 255.

(** Mandelbrot: a palette entry dimmed by the count. *)
Definition color_palette_dim
  (ColorFromPalette : CRGBPalette16 -> Z -> Z -> CRGB)
  (currentPalette : CRGBPalette16) (maxIterations iter : Z) : CRGB :=
  if iter =? maxIterations then Black
  else ColorFromPalette currentPalette (color_index iter maxIterations)
         (uint8 (255 - iter)).

(** ** The window *)

Record window : Type := mkWindow {
  xmin : float; ymin : float; xmax : float; ymax : float;
  dx : float; dy : float
}.

(** The step sizes, as every [resize] ends. *)
Definition with_steps (x0 y0 x1 y1 : float) : window :=
  mkWindow x0 y0 x1 y1
    (fdiv (fsub x1 x0) (of_int matrixWidth))
    (fdiv (fsub y1 y0) (of_int matrixHeight)).

(** The window of the two Mandelbrot sketches around [(reAl, imAg)]:
    [xmin = reAl - 1./zoOm/zoomAdj+xadj] reads
    [((reAl - ((1./zoOm)/zoomAdj)) + xadj)], and so on. *)
Definition zoomAdj : float := lit 16 10000.
Definition xadj : float := of_int 0.
Definition yadj : float := lit 1 1000.

Definition half_extent (zoOm : float) : float :=
  fdiv (fdiv (of_int 1) zoOm) zoomAdj.

Definition zoom_window (reAl imAg zoOm : float) : window :=
  with_steps
    (fadd (fsub reAl (half_extent zoOm)) xadj)
    (fadd (fsub imAg (half_extent zoOm)) yadj)
    (fadd (fadd reAl (half_extent zoOm)) xadj)
    (fadd (fadd imAg (half_extent zoOm)) yadj).

(** The invariant of a window: a positive extent on both axes, cut into
    as many steps as the matrix has columns and rows. *)
Definition window_ok (w : window) : Prop :=
  fgt (xmax w) (xmin w) = true /\
  fgt (ymax w) (ymin w) = true /\
  dx w = fdiv (fsub (xmax w) (xmin w)) (of_int matrixWidth) /\
  dy w = fdiv (fsub (ymax w) (ymin w)) (of_int matrixHeight).

(** Bounds of the shape [centre - h, centre + h] on both axes, in exact
    arithmetic on the stored values. *)
Definition centred_on (w : window) (re im : float) : Prop :=
  exists hx hy : Q,
    (F2Q (xmin w) == F2Q re - hx)%Q /\ (F2Q (xmax w) == F2Q re + hx)%Q /\
    (F2Q (ymin w) == F2Q im - hy)%Q /\ (F2Q (ymax w) == F2Q im + hy)%Q.

Definition maxIterations : Z := 15.
Definition maxCalc : float := of_int 16.

(** The location [-0.94299, 0.3162] that Mandelbrot, Julia and
    Julia-palette assign in [resize]. *)
Definition pixelblaze_re : float := lit (-94299) 100000.
Definition pixelblaze_im : float := lit 3162 10000.

(** The globals that every [resize] assigns. *)
Record globals : Type := mkGlobals {
  reAl : float; imAg : float; win : window
}.

(** *** Mandelbrot-minimal: a static window

    [resize] reads the globals [reAl], [imAg] and [zoOm] and assigns the
    window; the sketch initialises them to [-.5], [0.1] and [550.]. *)
Module MandelbrotMinimal.

Definition reAl0 : float := lit (-5) 10.
Definition imAg0 : float := lit 1 10.
Definition zoOm0 : float := of_int 550.

Definition resize (reAl imAg zoOm : float) : globals :=
  mkGlobals reAl imAg (zoom_window reAl imAg zoOm).

End MandelbrotMinimal.

(** *** Mandelbrot: the zoom follows [|sin|]

    [resize] assigns [zoOm], [reAl] and [imAg], then the window.  In
    [zoOm = 5000. * abs(sin(millis()/2000.))+200.] the macro [abs]
    evaluates [sin(millis()/2000.)] twice: [t1] is the clock read for
    the test, [t2] the clock read in the branch taken. *)
Module Mandelbrot.

Record globals : Type := mkGlobals {
  zoOm : float; reAl : float; imAg : float; win : window
}.

Definition zoom (sinf : float -> float) (t1 t2 : Z) : float :=
  fadd (fmul (of_int 5000)
          (abs_macro (sinf (fdiv (of_int t1) (of_int 2000)))
                     (sinf (fdiv (of_int t2) (of_int 2000)))))
       (of_int 200).

Definition resize (sinf : float -> float) (t1 t2 : Z) : globals :=
  let zoOm := zoom sinf t1 t2 in
  let reAl := pixelblaze_re in
  let imAg := pixelblaze_im in
  mkGlobals zoOm reAl imAg (zoom_window reAl imAg zoOm).

End Mandelbrot.

(** *** Julia and Julia-palette: the constant moves, the window does not

    [resize] reads the clock twice: [t1] in the line that moves [reAl],
    [t2] in the line that moves [imAg]. *)
Definition julia_constant_at (sinf : float -> float) (t1 t2 : Z)
  : float * float :=
  (fadd pixelblaze_re
     (fdiv (sinf (fdiv (of_int t1) (of_int 305))) (of_int 20)),
   fadd pixelblaze_im
     (fdiv (sinf (fdiv (of_int t2) (of_int 405))) (of_int 20))).

(** The constant when the clock does not tick between the two lines. *)
Definition julia_constant (sinf : float -> float) (millis : Z)
  : float * float :=
  julia_constant_at sinf millis millis.

Module Julia.

Definition resize (sinf : float -> float) (t1 t2 : Z) : globals :=
  let c := julia_constant_at sinf t1 t2 in
  mkGlobals (fst c) (snd c)
    (with_steps (lit (-12) 10) (lit (-8) 10) (lit 12 10) (of_int 1)).

End Julia.

Module JuliaPalette.

Definition resize (sinf : float -> float) (t1 t2 : Z) : globals :=
  let c := julia_constant_at sinf t1 t2 in
  mkGlobals (fst c) (snd c)
    (with_steps (lit (-5) 10) (lit (-5) 10) (lit 5 10) (lit 5 10)).

End JuliaPalette.

(** ** The frame

    [mandel] walks the rows from [ymin] and, in each row, the columns
    from [xmin], adding [dy] after a row and [dx] after a cell, and
    assigns [leds[XY(i,j)]] for each cell.  The frame is the list of these
    assignments in the order they are made; [shade x y] is what the cell
    that starts at [(x, y)] is given.  The blur that Mandelbrot applies to
    [leds] afterwards (FastLED's [blur2d]) is outside the model. *)
Section Frame.

Context {A : Type}.
Variable shade : float -> float -> A.

Fixpoint sweep_row (dx y : float) (j : Z) (n : nat) (i : Z) (x : float)
  : list (Z * A) :=
  match n with
  | O => []
  | S n' => (XY i j, shade x y) :: sweep_row dx y j n' (i + 1) (fadd x dx)
  end.

Fixpoint sweep_rows (w : window) (n : nat) (j : Z) (y : float)
  : list (Z * A) :=
  match n with
  | O => []
  | S n' =>
      sweep_row (dx w) y j (Z.to_nat matrixWidth) 0 (xmin w)
      ++ sweep_rows w n' (j + 1) (fadd y (dy w))
  end.

Definition mandel (w : window) : list (Z * A) :=
  sweep_rows w (Z.to_nat matrixHeight) 0 (ymin w).

End Frame.

(** No index occurs twice, as a test. *)
Fixpoint distinct (l : list Z) : bool :=
  match l with
  | [] => true
  | k :: l' => negb (existsb (Z.eqb k) l') && distinct l'
  end.

(** [x += d], [n] times: the abscissa of column [n] from [xmin] with
    [dx], the ordinate of row [n] from [ymin] with [dy]. *)
Fixpoint advance (d : float) (n : nat) (x : float) : float :=
  match n with
  | O => x
  | S n' => advance d n' (fadd x d)
  end.

(** What a cell is given: the colour of its count. *)
Definition shade_of (colour : Z -> CRGB) (count : float -> float -> option Z)
  (x y : float) : option CRGB :=
  option_map colour (count x y).

(** An assignment that paints a count [n]: black at the bound,
    [colour n] below it. *)
Definition painted (colour : Z -> CRGB) (p : Z * option CRGB) : Prop :=
  exists n, 0 <= n <= maxIterations /\
    snd p = Some (if n =? maxIterations then Black else colour n).

(** ** The array [leds]

    [leds[k] = v].  An index outside the array is undefined behaviour in
    C++; here it leaves the array as it is. *)
Fixpoint store {A : Type} (leds : list A) (k : nat) (v : A) : list A :=
  match leds, k with
  | [], _ => []
  | _ :: t, O => v :: t
  | h :: t, S k' => h :: store t k' v
  end.

Definition assign {A : Type} (leds : list A) (kv : Z * A) : list A :=
  store leds (Z.to_nat (fst kv)) (snd kv).

(** The array after the assignments of a frame, in order. *)
Definition show {A : Type} (frame : list (Z * A)) (leds : list A) : list A :=
  fold_left assign frame leds.

(** ** One pass of [loop]

    [resize()], then [mandel()] on the array; [FastLED.show()] then
    sends the array.  In Julia-palette the palette is the one that
    [nblendPaletteTowardPalette] has reached by then; [t1] and [t2] are
    the two clock readings of [resize]. *)
Definition mandelbrot_minimal_loop (CHSV : Z -> Z -> Z -> CRGB)
  (reAl imAg zoOm : float) (leds : list (option CRGB))
  : list (option CRGB) :=
  let g := MandelbrotMinimal.resize reAl imAg zoOm in
  show (mandel (shade_of (color_hue CHSV maxIterations)
                  (mandelbrot_cell maxIterations maxCalc))
          (win g))
       leds.

Definition julia_palette_loop (sinf : float -> float)
  (ColorFromPalette : CRGBPalette16 -> Z -> Z -> CRGB)
  (currentPalette : CRGBPalette16) (t1 t2 : Z)
  (leds : list (option CRGB)) : list (option CRGB) :=
  let g := JuliaPalette.resize sinf t1 t2 in
  show (mandel (shade_of (color_palette ColorFromPalette currentPalette
                            maxIterations)
                  (julia_cell maxIterations maxCalc (reAl g) (imAg g)))
          (win g))
       leds.

Definition julia_loop (sinf : float -> float) (CHSV : Z -> Z -> Z -> CRGB)
  (t1 t2 : Z) (leds : list (option CRGB)) : list (option CRGB) :=
  let g := Julia.resize sinf t1 t2 in
  show (mandel (shade_of (color_hue CHSV maxIterations)
                  (julia_cell maxIterations maxCalc (reAl g) (imAg g)))
          (win g))
       leds.

(** ** The frame counter of Mandelbrot

    [showfps] keeps two statics, [loops] and [lastMillis], both zero at
    start; it reads the clock into [currentMillis] and may print [loops].
    [int] and [long] are plain [Z]: the clock stays below 2^31 ms and
    fewer than 2^15 frames pass between two lines. *)
Record fps : Type := mkFps { loops : Z; lastMillis : Z }.

Definition showfps (currentMillis : Z) (s : fps) : fps * option Z :=
  let loops := loops s + 1 in
  if currentMillis - lastMillis s >? 1000
  then (mkFps 0 currentMillis, Some loops)
  else (mkFps loops (lastMillis s), None).

(** [showfps] called at each of [times] in turn: the statics at the end
    and the lines printed, each with the time it was printed at. *)
Fixpoint showfps_run (times : list Z) (s : fps) : fps * list (Z * Z) :=
  match times with
  | [] => (s, [])
  | t :: times' =>
      let r := showfps t s in
      let rs := showfps_run times' (fst r) in
      (fst rs,
       match snd r with
       | Some n => (t, n) :: snd rs
       | None => snd rs
       end)
  end.

(** Times that are each more than a second after the one before. *)
Fixpoint apart (t0 : Z) (ts : list Z) : Prop :=
  match ts with
  | [] => True
  | t :: ts' => t0 + 1000 < t /\ apart t ts'
  end.

Definition total (l : list Z) : Z := fold_right Z.add 0 l.

(** ** Bounds on single-precision values

    The vocabulary of the rounding lemmas: what a rounded result can be,
    and a float lying above or below a rational. *)

(** The last step of [binary_round_aux]: a mantissa and an exponent put
    back into a float. *)
Definition pack (s : bool) (m e : Z) : float :=
  match m with
  | Z0 => S754_zero s
  | Zpos p => if e <=? emax - prec then S754_finite s p e else S754_infinity s
  | Zneg _ => S754_nan
  end.

(** A mantissa of 24 bits with an exponent in range. *)
Definition normalF (mF eF : Z) : Prop :=
  2 ^ 23 <= mF < 2 ^ 24 /\ -149 <= eF <= 104.

Definition normal_float (F : float) : Prop :=
  match F with
  | S754_finite _ m e => normalF (Zpos m) e
  | _ => False
  end.

(** A result of sign [s] whose magnitude is at least, or at most, [q]. *)
Definition rounded_ge (s : bool) (q : Q) (r : float) : Prop :=
  r = S754_infinity s \/
  exists m e, r = S754_finite s m e /\ bounded prec emax m e = true /\
              (q <= valQ (Zpos m) e)%Q.

Definition rounded_le (s : bool) (q : Q) (r : float) : Prop :=
  r = S754_zero s \/
  exists m e, r = S754_finite s m e /\ bounded prec emax m e = true /\
              (valQ (Zpos m) e <= q)%Q.

Definition rounded (s : bool) (r : float) : Prop :=
  r = S754_zero s \/ r = S754_infinity s \/
  exists m e, r = S754_finite s m e /\ bounded prec emax m e = true.

(** [x >= q] and [x <= q] for a float [x] that is not NaN and, when
    finite, is a valid binary32 number. *)
Definition f_ge (q : Q) (x : float) : Prop :=
  match x with
  | S754_infinity false => True
  | S754_zero _ => (q <= 0)%Q
  | S754_finite s m e => bounded prec emax m e = true /\ (q <= F2Q x)%Q
  | _ => False
  end.

Definition f_le (q : Q) (x : float) : Prop :=
  match x with
  | S754_infinity true => True
  | S754_zero _ => (0 <= q)%Q
  | S754_finite s m e => bounded prec emax m e = true /\ (F2Q x <= q)%Q
  | _ => False
  end.

(** A value that is a number: not NaN, and a valid binary32 float when
    finite.  [sin] returns one for every finite argument. *)
Definition number (s : float) : Prop :=
  valid_binary prec emax s = true /\ is_nan s = false.

(** What is asked of a value returned by [sin] where its size matters:
    a valid float in [-1, 1]. *)
Definition unit_value (s : float) : Prop := f_ge (-1) s /\ f_le 1 s.

(** A zoom far beyond what single precision resolves around [-0.5]. *)
Definition huge_zoom : float := of_int 1000000000000.

(** Inputs used as examples below. *)

(** [(-2, 2^-30)]: just outside the circle of radius 2. *)
Definition near2_re : float := of_int (-2).
Definition near2_im : float := S754_finite false 8388608 (-53).

(** A stand-in for [sin] in the examples: exact at 0, the only point
    where they evaluate it. *)
Definition sin_near_0 (x : float) : float := x.

(** A stand-in for [sin] around pi, for the examples: [pi - x], which
    [sin x] equals there up to [(pi - x)^3 / 6]. *)
Definition float_pi : float := S754_finite false 13176795 (-22).
Definition sin_near_pi (x : float) : float := fsub float_pi x.

(** Stand-ins for the FastLED colour functions, for the examples. *)
Definition grey_CHSV (h s v : Z) : CRGB := mkCRGB h s v.
Definition nth_ColorFromPalette (p : CRGBPalette16) (index brightness : Z)
  : CRGB :=
  nth (Z.to_nat (index / 16)) p (mkCRGB brightness brightness brightness).

(** * Properties *)

(** [lia] stumbles on powers of 2 with symbolic exponents: name them. *)
Ltac hide_pow :=
  repeat match goal with
  | H : context [Z.pow 2 ?x] |- _ =>
      let v := fresh "pw" in set (v := Z.pow 2 x) in *; clearbody v
  | |- context [Z.pow 2 ?x] =>
      let v := fresh "pw" in set (v := Z.pow 2 x) in *; clearbody v
  end.

(** Side conditions on constants, by computation. *)
Ltac closed :=
  vm_compute;
  repeat match goal with |- _ /\ _ => split end;
  first [ reflexivity | discriminate | exact I ].


(** ** Coordinate mapper *)

Lemma land_1_odd (y : Z) : negb (Z.land y 1 =? 0) = Z.odd y.
Proof.
  change 1 with (Z.ones 1).
  rewrite Z.land_ones by lia.
  change (2 ^ 1) with 2.
  rewrite Zmod_odd.
  destruct (Z.odd y); reflexivity.
Qed.

Lemma uint8_small (z : Z) : 0 <= z <= 255 -> uint8 z = z.
Proof. intros H. unfold uint8. apply Z.mod_small. lia. Qed.

Lemma uint16_small (z : Z) : 0 <= z <= 65535 -> uint16 z = z.
Proof. intros H. unfold uint16. apply Z.mod_small. lia. Qed.

Lemma XY_gen_row_major (width x y : Z) :
  0 <= x < width -> width <= 255 -> 0 <= y <= 255 ->
  XY_gen width false x y = y * width + x.
Proof.
  intros Hx Hw Hy. unfold XY_gen. cbv zeta. cbn [Bool.eqb].
  rewrite (uint8_small x), (uint8_small y) by lia.
  apply uint16_small. nia.
Qed.

Lemma XY_gen_serpentine (width x y : Z) :
  0 <= x < width -> width <= 255 -> 0 <= y <= 255 ->
  XY_gen width true x y =
    if Z.odd y then y * width + (width - 1 - x) else y * width + x.
Proof.
  intros Hx Hw Hy. unfold XY_gen. cbv zeta. cbn [Bool.eqb].
  rewrite (uint8_small x), (uint8_small y) by lia.
  rewrite land_1_odd.
  destruct (Z.odd y).
  - rewrite (uint8_small (width - 1 - x)) by lia.
    apply uint16_small. nia.
  - apply uint16_small. nia.
Qed.

(** C2: for every in-range cell the mapper is row-major when the layout
    is not serpentine; when it is, odd rows (by the parity of [y]) run
    backwards, [y*width + (width-1-x)], and even rows forwards.  With
    [width = 4], row 0 is [0,1,2,3] and row 1 is [7,6,5,4]. *)
Theorem XY_row_parity (width height x y : Z) :
  0 <= x <= width - 1 -> 0 <= y <= height - 1 ->
  width <= 255 -> height <= 255 ->
  XY_gen width false x y = y * width + x /\
  (Z.odd y = true -> XY_gen width true x y = y * width + (width - 1 - x)) /\
  (Z.odd y = false -> XY_gen width true x y = y * width + x) /\
  row_indices 4 true 0 = [0; 1; 2; 3] /\
  row_indices 4 true 1 = [7; 6; 5; 4].
Proof.
  intros Hx Hy Hw Hh.
  split; [apply XY_gen_row_major; lia|].
  split; [|split].
  - intros Ho. rewrite XY_gen_serpentine by lia. now rewrite Ho.
  - intros He. rewrite XY_gen_serpentine by lia. now rewrite He.
  - split; reflexivity.
Qed.

Lemma XY_row_parity_witness :
  XY_gen 16 false 3 5 = 5 * 16 + 3 /\
  (Z.odd 5 = true -> XY_gen 16 true 3 5 = 5 * 16 + (16 - 1 - 3)) /\
  (Z.odd 5 = false -> XY_gen 16 true 3 5 = 5 * 16 + 3) /\
  row_indices 4 true 0 = [0; 1; 2; 3] /\
  row_indices 4 true 1 = [7; 6; 5; 4].
Proof.
  apply (XY_row_parity 16 16 3 5); lia.
Defined.

Lemma XY_closed_form (x y : Z) :
  in_grid x y -> XY x y = 16 * y + (if Z.odd y then 15 - x else x).
Proof.
  intros [Hx Hy]. unfold XY, matrixSerpentineLayout, matrixWidth.
  rewrite XY_gen_serpentine by lia.
  destruct (Z.odd y); lia.
Qed.

Lemma XY_in_range (x y : Z) : in_grid x y -> 0 <= XY x y < 256.
Proof.
  intros H. rewrite XY_closed_form by exact H.
  destruct H as [Hx Hy]. destruct (Z.odd y); lia.
Qed.

Lemma XY_inv_left (x y : Z) : in_grid x y -> XY_inv (XY x y) = (x, y).
Proof.
  intros H. rewrite XY_closed_form by exact H.
  destruct H as [Hx Hy]. unfold XY_inv.
  assert (Hd : forall c, 0 <= c < 16 -> (16 * y + c) / 16 = y).
  { intros c Hc. symmetry. apply (Z.div_unique _ 16 y c); lia. }
  assert (Hm : forall c, 0 <= c < 16 -> (16 * y + c) mod 16 = c).
  { intros c Hc. symmetry. apply (Z.mod_unique _ 16 y c); lia. }
  destruct (Z.odd y) eqn:Ho; cbv zeta.
  - rewrite Hd, Hm by lia. rewrite Ho. f_equal. lia.
  - rewrite Hd, Hm by lia. rewrite Ho. reflexivity.
Qed.

Lemma XY_inv_right (k : Z) :
  0 <= k < 256 ->
  in_grid (fst (XY_inv k)) (snd (XY_inv k)) /\
  XY (fst (XY_inv k)) (snd (XY_inv k)) = k.
Proof.
  intros Hk.
  assert (Hc : 0 <= k mod 16 < 16) by (apply Z.mod_pos_bound; lia).
  assert (Hq : 0 <= k / 16 < 16).
  { split; [apply Z.div_pos; lia | apply Z.div_lt_upper_bound; lia]. }
  assert (He : k = 16 * (k / 16) + k mod 16) by (apply Z.div_mod; lia).
  assert (Hg : in_grid (fst (XY_inv k)) (snd (XY_inv k))).
  { unfold XY_inv, in_grid. cbv zeta. cbn [fst snd].
    destruct (Z.odd (k / 16)); lia. }
  split; [exact Hg|].
  rewrite XY_closed_form by exact Hg.
  unfold XY_inv. cbv zeta. cbn [fst snd].
  destruct (Z.odd (k / 16)); lia.
Qed.

(** C3: on the 16x16 grid with the serpentine layout, [XY] is a
    bijection onto [0, 256): it stays in range and every index is the
    image of exactly one cell. *)
Theorem XY_bijection_16 :
  (forall x y, in_grid x y -> 0 <= XY x y < 256) /\
  (forall k, 0 <= k < 256 ->
     exists! p : Z * Z, in_grid (fst p) (snd p) /\ XY (fst p) (snd p) = k).
Proof.
  split; [exact XY_in_range|].
  intros k Hk. exists (XY_inv k). split.
  - apply XY_inv_right, Hk.
  - intros [x y] [Hg He]. simpl in Hg, He.
    rewrite <- He. apply XY_inv_left, Hg.
Qed.

Lemma XY_bijection_16_witness :
  0 <= XY 3 5 < 256 /\
  exists! p : Z * Z, in_grid (fst p) (snd p) /\ XY (fst p) (snd p) = 92.
Proof.
  split.
  - apply (proj1 XY_bijection_16 3 5). unfold in_grid. lia.
  - apply (proj2 XY_bijection_16 92). lia.
Defined.

Lemma XY_gen_closed_form (width : Z) (serpentine : bool) (x y : Z) :
  0 <= x < width -> width <= 255 -> 0 <= y <= 255 ->
  XY_gen width serpentine x y
  = y * width + (if serpentine && Z.odd y then width - 1 - x else x).
Proof.
  intros Hx Hw Hy. destruct serpentine; cbn [andb].
  - rewrite XY_gen_serpentine by lia. destruct (Z.odd y); lia.
  - apply XY_gen_row_major; lia.
Qed.

(** X1: the matrix is resizable.  For any width and height that fit a
    [uint8_t], with at most 32768 cells (so that [y * matrixWidth] fits
    a 16-bit [int]), and for either layout, [XY] is a bijection from the
    grid onto [0, width*height): every cell gets an index inside the
    strip, [XY_gen_inv] finds the cell back, and every index of the strip
    is the index of a cell. *)
Theorem XY_gen_bijection (width height : Z) (serpentine : bool) :
  1 <= width <= 255 -> 0 <= height <= 255 -> width * height <= 32768 ->
  (forall x y, 0 <= x < width -> 0 <= y < height ->
     0 <= XY_gen width serpentine x y < width * height /\
     XY_gen_inv width serpentine (XY_gen width serpentine x y) = (x, y)) /\
  (forall k, 0 <= k < width * height ->
     0 <= fst (XY_gen_inv width serpentine k) < width /\
     0 <= snd (XY_gen_inv width serpentine k) < height /\
     XY_gen width serpentine (fst (XY_gen_inv width serpentine k))
       (snd (XY_gen_inv width serpentine k)) = k).
Proof.
  intros Hw Hh _. split.
  - intros x y Hx Hy.
    rewrite XY_gen_closed_form by lia.
    set (c := if serpentine && Z.odd y then width - 1 - x else x).
    assert (Hc : 0 <= c < width) by (subst c; destruct (_ && _); lia).
    assert (Hd : (y * width + c) / width = y).
    { symmetry. apply (Z.div_unique _ width y c); lia. }
    assert (Hm : (y * width + c) mod width = c).
    { symmetry. apply (Z.mod_unique _ width y c); lia. }
    split; [nia|].
    unfold XY_gen_inv. cbv zeta. rewrite Hd, Hm. subst c.
    destruct (serpentine && Z.odd y); f_equal; lia.
  - intros k Hk. unfold XY_gen_inv. cbv zeta. cbn [fst snd].
    assert (Hc : 0 <= k mod width < width) by (apply Z.mod_pos_bound; lia).
    assert (Hq : 0 <= k / width < height).
    { split; [apply Z.div_pos; lia|].
      apply Z.div_lt_upper_bound; lia. }
    pose proof (Z.div_mod k width ltac:(lia)) as Hdm.
    assert (Hx : 0 <= (if serpentine && Z.odd (k / width)
                       then width - 1 - k mod width else k mod width) < width)
      by (destruct (_ && _); lia).
    split; [exact Hx|]. split; [exact Hq|].
    rewrite XY_gen_closed_form by lia.
    destruct (serpentine && Z.odd (k / width)); lia.
Qed.

Lemma XY_gen_bijection_witness :
  (0 <= XY_gen 8 true 3 5 < 8 * 32 /\
   XY_gen_inv 8 true (XY_gen 8 true 3 5) = (3, 5)) /\
  XY_gen 8 false (fst (XY_gen_inv 8 false 255)) (snd (XY_gen_inv 8 false 255))
    = 255.
Proof.
  split.
  - apply (XY_gen_bijection 8 32 true); lia.
  - apply (XY_gen_bijection 8 32 false); lia.
Defined.

(** X2: the strip snakes through the matrix.  Two cells whose indices
    follow each other are neighbours: they differ by one step along a
    row or, at the end of a row, by one step up the same column. *)
Theorem XY_consecutive_adjacent (x y x' y' : Z) :
  in_grid x y -> in_grid x' y' ->
  XY x' y' = XY x y + 1 ->
  Z.abs (x' - x) + Z.abs (y' - y) = 1.
Proof.
  intros H H' He.
  rewrite !XY_closed_form in He by assumption.
  destruct H as [Hx Hy], H' as [Hx' Hy'].
  assert (Hyy : y' = y \/ y' = y + 1)
    by (destruct (Z.odd y), (Z.odd y'); lia).
  destruct Hyy as [-> | ->].
  - destruct (Z.odd y); lia.
  - rewrite Z.odd_add in He. change (Z.odd 1) with true in He.
    destruct (Z.odd y); cbn [xorb] in He; lia.
Qed.

Lemma XY_consecutive_adjacent_witness :
  XY 15 1 = XY 15 0 + 1 /\ Z.abs (15 - 15) + Z.abs (1 - 0) = 1.
Proof.
  split; [reflexivity|].
  apply (XY_consecutive_adjacent 15 0 15 1);
    [unfold in_grid; lia | unfold in_grid; lia | reflexivity].
Defined.

(** X3: [XY] checks no bound.  Its arguments are taken modulo 256, and
    for a column of the matrix the index falls inside [leds] exactly
    when the row is one of the matrix: a row from 16 to 255 gives an
    index from 256 on. *)
Theorem XY_row_out_of_range (x y : Z) :
  0 <= x < 16 -> 0 <= y < 256 ->
  (XY x y < NUM_LEDS <-> y < 16) /\
  XY (x + 256) y = XY x y /\ XY x (y + 256) = XY x y.
Proof.
  intros Hx Hy. split; [|split].
  - unfold XY, matrixSerpentineLayout, matrixWidth.
    rewrite XY_gen_serpentine by lia.
    change NUM_LEDS with 256. destruct (Z.odd y); lia.
  - unfold XY, XY_gen, uint8. cbv zeta.
    replace ((x + 256) mod 256) with (x mod 256); [reflexivity|].
    rewrite <- (Z.mul_1_l 256) at 2. now rewrite Z.mod_add.
  - unfold XY, XY_gen, uint8. cbv zeta.
    replace ((y + 256) mod 256) with (y mod 256); [reflexivity|].
    rewrite <- (Z.mul_1_l 256) at 2. now rewrite Z.mod_add.
Qed.

Lemma XY_row_out_of_range_witness :
  XY 0 16 = 256 /\ (XY 0 16 < NUM_LEDS <-> 16 < 16) /\ XY 256 16 = XY 0 16.
Proof.
  split; [reflexivity|].
  destruct (XY_row_out_of_range 0 16) as (H & Hx & _); [lia | lia |].
  split; [exact H | exact Hx].
Defined.

(** ** Escape-time evaluator *)

Section Loop.

Variable maxIt : Z.
Variables limit cre cim : float.

(** The loop body either stops, or applies [update] and counts it. *)
Lemma loop_body_next (s s' : cell) :
  loop_body maxIt limit cre cim s = Next s' ->
  iter s < maxIt /\ escaped limit (a s, b s) = false /\
  (a s', b s') = update cre cim (a s, b s) /\ iter s' = iter s + 1.
Proof.
  unfold loop_body, escaped, update. cbn [fst snd].
  destruct (iter s <? maxIt) eqn:Hlt; [|discriminate].
  destruct (fgt _ limit) eqn:Hesc; [discriminate|].
  intros H. injection H as <-. cbn [a b iter].
  apply Z.ltb_lt in Hlt. auto.
Qed.

Lemma loop_body_exit (s : cell) :
  loop_body maxIt limit cre cim s = Exit ->
  maxIt <= iter s \/ (iter s < maxIt /\ escaped limit (a s, b s) = true).
Proof.
  unfold loop_body, escaped. cbn [fst snd].
  destruct (iter s <? maxIt) eqn:Hlt.
  - apply Z.ltb_lt in Hlt.
    destruct (fgt _ limit) eqn:Hesc; [auto | discriminate].
  - apply Z.ltb_ge in Hlt. auto.
Qed.

Lemma orbit_shift (z : float * float) (k : nat) :
  orbit cre cim (update cre cim z) k = orbit cre cim z (S k).
Proof.
  induction k as [|k IH]; [reflexivity|].
  cbn [orbit]. rewrite IH. reflexivity.
Qed.

(** The loop stops within the fuel that is left for it, and its counter
    of updates agrees with [iter]. *)
Lemma while_loop_stops (fuel : nat) :
  forall (s : cell) (u : nat),
    (Z.to_nat (maxIt - iter s) < fuel)%nat ->
    exists (s' : cell) (n : nat),
      while_loop fuel maxIt limit cre cim s u = Some (s', (u + n)%nat) /\
      (n <= Z.to_nat (maxIt - iter s))%nat /\
      stopped_after maxIt limit cre cim s s' n.
Proof.
  induction fuel as [|fuel IH]; intros s u Hfuel; [lia|].
  cbn [while_loop].
  destruct (loop_body maxIt limit cre cim s) as [s1|] eqn:Hbody.
  - apply loop_body_next in Hbody.
    destruct Hbody as (Hlt & Hin & Hupd & Hiter).
    destruct (IH s1 (S u)) as (s' & n & Hrun & Hn & Hi & Ho & Hbefore & Hend).
    { rewrite Hiter. lia. }
    exists s', (S n). split; [|split].
    + rewrite Hrun. f_equal. f_equal. lia.
    + rewrite Hiter in Hn. lia.
    + unfold stopped_after. rewrite Hupd, orbit_shift in Ho.
      split; [lia|]. split; [exact Ho|]. split.
      * intros [|k] Hk; [exact Hin|].
        rewrite <- orbit_shift, <- Hupd. apply Hbefore. lia.
      * rewrite <- orbit_shift, <- Hupd. exact Hend.
  - exists s, O. split; [|split].
    + f_equal. f_equal. lia.
    + lia.
    + unfold stopped_after. cbn [orbit]. split; [lia|].
      split; [reflexivity|]. split; [intros k Hk; lia|].
      apply loop_body_exit, Hbody.
Qed.

(** More fuel does not change what the loop returns. *)
Lemma while_loop_more_fuel (fuel : nat) :
  forall (fuel' : nat) (s : cell) (u : nat) (r : cell * nat),
    (fuel <= fuel')%nat ->
    while_loop fuel maxIt limit cre cim s u = Some r ->
    while_loop fuel' maxIt limit cre cim s u = Some r.
Proof.
  induction fuel as [|fuel IH]; intros fuel' s u r Hle Hrun;
    [discriminate|].
  destruct fuel' as [|fuel']; [lia|].
  cbn [while_loop] in *.
  destruct (loop_body maxIt limit cre cim s) as [s1|]; [|exact Hrun].
  apply IH; [lia | exact Hrun].
Qed.

End Loop.

(** C1: the evaluator returns a count in [0, maxIterations], and the
    count is [maxIterations] exactly when none of the points tested by
    the bounded loop (the first [maxIterations] points of the orbit) was
    beyond the squared escape radius. *)
Theorem escape_time_range_and_inside
  (maxIt : Z) (limit cre cim x y : float) :
  0 <= maxIt ->
  exists r : Z,
    escape_time maxIt limit cre cim x y = Some r /\
    0 <= r <= maxIt /\
    (r = maxIt <->
     forall k, (k < Z.to_nat maxIt)%nat ->
       escaped limit (orbit cre cim (x, y) k) = false).
Proof.
  intros Hpos.
  destruct (while_loop_stops maxIt limit cre cim (enough maxIt)
              (mkCell x y 0) 0%nat)
    as (s' & n & Hrun & Hn & Hi & _ & Hbefore & Hend).
  { unfold enough. cbn [iter]. rewrite Z.sub_0_r. lia. }
  cbn [a b iter] in *. rewrite Z.sub_0_r in Hn.
  exists (iter s'). unfold escape_time. rewrite Hrun. cbn [option_map fst].
  split; [reflexivity|]. split; [lia|]. split.
  - intros Hr k Hk. apply Hbefore. lia.
  - intros Hin. destruct Hend as [Hge | [Hlt Hesc]]; [lia|].
    rewrite Hin in Hesc by lia. discriminate.
Qed.

Lemma escape_time_range_and_inside_witness :
  exists r : Z,
    escape_time 15 (of_int 16) (of_int 0) (of_int 0) (of_int 0) (of_int 0)
      = Some r /\
    0 <= r <= 15 /\
    (r = 15 <->
     forall k, (k < Z.to_nat 15)%nat ->
       escaped (of_int 16) (orbit (of_int 0) (of_int 0) (of_int 0, of_int 0) k)
         = false).
Proof.
  apply (escape_time_range_and_inside 15). lia.
Defined.

(** C4: whatever the window, the starting point and the constant (NaN
    and infinities included), the loop stops: the fuel [enough], or any
    larger one, is never exhausted, the body has run at most
    [maxIterations] times, and the count returned is the number of
    updates made.  No input is rejected. *)
Theorem while_loop_terminates
  (maxIt : Z) (limit cre cim x y : float) :
  exists (s' : cell) (n : nat),
    (forall fuel : nat, (enough maxIt <= fuel)%nat ->
       while_loop fuel maxIt limit cre cim (mkCell x y 0) 0 = Some (s', n)) /\
    (n <= Z.to_nat maxIt)%nat /\
    iter s' = Z.of_nat n /\
    escape_time maxIt limit cre cim x y = Some (Z.of_nat n).
Proof.
  destruct (while_loop_stops maxIt limit cre cim (enough maxIt)
              (mkCell x y 0) 0%nat)
    as (s' & n & Hrun & Hn & Hi & _).
  { unfold enough. cbn [iter]. lia. }
  cbn [iter] in *. rewrite Z.sub_0_r in Hn.
  exists s', n. split; [|split; [exact Hn|split; [lia|]]].
  - intros fuel Hfuel.
    apply (while_loop_more_fuel maxIt limit cre cim (enough maxIt));
      [exact Hfuel | exact Hrun].
  - unfold escape_time. rewrite Hrun. cbn [option_map fst]. f_equal. lia.
Qed.

Lemma while_loop_terminates_witness :
  exists (s' : cell) (n : nat),
    while_loop 16 15 (of_int 16) (of_int 0) (of_int 0)
      (mkCell (of_int 0) (of_int 0) 0) 0 = Some (s', n) /\
    (n <= 15)%nat.
Proof.
  destruct (while_loop_terminates 15 (of_int 16) (of_int 0) (of_int 0)
              (of_int 0) (of_int 0)) as (s' & n & Hrun & Hn & _).
  exists s', n. split; [apply Hrun; unfold enough; cbn; lia | exact Hn].
Defined.

(** A starting point beyond the limit leaves the loop at its first
    test. *)
Lemma while_loop_exit_at_start
  (maxIt : Z) (limit cre cim x y : float) :
  1 <= maxIt ->
  escaped limit (x, y) = true ->
  while_loop (enough maxIt) maxIt limit cre cim (mkCell x y 0) 0
    = Some (mkCell x y 0, 0%nat).
Proof.
  intros Hmax Hesc.
  assert (Hbody : loop_body maxIt limit cre cim (mkCell x y 0) = Exit).
  { unfold loop_body. cbn [a b iter].
    replace (0 <? maxIt) with true by (symmetry; apply Z.ltb_lt; lia).
    unfold escaped in Hesc. cbn [fst snd] in Hesc. now rewrite Hesc. }
  unfold enough. cbn [while_loop]. now rewrite Hbody.
Qed.

(** C10: the test comes before the update.  A starting point already
    beyond the squared escape radius is left untouched: no update is
    made and the count is 0, for any bound of at least 1. *)
Theorem escape_at_start
  (maxIt : Z) (limit cre cim x y : float) :
  1 <= maxIt ->
  escaped limit (x, y) = true ->
  while_loop (enough maxIt) maxIt limit cre cim (mkCell x y 0) 0
    = Some (mkCell x y 0, 0%nat) /\
  escape_time maxIt limit cre cim x y = Some 0.
Proof.
  intros Hmax Hesc.
  pose proof (while_loop_exit_at_start maxIt limit cre cim x y Hmax Hesc)
    as Hrun.
  split; [exact Hrun|].
  unfold escape_time. now rewrite Hrun.
Qed.

Lemma escape_at_start_witness :
  while_loop (enough 15) 15 (of_int 16) (of_int 5) (of_int 0)
    (mkCell (of_int 5) (of_int 0) 0) 0
    = Some (mkCell (of_int 5) (of_int 0) 0, 0%nat) /\
  escape_time 15 (of_int 16) (of_int 5) (of_int 0) (of_int 5) (of_int 0)
    = Some 0.
Proof.
  apply (escape_at_start 15); [lia | vm_compute; reflexivity].
Defined.

(** The cell [(3, 0)] of a Mandelbrot sketch: one update, then out. *)
Lemma loop_body_three_first (maxIt : Z) :
  loop_body maxIt (of_int 16) (of_int 3) (of_int 0)
    (mkCell (of_int 3) (of_int 0) 0)
  = if 0 <? maxIt then Next (mkCell (of_int 12) (of_int 0) 1) else Exit.
Proof.
  unfold loop_body. cbn [a b iter].
  destruct (0 <? maxIt); [vm_compute|]; reflexivity.
Qed.

Lemma loop_body_three_second (maxIt : Z) :
  loop_body maxIt (of_int 16) (of_int 3) (of_int 0)
    (mkCell (of_int 12) (of_int 0) 1)
  = Exit.
Proof.
  unfold loop_body. cbn [a b iter].
  destruct (1 <? maxIt); [vm_compute|]; reflexivity.
Qed.

(** C6, as the code has it: a cell of a Mandelbrot sketch whose squared
    magnitude, as the loop computes it, is already beyond the squared
    radius has the count 0, below any bound of at least 1.  With the
    squared radius 16, the cell [c = (3, 0)], starting point and
    constant, returns a count of at most 1 for every bound; the count is
    1, below the bound, as soon as the bound is at least 2. *)
Theorem three_escapes_within_one (maxIt : Z) :
  (forall limit x y,
     1 <= maxIt -> escaped limit (x, y) = true ->
     mandelbrot_cell maxIt limit x y = Some 0 /\ 0 < maxIt) /\
  exists r : Z,
    mandelbrot_cell maxIt (of_int 16) (of_int 3) (of_int 0) = Some r /\
    r <= 1 /\
    (2 <= maxIt -> r = 1 /\ r < maxIt).
Proof.
  split.
  - intros limit x y Hmax Hesc. split; [|lia].
    unfold mandelbrot_cell, escape_time.
    now rewrite (while_loop_exit_at_start maxIt limit x y x y Hmax Hesc).
  - unfold mandelbrot_cell, escape_time, enough.
    cbn [while_loop]. rewrite loop_body_three_first.
    destruct (0 <? maxIt) eqn:Hpos.
    + apply Z.ltb_lt in Hpos.
      destruct (Z.to_nat maxIt) as [|fuel] eqn:Hfuel; [lia|].
      cbn [while_loop]. rewrite loop_body_three_second.
      exists 1. cbn [option_map fst iter]. repeat split; lia.
    + apply Z.ltb_ge in Hpos.
      exists 0. cbn [option_map fst iter]. repeat split; lia.
Qed.

Lemma three_escapes_within_one_witness :
  mandelbrot_cell 15 (of_int 16) (of_int 5) (of_int 0) = Some 0 /\
  exists r : Z,
    mandelbrot_cell 15 (of_int 16) (of_int 3) (of_int 0) = Some r /\
    r <= 1 /\
    (2 <= 15 -> r = 1 /\ r < 15).
Proof.
  destruct (three_escapes_within_one 15) as [Hgen Hthree].
  split; [|exact Hthree].
  apply Hgen; [lia | vm_compute; reflexivity].
Defined.

(** C6, as stated, fails: the cell [(-2, 2^-30)] has a magnitude above 2
    and still runs the whole loop of the sketches (15 iterations, squared
    radius 16) without passing the test. *)
Lemma outside_radius_2_not_escaped :
  norm_above_2 near2_re near2_im /\
  mandelbrot_cell maxIterations maxCalc near2_re near2_im
    = Some maxIterations /\
  ~ (exists r : Z,
       mandelbrot_cell maxIterations maxCalc near2_re near2_im = Some r /\
       r < maxIterations).
Proof.
  assert (H : mandelbrot_cell maxIterations maxCalc near2_re near2_im
              = Some maxIterations) by (vm_compute; reflexivity).
  split; [|split].
  - unfold norm_above_2. repeat split.
  - exact H.
  - intros (r & Hr & Hlt). rewrite H in Hr. injection Hr as <-. lia.
Qed.

(** *** The count as a first escape *)

(** The count of a cell is the index of the first point of its orbit
    that is beyond the limit, or the bound when there is none. *)
Lemma escape_time_spec (maxIt : Z) (limit cre cim x y : float) :
  0 <= maxIt ->
  exists r : Z,
    escape_time maxIt limit cre cim x y = Some r /\
    0 <= r <= maxIt /\
    (forall k, (k < Z.to_nat r)%nat ->
       escaped limit (orbit cre cim (x, y) k) = false) /\
    (r = maxIt \/
     escaped limit (orbit cre cim (x, y) (Z.to_nat r)) = true).
Proof.
  intros Hpos.
  destruct (while_loop_stops maxIt limit cre cim (enough maxIt)
              (mkCell x y 0) 0%nat)
    as (s' & n & Hrun & Hn & Hi & _ & Hbefore & Hend).
  { unfold enough. cbn [iter]. rewrite Z.sub_0_r. lia. }
  cbn [a b iter] in *. rewrite Z.sub_0_r in Hn.
  exists (iter s'). unfold escape_time. rewrite Hrun. cbn [option_map fst].
  rewrite Hi, Z.add_0_l, Nat2Z.id.
  split; [reflexivity|]. split; [lia|]. split; [exact Hbefore|].
  destruct Hend as [Hge | [_ Hesc]]; [left; lia | right; exact Hesc].
Qed.

Lemma first_escape_unique (maxIt : Z) (limit cre cim x y : float) (r r' : Z) :
  0 <= r <= maxIt -> 0 <= r' <= maxIt ->
  (forall k, (k < Z.to_nat r)%nat ->
     escaped limit (orbit cre cim (x, y) k) = false) ->
  (r = maxIt \/ escaped limit (orbit cre cim (x, y) (Z.to_nat r)) = true) ->
  (forall k, (k < Z.to_nat r')%nat ->
     escaped limit (orbit cre cim (x, y) k) = false) ->
  (r' = maxIt \/ escaped limit (orbit cre cim (x, y) (Z.to_nat r')) = true) ->
  r = r'.
Proof.
  intros Hr Hr' Hb He Hb' He'.
  destruct (Z.lt_trichotomy r r') as [Hlt | [Heq | Hgt]]; [|exact Heq|].
  - destruct He as [He | He]; [lia|].
    rewrite Hb' in He by lia. discriminate.
  - destruct He' as [He' | He']; [lia|].
    rewrite Hb in He' by lia. discriminate.
Qed.

(** No escape among the points that the loop tests: the count is the
    bound. *)
Lemma escape_time_inside (maxIt : Z) (limit cre cim x y : float) :
  0 <= maxIt ->
  (forall k, (k < Z.to_nat maxIt)%nat ->
     escaped limit (orbit cre cim (x, y) k) = false) ->
  escape_time maxIt limit cre cim x y = Some maxIt.
Proof.
  intros Hpos Hin.
  destruct (escape_time_spec maxIt limit cre cim x y Hpos)
    as (r & Hrun & Hr & _ & He).
  rewrite Hrun. f_equal.
  destruct He as [He | He]; [exact He|].
  destruct (Z.eq_dec r maxIt) as [H|H]; [exact H|].
  rewrite Hin in He by lia. discriminate.
Qed.

(** X4: what the count is.  The loop returns [r] exactly when [r] is
    the index of the first point of the orbit [z, z^2+c, ...] that fails
    the test [a*a + b*b > maxCalc], or [r] is the bound and no point
    before it fails the test. *)
Theorem escape_time_first_escape
  (maxIt : Z) (limit cre cim x y : float) (r : Z) :
  0 <= maxIt ->
  (escape_time maxIt limit cre cim x y = Some r <->
   0 <= r <= maxIt /\
   (forall k, (k < Z.to_nat r)%nat ->
      escaped limit (orbit cre cim (x, y) k) = false) /\
   (r = maxIt \/
    escaped limit (orbit cre cim (x, y) (Z.to_nat r)) = true)).
Proof.
  intros Hpos.
  destruct (escape_time_spec maxIt limit cre cim x y Hpos)
    as (r0 & Hrun & Hr0 & Hb0 & He0).
  rewrite Hrun. split.
  - intros H. injection H as <-. auto.
  - intros (Hr & Hb & He). f_equal.
    apply (first_escape_unique maxIt limit cre cim x y); assumption.
Qed.

Lemma escape_time_first_escape_witness :
  escape_time 15 (of_int 16) (of_int 3) (of_int 0) (of_int 3) (of_int 0)
    = Some 1.
Proof.
  apply (escape_time_first_escape 15 (of_int 16) (of_int 3) (of_int 0)
           (of_int 3) (of_int 0) 1); [lia|].
  split; [lia|]. split.
  - intros k Hk. assert (k = 0%nat) as -> by lia. reflexivity.
  - right. reflexivity.
Defined.

(** X5: raising [maxIterations] (15 in the sketches, 255 in a comment of
    Julia-palette) never lowers the count of a cell, and leaves the
    count of every cell that escaped as it was: only the cells painted
    black can change. *)
Theorem escape_time_raise_bound
  (maxIt maxIt' : Z) (limit cre cim x y : float) (r : Z) :
  0 <= maxIt -> maxIt <= maxIt' ->
  escape_time maxIt limit cre cim x y = Some r ->
  exists r' : Z,
    escape_time maxIt' limit cre cim x y = Some r' /\
    r <= r' /\ (r < maxIt -> r' = r).
Proof.
  intros Hpos Hle Hrun.
  destruct (escape_time_spec maxIt limit cre cim x y Hpos)
    as (r0 & Hrun0 & Hr & Hb & He).
  rewrite Hrun in Hrun0. injection Hrun0 as <-.
  destruct (escape_time_spec maxIt' limit cre cim x y ltac:(lia))
    as (r' & Hrun' & Hr' & Hb' & He').
  exists r'. split; [exact Hrun'|].
  assert (Hrr : r <= r').
  { destruct (Z_le_gt_dec r r') as [H|H]; [exact H|].
    destruct He' as [He' | He']; [lia|].
    rewrite Hb in He' by lia. discriminate. }
  split; [exact Hrr|].
  intros Hlt. destruct He as [He | He]; [lia|].
  destruct (Z.eq_dec r' r) as [H|H]; [exact H|].
  rewrite Hb' in He by lia. discriminate.
Qed.

Lemma escape_time_raise_bound_witness :
  exists r' : Z,
    escape_time 255 (of_int 16) (of_int 3) (of_int 0) (of_int 3) (of_int 0)
      = Some r' /\ 1 <= r' /\ (1 < 15 -> r' = 1).
Proof.
  apply (escape_time_raise_bound 15 255 (of_int 16) (of_int 3) (of_int 0)
           (of_int 3) (of_int 0) 1); [lia | lia | reflexivity].
Defined.

(** *** NaN *)

Lemma fadd_nan_l (v : float) : fadd S754_nan v = S754_nan.
Proof. reflexivity. Qed.

Lemma fadd_nan_r (u : float) : fadd u S754_nan = S754_nan.
Proof. destruct u; reflexivity. Qed.

Lemma fsub_nan_l (v : float) : fsub S754_nan v = S754_nan.
Proof. reflexivity. Qed.

Lemma fsub_nan_r (u : float) : fsub u S754_nan = S754_nan.
Proof. destruct u; reflexivity. Qed.

Lemma fmul_nan_l (v : float) : fmul S754_nan v = S754_nan.
Proof. reflexivity. Qed.

Lemma fmul_nan_r (u : float) : fmul u S754_nan = S754_nan.
Proof. destruct u; reflexivity. Qed.

Lemma fgt_nan_l (v : float) : fgt S754_nan v = false.
Proof. destruct v; reflexivity. Qed.

Lemma fgt_nan_r (u : float) : fgt u S754_nan = false.
Proof. destruct u; reflexivity. Qed.

Lemma is_nan_eq (u : float) : is_nan u = true -> u = S754_nan.
Proof. destruct u; try discriminate; reflexivity. Qed.

(** A point with a NaN coordinate is not beyond any limit, and the
    recurrence keeps a NaN coordinate. *)
Lemma nan_not_escaped (limit : float) (z : float * float) :
  is_nan (fst z) = true \/ is_nan (snd z) = true ->
  escaped limit z = false.
Proof.
  destruct z as [u v]. cbn [fst snd]. unfold escaped. cbn [fst snd].
  intros [H | H]; apply is_nan_eq in H; subst.
  - rewrite fmul_nan_l, fadd_nan_l. apply fgt_nan_l.
  - rewrite fmul_nan_r, fadd_nan_r. apply fgt_nan_l.
Qed.

Lemma nan_update (cre cim : float) (z : float * float) :
  is_nan (fst z) = true \/ is_nan (snd z) = true ->
  is_nan (fst (update cre cim z)) = true.
Proof.
  destruct z as [u v]. cbn [fst snd]. unfold update. cbn [fst snd].
  intros [H | H]; apply is_nan_eq in H; subst.
  - now rewrite fmul_nan_l, fsub_nan_l, fadd_nan_l.
  - now rewrite fmul_nan_r, fsub_nan_r, fadd_nan_l.
Qed.

Lemma nan_orbit (cre cim : float) (z : float * float) (k : nat) :
  is_nan (fst z) = true \/ is_nan (snd z) = true ->
  is_nan (fst (orbit cre cim z k)) = true \/
  is_nan (snd (orbit cre cim z k)) = true.
Proof.
  intros H. induction k as [|k IH]; [exact H|].
  cbn [orbit]. left. apply nan_update, IH.
Qed.

Lemma nan_constant_update (cre cim : float) (z : float * float) :
  is_nan cre = true \/ is_nan cim = true ->
  is_nan (fst (update cre cim z)) = true \/
  is_nan (snd (update cre cim z)) = true.
Proof.
  unfold update. cbn [fst snd].
  intros [H | H]; apply is_nan_eq in H; subst.
  - left. now rewrite fadd_nan_r.
  - right. now rewrite fadd_nan_r.
Qed.

(** X6: NaN is painted as the inside.  A comparison with NaN is false,
    so a cell never leaves the loop by the test when one of its
    coordinates or the limit is NaN, or when the additive constant is
    NaN and the starting point passes the first test: its count is
    [maxIterations], the count that is painted black. *)
Theorem nan_never_escapes (maxIt : Z) (limit cre cim x y : float) :
  0 <= maxIt ->
  (is_nan x = true \/ is_nan y = true \/ is_nan limit = true ->
   escape_time maxIt limit cre cim x y = Some maxIt) /\
  (is_nan cre = true \/ is_nan cim = true ->
   escaped limit (x, y) = false ->
   escape_time maxIt limit cre cim x y = Some maxIt).
Proof.
  intros Hpos. split.
  - intros H. apply escape_time_inside; [exact Hpos|]. intros k _.
    destruct H as [H | [H | H]].
    + apply nan_not_escaped, nan_orbit. now left.
    + apply nan_not_escaped, nan_orbit. now right.
    + apply is_nan_eq in H. subst. apply fgt_nan_r.
  - intros H H0. apply escape_time_inside; [exact Hpos|]. intros [|k] _.
    + exact H0.
    + apply nan_not_escaped. cbn [orbit]. apply nan_constant_update, H.
Qed.

Lemma nan_never_escapes_witness :
  escape_time 15 (of_int 16) (of_int 0) (of_int 0) S754_nan (of_int 1)
    = Some 15.
Proof.
  destruct (nan_never_escapes 15 (of_int 16) (of_int 0) (of_int 0)
              S754_nan (of_int 1)) as [H _]; [lia|].
  apply H. left. reflexivity.
Defined.

(** *** Signs *)

Lemma fopp_involutive (u : float) : fopp (fopp u) = u.
Proof. destruct u as [s|s| |s m e]; cbn; now rewrite ?negb_involutive. Qed.

(** The sign of a rounded result is the sign given to the rounding. *)
Lemma binary_round_aux_fopp (s : bool) (m e : Z) (l : location) :
  binary_round_aux prec emax (negb s) m e l
  = fopp (binary_round_aux prec emax s m e l).
Proof.
  unfold binary_round_aux.
  destruct (shr_fexp prec emax m e l) as [mrs' e'].
  destruct (shr_fexp prec emax _ e' loc_Exact) as [mrs'' e''].
  destruct (shr_m mrs'') as [|p|p]; [reflexivity | | reflexivity].
  destruct (e'' <=? emax - prec); reflexivity.
Qed.

Lemma binary_round_fopp (s : bool) (m : positive) (e : Z) :
  binary_round prec emax (negb s) m e = fopp (binary_round prec emax s m e).
Proof.
  unfold binary_round.
  destruct (shl_align m _) as [mz ez].
  apply binary_round_aux_fopp.
Qed.

Lemma xorb_negb_l (x y : bool) : xorb (negb x) y = negb (xorb x y).
Proof. destruct x, y; reflexivity. Qed.

Lemma xorb_negb_r (x y : bool) : xorb x (negb y) = negb (xorb x y).
Proof. destruct x, y; reflexivity. Qed.

Lemma fmul_fopp_l (u v : float) : fmul (fopp u) v = fopp (fmul u v).
Proof.
  destruct u as [su|su| |su mu eu], v as [sv|sv| |sv mv ev];
    unfold fmul, SFmul; cbn [fopp SFopp];
    rewrite ?xorb_negb_l; try reflexivity.
  apply binary_round_aux_fopp.
Qed.

Lemma fmul_fopp_r (u v : float) : fmul u (fopp v) = fopp (fmul u v).
Proof.
  destruct u as [su|su| |su mu eu], v as [sv|sv| |sv mv ev];
    unfold fmul, SFmul; cbn [fopp SFopp];
    rewrite ?xorb_negb_r; try reflexivity.
  apply binary_round_aux_fopp.
Qed.

Lemma fmul_fopp_fopp (u v : float) : fmul (fopp u) (fopp v) = fmul u v.
Proof. now rewrite fmul_fopp_l, fmul_fopp_r, fopp_involutive. Qed.

Lemma cond_Zopp_negb_opp (s : bool) (m : Z) :
  cond_Zopp (negb s) m = - cond_Zopp s m.
Proof. destruct s; cbn; lia. Qed.

(** *** Opposite values, up to the sign of a zero

    An exact cancellation gives [+0] whatever the signs of the terms:
    the opposite of a sum is the sum of the opposites only up to the
    sign of a zero. *)

Lemma mirror_fopp (u : float) : mirror u (fopp u).
Proof. now left. Qed.

Lemma mirror_square (u v : float) : mirror u v -> fmul v v = fmul u u.
Proof.
  intros [-> | [Hu Hv]]; [apply fmul_fopp_fopp|].
  destruct u as [su| | |]; try discriminate.
  destruct v as [sv| | |]; try discriminate.
  destruct su, sv; reflexivity.
Qed.

Lemma mirror_fmul (t u v : float) :
  mirror u v -> mirror (fmul t u) (fmul t v).
Proof.
  intros [-> | [Hu Hv]]; [left; apply fmul_fopp_r|].
  destruct u as [su| | |]; try discriminate.
  destruct v as [sv| | |]; try discriminate.
  destruct t as [st|st| |st mt et]; unfold fmul, SFmul;
    try (left; reflexivity); right; split; reflexivity.
Qed.

Lemma binary_normalize_opp (m e : Z) :
  mirror (binary_normalize prec emax m e false)
         (binary_normalize prec emax (- m) e false).
Proof.
  destruct m as [|p|p]; cbn [Z.opp binary_normalize].
  - right. split; reflexivity.
  - left. apply (binary_round_fopp false).
  - left. change false with (negb true). apply binary_round_fopp.
Qed.

Lemma fadd_fopp (u v : float) :
  mirror (fadd u v) (fadd (fopp u) (fopp v)).
Proof.
  destruct u as [su|su| |su mu eu], v as [sv|sv| |sv mv ev];
    try (left; reflexivity);
    try (destruct su, sv; (left; reflexivity) || (right; split; reflexivity)).
  unfold fadd, SFadd. cbn [fopp SFopp].
  rewrite !cond_Zopp_negb_opp, <- Z.opp_add_distr.
  apply binary_normalize_opp.
Qed.

Lemma mirror_fadd (p q c : float) :
  mirror p q -> mirror (fadd p c) (fadd q (fopp c)).
Proof.
  intros [-> | [Hp Hq]]; [apply fadd_fopp|].
  destruct p as [sp| | |]; try discriminate.
  destruct q as [sq| | |]; try discriminate.
  destruct c as [sc|sc| |sc mc ec].
  - right. destruct sp, sq, sc; split; reflexivity.
  - left. reflexivity.
  - left. reflexivity.
  - left. reflexivity.
Qed.

Lemma same_square (u v : float) : same u v -> fmul v v = fmul u u.
Proof.
  intros [-> | [Hu Hv]]; [reflexivity|].
  destruct u as [su| | |]; try discriminate.
  destruct v as [sv| | |]; try discriminate.
  destruct su, sv; reflexivity.
Qed.

Lemma same_fmul_r (t u v : float) : same u v -> same (fmul t u) (fmul t v).
Proof.
  intros [-> | [Hu Hv]]; [now left|].
  destruct u as [su| | |]; try discriminate.
  destruct v as [sv| | |]; try discriminate.
  destruct t as [st|st| |st mt et]; unfold fmul, SFmul;
    try (left; reflexivity); right; split; reflexivity.
Qed.

Lemma same_fadd_l (p q c : float) : same p q -> same (fadd p c) (fadd q c).
Proof.
  intros [-> | [Hp Hq]]; [now left|].
  destruct p as [sp| | |]; try discriminate.
  destruct q as [sq| | |]; try discriminate.
  destruct c as [sc|sc| |sc mc ec]; try (left; reflexivity).
  right. destruct sp, sq, sc; split; reflexivity.
Qed.

Lemma fmul_zero_l_same (t t' u v : float) :
  is_zero t = true -> is_zero t' = true -> mirror u v ->
  same (fmul t u) (fmul t' v).
Proof.
  intros Ht Ht' Hb.
  destruct t as [st| | |]; try discriminate.
  destruct t' as [st'| | |]; try discriminate.
  destruct Hb as [-> | [Hb Hb']].
  - destruct u as [sb|sb| |sb mb eb]; unfold fmul, SFmul; cbn [fopp SFopp];
      try (left; reflexivity); right; split; reflexivity.
  - destruct u as [sb| | |]; try discriminate.
    destruct v as [sb'| | |]; try discriminate.
    right; split; reflexivity.
Qed.

Lemma fmul_zero_r_same (t t' u v : float) :
  is_zero u = true -> is_zero v = true -> mirror t t' ->
  same (fmul t u) (fmul t' v).
Proof.
  intros Hb Hb' Ht.
  destruct u as [sb| | |]; try discriminate.
  destruct v as [sb'| | |]; try discriminate.
  destruct Ht as [-> | [Ht Ht']].
  - destruct t as [st|st| |st mt et]; unfold fmul, SFmul; cbn [fopp SFopp];
      try (left; reflexivity); right; split; reflexivity.
  - destruct t as [st| | |]; try discriminate.
    destruct t' as [st'| | |]; try discriminate.
    right; split; reflexivity.
Qed.

Lemma mirror_mirror_fmul (t t' u v : float) :
  mirror t t' -> mirror u v -> same (fmul t u) (fmul t' v).
Proof.
  intros Ht Hb.
  destruct Ht as [-> | [Ht Ht']].
  - destruct Hb as [-> | [Hb Hb']].
    + left. apply fmul_fopp_fopp.
    + apply fmul_zero_r_same; [exact Hb | exact Hb' | apply mirror_fopp].
  - apply fmul_zero_l_same; assumption.
Qed.

(** *** The symmetries of the recurrence *)

(** Two runs of the loop that agree on [a] and on [b] up to the sign of
    a zero. *)
Lemma loop_body_same (maxIt : Z) (limit cre cim : float) (s1 s2 : cell) :
  a s2 = a s1 -> same (b s1) (b s2) -> iter s2 = iter s1 ->
  match loop_body maxIt limit cre cim s1,
        loop_body maxIt limit cre cim s2 with
  | Next t1, Next t2 =>
      a t2 = a t1 /\ same (b t1) (b t2) /\ iter t2 = iter t1
  | Exit, Exit => True
  | _, _ => False
  end.
Proof.
  intros Ha Hb Hi. unfold loop_body. rewrite Ha, Hi.
  rewrite (same_square _ _ Hb).
  destruct (iter s1 <? maxIt); [|exact I].
  destruct (fgt _ limit); [exact I|].
  cbn [a b iter]. split; [reflexivity|]. split; [|reflexivity].
  apply same_fadd_l, same_fmul_r, Hb.
Qed.

Lemma while_loop_same (maxIt : Z) (limit cre cim : float) (fuel : nat) :
  forall (s1 s2 : cell) (u : nat),
    a s2 = a s1 -> same (b s1) (b s2) -> iter s2 = iter s1 ->
    option_map (fun r => iter (fst r))
      (while_loop fuel maxIt limit cre cim s2 u)
    = option_map (fun r => iter (fst r))
        (while_loop fuel maxIt limit cre cim s1 u).
Proof.
  induction fuel as [|fuel IH]; intros s1 s2 u Ha Hb Hi; [reflexivity|].
  cbn [while_loop].
  pose proof (loop_body_same maxIt limit cre cim s1 s2 Ha Hb Hi) as H.
  destruct (loop_body maxIt limit cre cim s1) as [t1|],
           (loop_body maxIt limit cre cim s2) as [t2|];
    try contradiction.
  - destruct H as (Ha' & Hb' & Hi'). now apply IH.
  - cbn [option_map fst]. now f_equal.
Qed.

(** Two starting points opposite to each other, up to the sign of a
    zero, get the same count: their squares and their products [2*a*b]
    agree, so the two runs meet after one update. *)
Lemma escape_time_opposite (maxIt : Z) (limit cre cim x y x' y' : float) :
  mirror x x' -> mirror y y' ->
  escape_time maxIt limit cre cim x' y' = escape_time maxIt limit cre cim x y.
Proof.
  intros Hx Hy. unfold escape_time, enough. cbn [while_loop].
  unfold loop_body. cbn [a b iter].
  rewrite (mirror_square _ _ Hx), (mirror_square _ _ Hy).
  destruct (0 <? maxIt); [|reflexivity].
  destruct (fgt _ limit); [reflexivity|].
  apply while_loop_same; cbn [a b iter]; [reflexivity | | reflexivity].
  apply same_fadd_l, mirror_mirror_fmul; [|exact Hy].
  apply mirror_fmul, Hx.
Qed.

(** X7: a Julia picture has the symmetry of [z -> z^2 + c] under
    [z -> -z], in single precision as in exact arithmetic: the points
    [(x, y)] and [(-x, -y)] get the same count, for every constant,
    limit and bound. *)
Theorem julia_point_symmetry (maxIt : Z) (limit reAl imAg x y : float) :
  julia_cell maxIt limit reAl imAg (fopp x) (fopp y)
  = julia_cell maxIt limit reAl imAg x y.
Proof.
  apply escape_time_opposite; apply mirror_fopp.
Qed.

(** Two runs of the loop, one the complex conjugate of the other. *)
Lemma loop_body_mirror (maxIt : Z) (limit cre cim : float) (s1 s2 : cell) :
  a s2 = a s1 -> mirror (b s1) (b s2) -> iter s2 = iter s1 ->
  match loop_body maxIt limit cre cim s1,
        loop_body maxIt limit cre (fopp cim) s2 with
  | Next t1, Next t2 =>
      a t2 = a t1 /\ mirror (b t1) (b t2) /\ iter t2 = iter t1
  | Exit, Exit => True
  | _, _ => False
  end.
Proof.
  intros Ha Hb Hi. unfold loop_body. rewrite Ha, Hi.
  rewrite (mirror_square _ _ Hb).
  destruct (iter s1 <? maxIt); [|exact I].
  destruct (fgt _ limit); [exact I|].
  cbn [a b iter]. split; [reflexivity|]. split; [|reflexivity].
  apply mirror_fadd, mirror_fmul, Hb.
Qed.

Lemma while_loop_mirror (maxIt : Z) (limit cre cim : float) (fuel : nat) :
  forall (s1 s2 : cell) (u : nat),
    a s2 = a s1 -> mirror (b s1) (b s2) -> iter s2 = iter s1 ->
    option_map (fun r => iter (fst r))
      (while_loop fuel maxIt limit cre (fopp cim) s2 u)
    = option_map (fun r => iter (fst r))
        (while_loop fuel maxIt limit cre cim s1 u).
Proof.
  induction fuel as [|fuel IH]; intros s1 s2 u Ha Hb Hi; [reflexivity|].
  cbn [while_loop].
  pose proof (loop_body_mirror maxIt limit cre cim s1 s2 Ha Hb Hi) as H.
  destruct (loop_body maxIt limit cre cim s1) as [t1|],
           (loop_body maxIt limit cre (fopp cim) s2) as [t2|];
    try contradiction.
  - destruct H as (Ha' & Hb' & Hi'). now apply IH.
  - cbn [option_map fst]. now f_equal.
Qed.

(** X8: the Mandelbrot picture is symmetric about the real axis, in
    single precision as in exact arithmetic: the cells [(x, y)] and
    [(x, -y)] get the same count; for the Julia loop, conjugating both
    the point and the constant changes no count. *)
Theorem conjugate_symmetry (maxIt : Z) (limit reAl imAg x y : float) :
  mandelbrot_cell maxIt limit x (fopp y) = mandelbrot_cell maxIt limit x y /\
  julia_cell maxIt limit reAl (fopp imAg) x (fopp y)
  = julia_cell maxIt limit reAl imAg x y.
Proof.
  split.
  - apply while_loop_mirror; [reflexivity | apply mirror_fopp | reflexivity].
  - apply while_loop_mirror; [reflexivity | apply mirror_fopp | reflexivity].
Qed.

(** *** Starting from zero *)

Lemma loop_body_later (maxIt : Z) (limit cre cim : float) (s : cell) :
  loop_body (maxIt + 1) limit cre cim (later s)
  = match loop_body maxIt limit cre cim s with
    | Next t => Next (later t)
    | Exit => Exit
    end.
Proof.
  unfold loop_body, later. cbn [a b iter].
  replace (iter s + 1 <? maxIt + 1) with (iter s <? maxIt).
  - destruct (iter s <? maxIt); [|reflexivity].
    destruct (fgt _ limit); reflexivity.
  - destruct (Z.ltb_spec (iter s) maxIt), (Z.ltb_spec (iter s + 1) (maxIt + 1));
      try reflexivity; lia.
Qed.

Lemma while_loop_later (maxIt : Z) (limit cre cim : float) (fuel : nat) :
  forall (s : cell) (u u' : nat),
    option_map (fun r => iter (fst r))
      (while_loop fuel (maxIt + 1) limit cre cim (later s) u)
    = option_map Z.succ
        (option_map (fun r => iter (fst r))
           (while_loop fuel maxIt limit cre cim s u')).
Proof.
  induction fuel as [|fuel IH]; intros s u u'; [reflexivity|].
  cbn [while_loop]. rewrite loop_body_later.
  destruct (loop_body maxIt limit cre cim s) as [t|]; [apply IH|reflexivity].
Qed.

Lemma fadd_zero_l (u : float) :
  u <> S754_zero true -> fadd (S754_zero false) u = u.
Proof.
  intros H. destruct u as [[|]| | |]; try reflexivity. contradiction.
Qed.

(** X9: the headers of the Mandelbrot sketches start the iteration at
    [z = 0]; [mandel] starts it at [z = c], one step further.  The two
    agree: for a cell that is not a negative zero and a limit that 0
    does not exceed, the loop started at [(0, 0)] with the cell as its
    constant and one more iteration allowed counts exactly one more
    than the loop of [mandel]. *)
Theorem mandelbrot_from_zero (maxIt : Z) (limit x y : float) :
  0 <= maxIt ->
  x <> S754_zero true -> y <> S754_zero true ->
  fgt (of_int 0) limit = false ->
  julia_cell (maxIt + 1) limit x y (of_int 0) (of_int 0)
  = option_map Z.succ (mandelbrot_cell maxIt limit x y).
Proof.
  intros Hpos Hx Hy Hl.
  unfold julia_cell, mandelbrot_cell, escape_time.
  replace (enough (maxIt + 1)) with (S (enough maxIt))
    by (unfold enough; f_equal; lia).
  cbn [while_loop].
  assert (Hb : loop_body (maxIt + 1) limit x y (mkCell (of_int 0) (of_int 0) 0)
               = Next (later (mkCell x y 0))).
  { unfold loop_body, later. cbn [a b iter].
    replace (0 <? maxIt + 1) with true by (symmetry; apply Z.ltb_lt; lia).
    change (of_int 0) with (S754_zero false) in *.
    change (fmul (S754_zero false) (S754_zero false)) with (S754_zero false).
    change (fadd (S754_zero false) (S754_zero false)) with (S754_zero false).
    rewrite Hl.
    change (fsub (S754_zero false) (S754_zero false)) with (S754_zero false).
    change (fmul (fmul (of_int 2) (S754_zero false)) (S754_zero false))
      with (S754_zero false).
    now rewrite !fadd_zero_l. }
  rewrite Hb. apply while_loop_later.
Qed.

Lemma mandelbrot_from_zero_witness :
  julia_cell (15 + 1) (of_int 16) (of_int 3) (of_int 1) (of_int 0) (of_int 0)
  = option_map Z.succ (mandelbrot_cell 15 (of_int 16) (of_int 3) (of_int 1)).
Proof.
  apply (mandelbrot_from_zero 15 (of_int 16) (of_int 3) (of_int 1));
    [lia | discriminate | discriminate | reflexivity].
Defined.

(** ** Colour mapper *)

Lemma int16_small (z : Z) : -32768 <= z <= 32767 -> int16 z = z.
Proof. intros H. unfold int16. rewrite Z.mod_small by lia. lia. Qed.

Lemma color_index_exact (iter maxIt : Z) :
  0 <= iter < maxIt -> iter <= 128 ->
  color_index iter maxIt = Z.quot (iter * 255) maxIt /\
  Z.quot (iter * 255) maxIt = iter * 255 / maxIt /\
  0 <= iter * 255 / maxIt <= 254.
Proof.
  intros H H128. unfold color_index, uint8.
  rewrite int16_small by lia.
  rewrite Z.quot_div_nonneg by lia.
  assert (Hlo : 0 <= iter * 255 / maxIt) by (apply Z.div_pos; lia).
  assert (Hhi : iter * 255 / maxIt < 255).
  { apply Z.div_lt_upper_bound; nia. }
  rewrite Z.mod_small by lia. repeat split; lia.
Qed.




(** X10: different counts get different colours.  For a bound of at
    most 128 (so that [iter*255] fits a 16-bit [int]) the colour index
    [iter*255/maxIterations] grows strictly with the count, by at least
    one per iteration: no two counts below the bound share an index. *)
Theorem color_index_increasing (maxIt i j : Z) :
  1 <= maxIt <= 128 -> 0 <= i -> i < j -> j < maxIt ->
  color_index i maxIt < color_index j maxIt /\
  j - i <= color_index j maxIt - color_index i maxIt.
Proof.
  intros Hm Hi Hij Hj.
  destruct (color_index_exact i maxIt ltac:(lia) ltac:(lia)) as (-> & -> & _).
  destruct (color_index_exact j maxIt ltac:(lia) ltac:(lia)) as (-> & -> & _).
  assert (H : i * 255 / maxIt + (j - i) <= j * 255 / maxIt).
  { rewrite <- Z.div_add by lia. apply Z.div_le_mono; [lia | nia]. }
  lia.
Qed.

Lemma color_index_increasing_witness :
  color_index 3 15 < color_index 4 15 /\
  4 - 3 <= color_index 4 15 - color_index 3 15.
Proof.
  apply (color_index_increasing 15 3 4); lia.
Defined.

(** ** The frame *)

Lemma distinct_NoDup (l : list Z) : distinct l = true -> NoDup l.
Proof.
  induction l as [|k l IH]; intros H; [constructor|].
  cbn [distinct] in H. apply andb_true_iff in H. destruct H as [Hk Hl].
  constructor; [|apply IH, Hl].
  intros Hin. apply negb_true_iff in Hk.
  assert (Hex : existsb (Z.eqb k) l = true).
  { apply existsb_exists. exists k. split; [exact Hin | apply Z.eqb_refl]. }
  congruence.
Qed.

Section FrameCells.

Context {A : Type}.
Variable shade : float -> float -> A.

Lemma sweep_row_cells (dx y : float) (j : Z) (n : nat) :
  forall (i : Z) (x : float),
    sweep_row shade dx y j n i x
    = map (fun k => (XY (i + Z.of_nat k) j, shade (advance dx k x) y))
          (seq 0 n).
Proof.
  induction n as [|n IH]; intros i x; [reflexivity|].
  cbn [sweep_row map seq]. rewrite IH. f_equal.
  - cbn [advance]. f_equal. f_equal. lia.
  - rewrite <- seq_shift, map_map. apply map_ext. intros k.
    cbn [advance]. f_equal. f_equal. lia.
Qed.

Lemma sweep_rows_cells (w : window) (n : nat) :
  forall (j : Z) (y : float),
    sweep_rows shade w n j y
    = flat_map
        (fun r =>
           map (fun k => (XY (Z.of_nat k) (j + Z.of_nat r),
                          shade (advance (dx w) k (xmin w))
                                (advance (dy w) r y)))
               (seq 0 (Z.to_nat matrixWidth)))
        (seq 0 n).
Proof.
  induction n as [|n IH]; intros j y; [reflexivity|].
  cbn [sweep_rows seq flat_map]. rewrite sweep_row_cells, IH. f_equal.
  - apply map_ext. intros k. cbn [advance]. f_equal. f_equal; lia.
  - rewrite <- seq_shift.
    generalize (seq 0 n) as l. induction l as [|r l IHl]; [reflexivity|].
    cbn [map flat_map]. rewrite IHl. f_equal.
    apply map_ext. intros k. cbn [advance]. f_equal. f_equal. lia.
Qed.

(** The frame, cell by cell: row after row and, in a row, column after
    column; cell [(i, j)] is evaluated at the abscissa reached after [i]
    additions of [dx] to [xmin] and the ordinate reached after [j]
    additions of [dy] to [ymin]. *)
Lemma mandel_cells (w : window) :
  mandel shade w
  = flat_map
      (fun j =>
         map (fun i => (XY (Z.of_nat i) (Z.of_nat j),
                        shade (advance (dx w) i (xmin w))
                              (advance (dy w) j (ymin w))))
             (seq 0 16))
      (seq 0 16).
Proof.
  unfold mandel. rewrite sweep_rows_cells. reflexivity.
Qed.

Lemma mandel_cell_in (w : window) (i j : nat) :
  (i < 16)%nat -> (j < 16)%nat ->
  In (XY (Z.of_nat i) (Z.of_nat j),
      shade (advance (dx w) i (xmin w)) (advance (dy w) j (ymin w)))
     (mandel shade w).
Proof.
  intros Hi Hj. rewrite mandel_cells.
  apply in_flat_map. exists j. split; [apply in_seq; lia|].
  apply in_map_iff. exists i. split; [reflexivity | apply in_seq; lia].
Qed.

Lemma mandel_indices (w : window) :
  map fst (mandel shade w)
  = flat_map (fun r => map (fun k => XY (Z.of_nat k) (Z.of_nat r)) (seq 0 16))
             (seq 0 16).
Proof.
  rewrite mandel_cells.
  rewrite flat_map_concat_map, concat_map, map_map, <- flat_map_concat_map.
  apply flat_map_ext. intros r. rewrite map_map. reflexivity.
Qed.

Lemma mandel_indices_distinct (w : window) :
  NoDup (map fst (mandel shade w)) /\
  Forall (fun k => 0 <= k < 256) (map fst (mandel shade w)).
Proof.
  rewrite mandel_indices. split.
  - apply distinct_NoDup. vm_compute. reflexivity.
  - apply Forall_forall. intros k Hk.
    apply in_flat_map in Hk. destruct Hk as (r & Hr & Hk).
    apply in_map_iff in Hk. destruct Hk as (c & <- & Hc).
    apply in_seq in Hr, Hc. apply XY_in_range. unfold in_grid. lia.
Qed.

Lemma mandel_all (P : Z * A -> Prop) (w : window) :
  (forall k x y, P (k, shade x y)) -> Forall P (mandel shade w).
Proof.
  intros HP. rewrite mandel_cells. apply Forall_forall. intros p Hp.
  apply in_flat_map in Hp. destruct Hp as (j & _ & Hp).
  apply in_map_iff in Hp. destruct Hp as (i & <- & _). apply HP.
Qed.

End FrameCells.

(** X11: a frame assigns every LED exactly once.  Whatever the window,
    [mandel] makes 256 assignments, no two to the same element of
    [leds], none outside [leds], and every element of [leds] gets one. *)
Theorem mandel_assigns_each_led_once {A : Type}
  (shade : float -> float -> A) (w : window) :
  length (mandel shade w) = 256%nat /\
  NoDup (map fst (mandel shade w)) /\
  Forall (fun k => 0 <= k < NUM_LEDS) (map fst (mandel shade w)) /\
  (forall k, 0 <= k < NUM_LEDS -> In k (map fst (mandel shade w))).
Proof.
  destruct (mandel_indices_distinct shade w) as [Hnd Hrange].
  split; [|split; [exact Hnd | split; [exact Hrange|]]].
  - rewrite <- (length_map fst), mandel_indices. reflexivity.
  - intros k Hk. change NUM_LEDS with 256 in Hk. rewrite mandel_indices.
    destruct (XY_inv_right k Hk) as [[Hx Hy] He].
    apply in_flat_map. exists (Z.to_nat (snd (XY_inv k))). split.
    + apply in_seq. lia.
    + apply in_map_iff. exists (Z.to_nat (fst (XY_inv k))). split.
      * rewrite !Z2Nat.id by lia. exact He.
      * apply in_seq. lia.
Qed.

(** *** The array after a frame *)

Lemma store_length {A : Type} (l : list A) (v : A) :
  forall k, length (store l k v) = length l.
Proof.
  induction l as [|h t IH]; intros [|k]; cbn [store length]; auto.
Qed.

Lemma store_same {A : Type} (l : list A) (v : A) :
  forall k, (k < length l)%nat -> nth_error (store l k v) k = Some v.
Proof.
  induction l as [|h t IH]; intros [|k] Hk; cbn [length] in Hk;
    cbn [store nth_error]; try lia; [reflexivity|].
  apply IH. lia.
Qed.

Lemma store_other {A : Type} (l : list A) (v : A) :
  forall k k', k <> k' -> nth_error (store l k v) k' = nth_error l k'.
Proof.
  induction l as [|h t IH]; intros [|k] [|k'] Hk; cbn [store nth_error];
    try reflexivity; try congruence.
  apply IH. congruence.
Qed.

Lemma show_length {A : Type} (frame : list (Z * A)) :
  forall leds, length (show frame leds) = length leds.
Proof.
  induction frame as [|kv frame IH]; intros leds; [reflexivity|].
  unfold show in *. cbn [fold_left]. rewrite IH. apply store_length.
Qed.

(** An element that the frame does not assign keeps its value. *)
Lemma show_untouched {A : Type} (frame : list (Z * A)) (k : Z) :
  0 <= k -> Forall (fun p => 0 <= fst p) frame ->
  ~ In k (map fst frame) ->
  forall leds,
    nth_error (show frame leds) (Z.to_nat k) = nth_error leds (Z.to_nat k).
Proof.
  intros Hk. induction frame as [|[k0 v0] frame IH]; intros Hpos Hnot leds;
    [reflexivity|].
  inversion Hpos as [|? ? Hk0 Hrest]; subst. cbn [fst] in Hk0.
  cbn [map fst In] in Hnot.
  unfold show in *. cbn [fold_left]. rewrite IH; [|exact Hrest|tauto].
  unfold assign. cbn [fst snd]. apply store_other.
  intros He. apply Hnot. left. lia.
Qed.

(** An element that the frame assigns once holds what was assigned. *)
Lemma show_assigned {A : Type} (frame : list (Z * A)) (k : Z) (v : A) :
  0 <= k -> Forall (fun p => 0 <= fst p) frame ->
  NoDup (map fst frame) -> In (k, v) frame ->
  forall leds, (Z.to_nat k < length leds)%nat ->
    nth_error (show frame leds) (Z.to_nat k) = Some v.
Proof.
  intros Hk. induction frame as [|[k0 v0] frame IH];
    intros Hpos Hnd Hin leds Hlen; [contradiction|].
  inversion Hpos as [|? ? Hk0 Hrest]; subst.
  cbn [map fst] in Hnd. inversion Hnd as [|? ? Hnot Hnd']; subst.
  change (show ((k0, v0) :: frame) leds)
    with (show frame (assign leds (k0, v0))).
  destruct Hin as [He | Hin].
  - injection He as -> ->.
    rewrite show_untouched by assumption.
    unfold assign. cbn [fst snd]. apply store_same, Hlen.
  - apply IH; try assumption.
    unfold assign. now rewrite store_length.
Qed.

Lemma mandel_nonneg {A : Type} (shade : float -> float -> A) (w : window) :
  Forall (fun p : Z * A => 0 <= fst p) (mandel shade w).
Proof.
  destruct (mandel_indices_distinct shade w) as [_ Hrange].
  apply Forall_forall. intros p Hp. rewrite Forall_forall in Hrange.
  apply (Hrange (fst p)), in_map, Hp.
Qed.

(** After a frame, the element of cell [(i, j)] holds what the cell was
    given. *)
Lemma mandel_led {A : Type} (shade : float -> float -> A)
  (w : window) (leds : list A) (i j : nat) :
  length leds = 256%nat -> (i < 16)%nat -> (j < 16)%nat ->
  nth_error (show (mandel shade w) leds)
            (Z.to_nat (XY (Z.of_nat i) (Z.of_nat j)))
  = Some (shade (advance (dx w) i (xmin w)) (advance (dy w) j (ymin w))).
Proof.
  intros Hlen Hi Hj.
  destruct (mandel_indices_distinct shade w) as [Hnd _].
  assert (Hxy : 0 <= XY (Z.of_nat i) (Z.of_nat j) < 256)
    by (apply XY_in_range; unfold in_grid; lia).
  apply show_assigned.
  - lia.
  - apply mandel_nonneg.
  - exact Hnd.
  - apply mandel_cell_in; assumption.
  - rewrite Hlen. lia.
Qed.

(** After a frame, the array does not depend on what it held before. *)
Lemma mandel_leds_any {A : Type} (shade : float -> float -> A)
  (w : window) (leds leds' : list A) :
  length leds = 256%nat -> length leds' = 256%nat ->
  show (mandel shade w) leds = show (mandel shade w) leds'.
Proof.
  intros Hlen Hlen'.
  destruct (mandel_indices_distinct shade w) as [Hnd _].
  pose proof (mandel_nonneg shade w) as Hpos.
  apply nth_error_ext. intros n.
  destruct (Nat.lt_ge_cases n 256) as [Hn | Hn].
  - destruct (XY_inv_right (Z.of_nat n) ltac:(lia)) as [[Hx Hy] He].
    set (i := Z.to_nat (fst (XY_inv (Z.of_nat n)))).
    set (j := Z.to_nat (snd (XY_inv (Z.of_nat n)))).
    assert (Hk : XY (Z.of_nat i) (Z.of_nat j) = Z.of_nat n).
    { subst i j. rewrite !Z2Nat.id by lia. exact He. }
    assert (Hi : (i < 16)%nat) by (subst i; unfold in_grid in *; lia).
    assert (Hj : (j < 16)%nat) by (subst j; unfold in_grid in *; lia).
    pose proof (mandel_cell_in shade w i j Hi Hj) as Hin.
    rewrite Hk in Hin.
    rewrite <- (Nat2Z.id n).
    rewrite (show_assigned _ _ _ (Nat2Z.is_nonneg n) Hpos Hnd Hin leds)
      by (rewrite Hlen; lia).
    rewrite (show_assigned _ _ _ (Nat2Z.is_nonneg n) Hpos Hnd Hin leds')
      by (rewrite Hlen'; lia).
    reflexivity.
  - transitivity (@None A); [|symmetry];
      apply nth_error_None; rewrite show_length; lia.
Qed.

(** X12: what each LED shows.  After [mandel] the array still has 256
    elements, and the element [XY(i,j)] holds what cell [(i, j)] was
    given: the shade of the point whose abscissa is [xmin] after [i]
    rounded additions of [dx] and whose ordinate is [ymin] after [j]
    rounded additions of [dy].  The abscissa does not depend on the row,
    nor the ordinate on the column. *)
Theorem mandel_fills_leds {A : Type} (shade : float -> float -> A)
  (w : window) (leds : list A) (i j : nat) :
  length leds = 256%nat -> (i < 16)%nat -> (j < 16)%nat ->
  length (show (mandel shade w) leds) = 256%nat /\
  nth_error (show (mandel shade w) leds)
            (Z.to_nat (XY (Z.of_nat i) (Z.of_nat j)))
  = Some (shade (advance (dx w) i (xmin w)) (advance (dy w) j (ymin w))).
Proof.
  intros Hlen Hi Hj. split.
  - now rewrite show_length.
  - now apply mandel_led.
Qed.

Lemma mandel_fills_leds_witness :
  nth_error
    (show (mandel (mandelbrot_cell maxIterations maxCalc)
             (win (JuliaPalette.resize sin_near_0 0 0)))
          (repeat None 256))
    (Z.to_nat (XY (Z.of_nat 3) (Z.of_nat 5)))
  = Some (mandelbrot_cell maxIterations maxCalc
            (advance (dx (win (JuliaPalette.resize sin_near_0 0 0))) 3
                     (xmin (win (JuliaPalette.resize sin_near_0 0 0))))
            (advance (dy (win (JuliaPalette.resize sin_near_0 0 0))) 5
                     (ymin (win (JuliaPalette.resize sin_near_0 0 0))))).
Proof.
  apply (mandel_fills_leds (mandelbrot_cell maxIterations maxCalc)
           (win (JuliaPalette.resize sin_near_0 0 0)) (repeat None 256) 3 5);
    [reflexivity | lia | lia].
Defined.

(** X13: nothing of the previous frame survives.  Two arrays of 256
    elements are equal after the same frame, whatever they held
    before. *)
Theorem mandel_overwrites_leds {A : Type} (shade : float -> float -> A)
  (w : window) (leds leds' : list A) :
  length leds = 256%nat -> length leds' = 256%nat ->
  show (mandel shade w) leds = show (mandel shade w) leds'.
Proof.
  intros Hlen Hlen'. now apply mandel_leds_any.
Qed.

Lemma mandel_overwrites_leds_witness :
  show (mandel (mandelbrot_cell maxIterations maxCalc)
          (win (JuliaPalette.resize sin_near_0 0 0)))
       (repeat None 256)
  = show (mandel (mandelbrot_cell maxIterations maxCalc)
            (win (JuliaPalette.resize sin_near_0 0 0)))
         (repeat (Some 0) 256).
Proof.
  apply mandel_overwrites_leds; reflexivity.
Defined.

(** *** The colours of a frame *)

Lemma color_index_15 (n : Z) :
  0 <= n < maxIterations -> color_index n maxIterations = 17 * n.
Proof.
  intros H.
  destruct (color_index_exact n maxIterations H) as (-> & -> & _);
    [unfold maxIterations in H; lia|].
  unfold maxIterations. replace (n * 255) with (17 * n * 15) by lia.
  apply Z.div_mul. lia.
Qed.

Lemma painted_count (colour colour' : Z -> CRGB)
  (count : float -> float -> option Z) (x y : float) :
  colour maxIterations = Black ->
  (forall n, 0 <= n < maxIterations -> colour n = colour' n) ->
  (exists r, count x y = Some r /\ 0 <= r <= maxIterations) ->
  forall k, painted colour' (k, shade_of colour count x y).
Proof.
  intros Hb Hc (r & Hr & Hrange) k. exists r. split; [exact Hrange|].
  unfold shade_of. cbn [snd]. rewrite Hr. cbn [option_map]. f_equal.
  destruct (Z.eqb_spec r maxIterations) as [-> | Hne].
  - exact Hb.
  - apply Hc. lia.
Qed.

Lemma count_in_range (cre cim x y : float) :
  exists r, escape_time maxIterations maxCalc cre cim x y = Some r /\
            0 <= r <= maxIterations.
Proof.
  destruct (escape_time_spec maxIterations maxCalc cre cim x y)
    as (r & Hr & Hrange & _); [unfold maxIterations; lia|].
  exists r. split; [exact Hr | exact Hrange].
Qed.

(** X14: the colours of a frame.  With [maxIterations = 15] every
    assignment of a frame paints a count [n] from 0 to 15: black for 15
    and, below it, the colour of index [17 * n] (0, 17, ..., 238):
    [CHSV(17n, 255, 255)] in Mandelbrot-minimal and Julia, the palette
    entry at full brightness in Julia-palette, the palette entry at
    brightness [255 - n] in Mandelbrot.  This holds for every window,
    constant and palette. *)
Theorem frame_colours
  (CHSV : Z -> Z -> Z -> CRGB)
  (ColorFromPalette : CRGBPalette16 -> Z -> Z -> CRGB)
  (currentPalette : CRGBPalette16) (reAl imAg : float) (w : window) :
  Forall (painted (fun n => CHSV (17 * n) 255 255))
    (mandel (shade_of (color_hue CHSV maxIterations)
               (mandelbrot_cell maxIterations maxCalc)) w) /\
  Forall (painted (fun n => CHSV (17 * n) 255 255))
    (mandel (shade_of (color_hue CHSV maxIterations)
               (julia_cell maxIterations maxCalc reAl imAg)) w) /\
  Forall (painted (fun n => ColorFromPalette currentPalette (17 * n) 255))
    (mandel (shade_of (color_palette ColorFromPalette currentPalette
                         maxIterations)
               (julia_cell maxIterations maxCalc reAl imAg)) w) /\
  Forall (painted (fun n => ColorFromPalette currentPalette (17 * n)
                              (255 - n)))
    (mandel (shade_of (color_palette_dim ColorFromPalette currentPalette
                         maxIterations)
               (mandelbrot_cell maxIterations maxCalc)) w).
Proof.
  repeat split; apply mandel_all; intros k x y; apply painted_count;
    try apply count_in_range;
    unfold color_hue, color_palette, color_palette_dim;
    try (rewrite Z.eqb_refl; reflexivity);
    intros n Hn;
    (replace (n =? maxIterations) with false
       by (symmetry; apply Z.eqb_neq; lia));
    rewrite color_index_15 by exact Hn; try reflexivity.
  f_equal. apply uint8_small. unfold maxIterations in Hn. lia.
Qed.

(** *** One pass of [loop] *)

(** X15: Mandelbrot-minimal shows a still picture.  Its [resize] reads
    globals that nothing changes, so every pass of [loop] leaves the
    same array, whatever the array held: a second pass changes
    nothing. *)
Theorem mandelbrot_minimal_static (CHSV : Z -> Z -> Z -> CRGB)
  (reAl imAg zoOm : float) (leds leds' : list (option CRGB)) :
  length leds = 256%nat -> length leds' = 256%nat ->
  mandelbrot_minimal_loop CHSV reAl imAg zoOm leds
  = mandelbrot_minimal_loop CHSV reAl imAg zoOm leds' /\
  mandelbrot_minimal_loop CHSV reAl imAg zoOm
    (mandelbrot_minimal_loop CHSV reAl imAg zoOm leds)
  = mandelbrot_minimal_loop CHSV reAl imAg zoOm leds.
Proof.
  intros Hlen Hlen'. unfold mandelbrot_minimal_loop. cbv zeta. split.
  - now apply mandel_leds_any.
  - apply mandel_leds_any; [|exact Hlen].
    now rewrite show_length.
Qed.

Lemma mandelbrot_minimal_static_witness :
  mandelbrot_minimal_loop grey_CHSV MandelbrotMinimal.reAl0
    MandelbrotMinimal.imAg0 MandelbrotMinimal.zoOm0 (repeat None 256)
  = mandelbrot_minimal_loop grey_CHSV MandelbrotMinimal.reAl0
      MandelbrotMinimal.imAg0 MandelbrotMinimal.zoOm0
      (repeat (Some Black) 256).
Proof.
  apply (mandelbrot_minimal_static grey_CHSV MandelbrotMinimal.reAl0
           MandelbrotMinimal.imAg0 MandelbrotMinimal.zoOm0
           (repeat None 256) (repeat (Some Black) 256)); reflexivity.
Defined.

(** The points that Julia-palette samples: [dx = dy = 1/16] and the
    sums from [-0.5] are exact, so column and row [i] are at
    [(i - 8) / 16], at every time. *)
Lemma julia_palette_grid (sinf : float -> float) (t1 t2 : Z) (i : nat) :
  (i < 16)%nat ->
  advance (dx (win (JuliaPalette.resize sinf t1 t2))) i
          (xmin (win (JuliaPalette.resize sinf t1 t2)))
  = lit (Z.of_nat i - 8) 16 /\
  advance (dy (win (JuliaPalette.resize sinf t1 t2))) i
          (ymin (win (JuliaPalette.resize sinf t1 t2)))
  = lit (Z.of_nat i - 8) 16.
Proof.
  intros Hi.
  do 16 (destruct i as [|i]; [split; vm_compute; reflexivity|]). lia.
Qed.

Lemma julia_palette_grid_mirror (i : nat) :
  (1 <= i <= 15)%nat ->
  mirror (lit (Z.of_nat i - 8) 16) (lit (Z.of_nat (16 - i) - 8) 16).
Proof.
  intros Hi. destruct i as [|i]; [lia|].
  do 15 (destruct i as [|i];
         [first [left; vm_compute; reflexivity
                | right; split; vm_compute; reflexivity]|]).
  lia.
Qed.

(** After a pass of [loop] in Julia-palette, the LED of a cell shows the
    colour of the count of its point, for the constant that [resize]
    stored. *)
Lemma julia_palette_led (sinf : float -> float)
  (ColorFromPalette : CRGBPalette16 -> Z -> Z -> CRGB)
  (currentPalette : CRGBPalette16) (t1 t2 : Z)
  (leds : list (option CRGB)) (i j : nat) :
  length leds = 256%nat -> (i < 16)%nat -> (j < 16)%nat ->
  nth_error (julia_palette_loop sinf ColorFromPalette currentPalette t1 t2 leds)
            (Z.to_nat (XY (Z.of_nat i) (Z.of_nat j)))
  = Some (option_map (color_palette ColorFromPalette currentPalette
                        maxIterations)
            (julia_cell maxIterations maxCalc
               (fst (julia_constant_at sinf t1 t2))
               (snd (julia_constant_at sinf t1 t2))
               (lit (Z.of_nat i - 8) 16) (lit (Z.of_nat j - 8) 16))).
Proof.
  intros Hlen Hi Hj. unfold julia_palette_loop. cbv zeta.
  rewrite mandel_led by assumption.
  destruct (julia_palette_grid sinf t1 t2 i Hi) as [-> _].
  destruct (julia_palette_grid sinf t1 t2 j Hj) as [_ ->].
  reflexivity.
Qed.

(** X16: every picture of Julia-palette is symmetric about the centre
    of the matrix.  After a pass of [loop], for any two clock readings
    of [resize] and for any palette, the LED of every cell [(i, j)]
    shows the colour of the count of the point [((i-8)/16, (j-8)/16)];
    and when [i] and [j] are at least 1, so that the cell
    [(16-i, 16-j)] exists, its LED shows the same colour. *)
Theorem julia_palette_point_symmetric (sinf : float -> float)
  (ColorFromPalette : CRGBPalette16 -> Z -> Z -> CRGB)
  (currentPalette : CRGBPalette16) (t1 t2 : Z)
  (leds : list (option CRGB)) (i j : nat) :
  length leds = 256%nat -> (i < 16)%nat -> (j < 16)%nat ->
  nth_error (julia_palette_loop sinf ColorFromPalette currentPalette t1 t2 leds)
            (Z.to_nat (XY (Z.of_nat i) (Z.of_nat j)))
  = Some (option_map (color_palette ColorFromPalette currentPalette
                        maxIterations)
            (julia_cell maxIterations maxCalc
               (fst (julia_constant_at sinf t1 t2))
               (snd (julia_constant_at sinf t1 t2))
               (lit (Z.of_nat i - 8) 16) (lit (Z.of_nat j - 8) 16))) /\
  ((1 <= i)%nat -> (1 <= j)%nat ->
   nth_error (julia_palette_loop sinf ColorFromPalette currentPalette t1 t2
                leds)
             (Z.to_nat (XY (Z.of_nat (16 - i)) (Z.of_nat (16 - j))))
   = nth_error (julia_palette_loop sinf ColorFromPalette currentPalette t1 t2
                  leds)
               (Z.to_nat (XY (Z.of_nat i) (Z.of_nat j)))).
Proof.
  intros Hlen Hi Hj.
  split; [apply julia_palette_led; assumption|].
  intros Hi1 Hj1.
  rewrite !julia_palette_led by (assumption || lia). f_equal. f_equal.
  apply escape_time_opposite; apply julia_palette_grid_mirror; lia.
Qed.

Lemma julia_palette_point_symmetric_witness :
  nth_error (julia_palette_loop sin_near_0 nth_ColorFromPalette [Black] 0 1
               (repeat None 256))
            (Z.to_nat (XY (Z.of_nat 0) (Z.of_nat 5)))
  = Some (option_map (color_palette nth_ColorFromPalette [Black]
                        maxIterations)
            (julia_cell maxIterations maxCalc
               (fst (julia_constant_at sin_near_0 0 1))
               (snd (julia_constant_at sin_near_0 0 1))
               (lit (Z.of_nat 0 - 8) 16) (lit (Z.of_nat 5 - 8) 16))) /\
  nth_error (julia_palette_loop sin_near_0 nth_ColorFromPalette [Black] 0 1
               (repeat None 256))
            (Z.to_nat (XY (Z.of_nat (16 - 3)) (Z.of_nat (16 - 5))))
  = nth_error (julia_palette_loop sin_near_0 nth_ColorFromPalette [Black] 0 1
                 (repeat None 256))
              (Z.to_nat (XY (Z.of_nat 3) (Z.of_nat 5))).
Proof.
  split.
  - destruct (julia_palette_point_symmetric sin_near_0 nth_ColorFromPalette
                [Black] 0 1 (repeat None 256) 0 5) as [H _];
      [reflexivity | lia | lia | exact H].
  - destruct (julia_palette_point_symmetric sin_near_0 nth_ColorFromPalette
                [Black] 0 1 (repeat None 256) 3 5) as [_ H];
      [reflexivity | lia | lia | apply H; lia].
Defined.

(** ** The frame counter *)

(** X17: the frame counter loses no frame.  Over any sequence of calls
    of [showfps], the numbers printed and the count still pending add up
    to the number of calls (plus the count pending at the start). *)
Theorem showfps_counts_every_frame (times : list Z) (s : fps) :
  loops (fst (showfps_run times s))
  + total (map snd (snd (showfps_run times s)))
  = loops s + Z.of_nat (length times).
Proof.
  revert s. induction times as [|t times IH]; intros s.
  - cbn [showfps_run fst snd map total fold_right length]. lia.
  - cbn [showfps_run fst snd length]. specialize (IH (fst (showfps t s))).
    unfold showfps in *.
    destruct (t - lastMillis s >? 1000); cbn [fst snd loops] in *;
      cbn [map snd total fold_right];
      fold (total (map snd (snd (showfps_run times (mkFps 0 t))))); lia.
Qed.

(** X18: the frame counter prints at most one line a second.  Each line
    is printed at the time of a call, more than 1000 ms after the line
    before it (the first one more than 1000 ms after [lastMillis]), and
    counts at least the call that prints it. *)
Theorem showfps_lines_apart (times : list Z) (s : fps) :
  apart (lastMillis s) (map fst (snd (showfps_run times s))) /\
  (forall p, In p (snd (showfps_run times s)) -> In (fst p) times) /\
  (0 <= loops s ->
   Forall (fun p => 1 <= snd p) (snd (showfps_run times s))).
Proof.
  revert s. induction times as [|t times IH]; intros s.
  - cbn. split; [exact I|]. split; [tauto | constructor].
  - cbn [showfps_run fst snd]. specialize (IH (fst (showfps t s))).
    destruct IH as (Ha & Hin & Hpos).
    unfold showfps in *.
    destruct (Z.gtb_spec (t - lastMillis s) 1000) as [Hgt | Hle];
      cbn [fst snd loops lastMillis map apart] in *.
    + split; [split; [lia | exact Ha]|]. split.
      * intros p [<- | Hp]; [now left | right; apply Hin, Hp].
      * intros H0. constructor; [cbn [snd]; lia | apply Hpos; lia].
    + split; [exact Ha|]. split.
      * intros p Hp. right. apply Hin, Hp.
      * intros H0. apply Hpos. lia.
Qed.

(** ** Window animator: the Julia sketches *)

(** The count painted on a cell of a Julia frame is the first escape of
    the orbit of the cell's point under [z -> z^2 + (cre, cim)]. *)
Lemma julia_frame_led (colour : Z -> CRGB) (cre cim : float) (w : window)
  (leds : list (option CRGB)) (i j : nat) :
  length leds = 256%nat -> (i < 16)%nat -> (j < 16)%nat ->
  exists r : Z,
    0 <= r <= maxIterations /\
    nth_error
      (show (mandel (shade_of colour
                       (julia_cell maxIterations maxCalc cre cim)) w) leds)
      (Z.to_nat (XY (Z.of_nat i) (Z.of_nat j)))
    = Some (Some (colour r)) /\
    (forall k, (k < Z.to_nat r)%nat ->
       escaped maxCalc
         (orbit cre cim (advance (dx w) i (xmin w),
                         advance (dy w) j (ymin w)) k) = false) /\
    (r = maxIterations \/
     escaped maxCalc
       (orbit cre cim (advance (dx w) i (xmin w),
                       advance (dy w) j (ymin w)) (Z.to_nat r)) = true).
Proof.
  intros Hlen Hi Hj.
  destruct (escape_time_spec maxIterations maxCalc cre cim
              (advance (dx w) i (xmin w)) (advance (dy w) j (ymin w)))
    as (r & Hrun & Hr & Hb & He); [unfold maxIterations; lia|].
  exists r. split; [exact Hr|]. split; [|split; assumption].
  rewrite mandel_led by assumption.
  unfold shade_of, julia_cell. rewrite Hrun. reflexivity.
Qed.

(** C5, as the code has it: in both Julia sketches the window is the same
    at every time and for every sine: [-0.5, 0.5] on both axes
    (Julia-palette, centre [(0,0)], half-extent 1/2) and
    [-1.2, 1.2] x [-0.8, 1] (Julia).  The point that [resize] stores is
    [(re0 + sin(t1/305)/20, im0 + sin(t2/405)/20)], with
    [(re0, im0) = (-0.94299, 0.3162)] and [t1], [t2] the two readings of
    the clock.  It is the constant of the recurrence: every step of the
    loop adds it, and after a pass of [loop] the LED of each cell shows
    the colour of the first escape of the orbit of the cell's point
    under [z -> z^2 + (reAl, imAg)]. *)
Theorem julia_window_fixed (sinf : float -> float) (t1 t2 : Z) :
  let gp := JuliaPalette.resize sinf t1 t2 in
  let gj := Julia.resize sinf t1 t2 in
  (win gp = with_steps (lit (-5) 10) (lit (-5) 10) (lit 5 10) (lit 5 10) /\
   centred_on (win gp) (of_int 0) (of_int 0) /\
   win gj = with_steps (lit (-12) 10) (lit (-8) 10) (lit 12 10) (of_int 1) /\
   (forall (sinf' : float -> float) (t1' t2' : Z),
      win (JuliaPalette.resize sinf' t1' t2') = win gp /\
      win (Julia.resize sinf' t1' t2') = win gj)) /\
  (reAl gp = reAl gj /\ imAg gp = imAg gj /\
   reAl gj
     = fadd pixelblaze_re
         (fdiv (sinf (fdiv (of_int t1) (of_int 305))) (of_int 20)) /\
   imAg gj
     = fadd pixelblaze_im
         (fdiv (sinf (fdiv (of_int t2) (of_int 405))) (of_int 20))) /\
  (forall (s : cell) (s' : cell),
     loop_body maxIterations maxCalc (reAl gj) (imAg gj) s = Next s' ->
     a s' = fadd (fsub (fmul (a s) (a s)) (fmul (b s) (b s))) (reAl gj) /\
     b s' = fadd (fmul (fmul (of_int 2) (a s)) (b s)) (imAg gj)) /\
  (forall (ColorFromPalette : CRGBPalette16 -> Z -> Z -> CRGB)
          (currentPalette : CRGBPalette16) (CHSV : Z -> Z -> Z -> CRGB)
          (leds : list (option CRGB)) (i j : nat),
     length leds = 256%nat -> (i < 16)%nat -> (j < 16)%nat ->
     (exists r : Z,
        0 <= r <= maxIterations /\
        nth_error (julia_palette_loop sinf ColorFromPalette currentPalette
                     t1 t2 leds)
                  (Z.to_nat (XY (Z.of_nat i) (Z.of_nat j)))
        = Some (Some (color_palette ColorFromPalette currentPalette
                        maxIterations r)) /\
        (forall k, (k < Z.to_nat r)%nat ->
           escaped maxCalc
             (orbit (reAl gp) (imAg gp)
                (advance (dx (win gp)) i (xmin (win gp)),
                 advance (dy (win gp)) j (ymin (win gp))) k) = false) /\
        (r = maxIterations \/
         escaped maxCalc
           (orbit (reAl gp) (imAg gp)
              (advance (dx (win gp)) i (xmin (win gp)),
               advance (dy (win gp)) j (ymin (win gp))) (Z.to_nat r))
         = true)) /\
     (exists r : Z,
        0 <= r <= maxIterations /\
        nth_error (julia_loop sinf CHSV t1 t2 leds)
                  (Z.to_nat (XY (Z.of_nat i) (Z.of_nat j)))
        = Some (Some (color_hue CHSV maxIterations r)) /\
        (forall k, (k < Z.to_nat r)%nat ->
           escaped maxCalc
             (orbit (reAl gj) (imAg gj)
                (advance (dx (win gj)) i (xmin (win gj)),
                 advance (dy (win gj)) j (ymin (win gj))) k) = false) /\
        (r = maxIterations \/
         escaped maxCalc
           (orbit (reAl gj) (imAg gj)
              (advance (dx (win gj)) i (xmin (win gj)),
               advance (dy (win gj)) j (ymin (win gj))) (Z.to_nat r))
         = true))).
Proof.
  cbv zeta. split; [|split; [|split]].
  - split; [reflexivity|]. split.
    + exists (1 # 2)%Q, (1 # 2)%Q. vm_compute. repeat split.
    + split; [reflexivity|]. intros sinf' t1' t2'. split; reflexivity.
  - repeat split.
  - intros s s' H. unfold loop_body in H.
    destruct (iter s <? maxIterations); [|discriminate].
    destruct (fgt _ maxCalc); [discriminate|].
    injection H as <-. split; reflexivity.
  - intros ColorFromPalette currentPalette CHSV leds i j Hlen Hi Hj. split.
    + apply (julia_frame_led
               (color_palette ColorFromPalette currentPalette maxIterations)
               (reAl (JuliaPalette.resize sinf t1 t2))
               (imAg (JuliaPalette.resize sinf t1 t2))
               (win (JuliaPalette.resize sinf t1 t2))); assumption.
    + apply (julia_frame_led (color_hue CHSV maxIterations)
               (reAl (Julia.resize sinf t1 t2))
               (imAg (Julia.resize sinf t1 t2))
               (win (Julia.resize sinf t1 t2))); assumption.
Qed.

(** C5, as stated, fails: with both readings of the clock at 0, where
    the sine is 0, the window of Julia-palette is [-0.5, 0.5] while the
    perturbed point is [(-0.94299, 0.3162)]: the bounds are not that
    point plus or minus a half-extent. *)
Lemma julia_window_not_about_constant :
  let g := JuliaPalette.resize sin_near_0 0 0 in
  reAl g = pixelblaze_re /\
  ~ centred_on (win g) (reAl g) (imAg g).
Proof.
  cbv zeta. split; [vm_compute; reflexivity|].
  intros (hx & hy & Hx0 & Hx1 & _).
  assert (Hsum : (F2Q (xmin (win (JuliaPalette.resize sin_near_0 0 0)))
                  + F2Q (xmax (win (JuliaPalette.resize sin_near_0 0 0)))
                  == 2 * F2Q (reAl (JuliaPalette.resize sin_near_0 0 0)))%Q).
  { rewrite Hx0, Hx1. ring. }
  vm_compute in Hsum. discriminate Hsum.
Qed.

(** ** Single-precision rounding

    Bounds on the results of [SFadd], [SFsub], [SFmul] and [SFdiv] at
    precision 24: a result is never on the wrong side of a float that
    the exact value does not cross. *)

(** *** The number of digits of a mantissa *)

Lemma digits2_pos_bounds (p : positive) :
  2 ^ (Zpos (digits2_pos p) - 1) <= Zpos p < 2 ^ Zpos (digits2_pos p).
Proof.
  induction p as [p IH | p IH |]; cbn [digits2_pos].
  - rewrite Pos2Z.inj_succ, Pos2Z.inj_xI.
    replace (Z.succ (Zpos (digits2_pos p)) - 1)
      with (Z.succ (Zpos (digits2_pos p) - 1)) by lia.
    rewrite !Z.pow_succ_r by lia. hide_pow. lia.
  - rewrite Pos2Z.inj_succ. change (Zpos p~0) with (2 * Zpos p).
    replace (Z.succ (Zpos (digits2_pos p)) - 1)
      with (Z.succ (Zpos (digits2_pos p) - 1)) by lia.
    rewrite !Z.pow_succ_r by lia. hide_pow. lia.
  - cbn. lia.
Qed.

Lemma Zdigits2_bounds (m : Z) :
  0 < m -> 2 ^ (Zdigits2 m - 1) <= m < 2 ^ Zdigits2 m.
Proof.
  destruct m as [|p|p]; try lia. intros _. apply digits2_pos_bounds.
Qed.

Lemma Zdigits2_pos (m : Z) : 0 < m -> 0 < Zdigits2 m.
Proof. destruct m; cbn; lia. Qed.

Lemma Zdigits2_unique (m d : Z) :
  0 < d -> 2 ^ (d - 1) <= m < 2 ^ d -> Zdigits2 m = d.
Proof.
  intros Hd [Hlo Hhi].
  assert (Hm : 0 < m) by (pose proof (Z.pow_pos_nonneg 2 (d - 1)); lia).
  pose proof (Zdigits2_bounds m Hm) as [Hlo' Hhi'].
  pose proof (Zdigits2_pos m Hm) as Hp.
  destruct (Z.lt_trichotomy (Zdigits2 m) d) as [Hlt | [Heq | Hgt]]; [|exact Heq|].
  - assert (2 ^ Zdigits2 m <= 2 ^ (d - 1)) by (apply Z.pow_le_mono_r; lia). lia.
  - assert (2 ^ d <= 2 ^ (Zdigits2 m - 1)) by (apply Z.pow_le_mono_r; lia). lia.
Qed.

(** *** Shifting a mantissa right *)

Lemma shr_1_div2 (mrs : shr_record) :
  0 <= shr_m mrs -> shr_m (shr_1 mrs) = shr_m mrs / 2.
Proof.
  destruct mrs as [m r s]. cbn [shr_m shr_1]. intros Hm.
  destruct m as [|[p|p|]|p]; cbn [shr_m]; try lia; try reflexivity.
  - change (Zpos p~1) with (2 * Zpos p + 1).
    apply (Z.div_unique _ 2 _ 1); lia.
  - change (Zpos p~0) with (2 * Zpos p).
    apply (Z.div_unique _ 2 _ 0); lia.
Qed.

(** [p] shifts divide the mantissa by [2^p], rounding down. *)
Lemma iter_shr_1_div (p : positive) :
  forall mrs : shr_record,
    0 <= shr_m mrs ->
    shr_m (iter_pos shr_1 p mrs) = shr_m mrs / 2 ^ Zpos p.
Proof.
  assert (Hnn : forall mrs, 0 <= shr_m mrs -> 0 <= shr_m (shr_1 mrs)).
  { intros mrs H. rewrite shr_1_div2 by exact H. apply Z.div_pos; lia. }
  induction p as [p IH | p IH |]; intros mrs Hm; cbn [iter_pos].
  - rewrite IH, IH, shr_1_div2; auto.
    + rewrite !Z.div_div by (try apply Z.pow_pos_nonneg; lia).
      f_equal. rewrite Pos2Z.inj_xI.
      replace (2 * Zpos p + 1) with (1 + Zpos p + Zpos p) by lia.
      rewrite !Z.pow_add_r by lia. lia.
    + rewrite IH by auto. apply Z.div_pos; [auto|apply Z.pow_pos_nonneg; lia].
  - rewrite IH, IH; auto.
    + rewrite !Z.div_div by (try apply Z.pow_pos_nonneg; lia).
      f_equal. change (Zpos p~0) with (2 * Zpos p).
      replace (2 * Zpos p) with (Zpos p + Zpos p) by lia.
      rewrite !Z.pow_add_r by lia. lia.
    + rewrite IH by auto. apply Z.div_pos; [auto|apply Z.pow_pos_nonneg; lia].
  - rewrite shr_1_div2 by exact Hm. reflexivity.
Qed.

Lemma shr_record_of_loc_m (m : Z) (l : location) :
  shr_m (shr_record_of_loc m l) = m.
Proof. destruct l as [|[| |]]; reflexivity. Qed.

(** Truncation to the exponent [fexp] asks for. *)
Lemma shr_fexp_spec (m e : Z) (l : location) :
  0 <= m ->
  e <= fexp prec emax (Zdigits2 m + e) ->
  exists mrs,
    shr_fexp prec emax m e l = (mrs, fexp prec emax (Zdigits2 m + e)) /\
    shr_m mrs = m / 2 ^ (fexp prec emax (Zdigits2 m + e) - e).
Proof.
  intros Hm Hk. unfold shr_fexp, shr.
  remember (fexp prec emax (Zdigits2 m + e)) as e1 eqn:He1.
  destruct (e1 - e) as [|k|k] eqn:Hd; try lia.
  - eexists. split; [f_equal; lia|].
    rewrite shr_record_of_loc_m. cbn. symmetry. apply Z.div_1_r.
  - eexists. split; [f_equal; lia|].
    rewrite iter_shr_1_div by (rewrite shr_record_of_loc_m; exact Hm).
    now rewrite shr_record_of_loc_m.
Qed.

Lemma round_nearest_even_bounds (m : Z) (l : location) :
  m <= round_nearest_even m l <= m + 1.
Proof.
  destruct l as [|[| |]]; cbn [round_nearest_even]; try lia.
  destruct (Z.even m); lia.
Qed.

(** *** The rounding of a positive mantissa *)

Lemma fexp_eq (x : Z) : fexp prec emax x = Z.max (x - 24) (-149).
Proof. reflexivity. Qed.

Lemma pow2_24 : 2 ^ 24 = 16777216. Proof. reflexivity. Qed.
Lemma pow2_23 : 2 ^ 23 = 8388608. Proof. reflexivity. Qed.

Lemma Zdigits2_le_24 (m : Z) : 0 < m -> m < 2 ^ 24 -> Zdigits2 m <= 24.
Proof.
  intros Hm Hlt. pose proof (Zdigits2_bounds m Hm) as [Hlo _].
  destruct (Z_le_gt_dec (Zdigits2 m) 24) as [H|H]; [exact H|].
  assert (2 ^ 24 <= 2 ^ (Zdigits2 m - 1)) by (apply Z.pow_le_mono_r; lia).
  lia.
Qed.

(** [binary_round_aux] on a mantissa [M] that needs no shift to the left:
    the mantissa is truncated to [m1], rounded to [m1] or [m1 + 1], and
    renormalised when the rounding carried into a 25th bit. *)
Lemma binary_round_aux_general (s : bool) (M e : Z) (l : location) :
  0 < M ->
  e <= fexp prec emax (Zdigits2 M + e) ->
  exists m2,
    M / 2 ^ (fexp prec emax (Zdigits2 M + e) - e) <= m2
      <= M / 2 ^ (fexp prec emax (Zdigits2 M + e) - e) + 1 /\
    m2 <= 2 ^ 24 /\
    (-149 < fexp prec emax (Zdigits2 M + e) -> 2 ^ 23 <= m2) /\
    (m2 < 2 ^ 24 ->
     fexp prec emax (Zdigits2 m2 + fexp prec emax (Zdigits2 M + e))
       = fexp prec emax (Zdigits2 M + e)) /\
    binary_round_aux prec emax s M e l =
      if m2 <? 2 ^ 24 then pack s m2 (fexp prec emax (Zdigits2 M + e))
      else pack s (2 ^ 23) (fexp prec emax (Zdigits2 M + e) + 1).
Proof.
  intros HM Hk.
  destruct (shr_fexp_spec M e l) as (mrs1 & Hshr1 & Hm1); [lia | exact Hk |].
  set (e1 := fexp prec emax (Zdigits2 M + e)) in *.
  set (k := e1 - e) in *.
  set (m1 := M / 2 ^ k) in *.
  assert (He1 : e1 = Z.max (Zdigits2 M + e - 24) (-149)) by apply fexp_eq.
  pose proof (Zdigits2_bounds M HM) as [Hlo Hhi].
  pose proof (Zdigits2_pos M HM) as Hd.
  assert (Hk0 : 0 <= k) by (unfold k; lia).
  assert (Hpk : 0 < 2 ^ k) by (apply Z.pow_pos_nonneg; lia).
  assert (Hm1lo : 0 <= m1) by (apply Z.div_pos; lia).
  assert (Hm1hi : m1 < 2 ^ 24).
  { apply Z.div_lt_upper_bound; [exact Hpk|].
    rewrite <- Z.pow_add_r by lia.
    assert (2 ^ Zdigits2 M <= 2 ^ (k + 24)) by (apply Z.pow_le_mono_r; lia).
    lia. }
  assert (Hm1n : -149 < e1 -> 2 ^ 23 <= m1).
  { intros Hn. apply Z.div_le_lower_bound; [exact Hpk|].
    rewrite <- Z.pow_add_r by lia.
    replace (k + 23) with (Zdigits2 M - 1) by (unfold k; lia). exact Hlo. }
  set (m2 := round_nearest_even (shr_m mrs1) (loc_of_shr_record mrs1)).
  pose proof (round_nearest_even_bounds (shr_m mrs1) (loc_of_shr_record mrs1))
    as Hm2. fold m2 in Hm2. rewrite Hm1 in Hm2.
  assert (He1lo : -149 <= e1) by lia.
  assert (Hcan : m2 < 2 ^ 24 -> fexp prec emax (Zdigits2 m2 + e1) = e1).
  { intros Hlt. rewrite fexp_eq.
    destruct (Z.eq_dec m2 0) as [Hz | Hnz].
    - rewrite Hz. cbn [Zdigits2].
      destruct (Z_lt_le_dec (-149) e1) as [Hn|Hn]; [|lia].
      specialize (Hm1n Hn). rewrite pow2_23 in Hm1n. lia.
    - assert (H0 : 0 < m2) by lia.
      pose proof (Zdigits2_le_24 m2 H0 Hlt) as Hd2.
      destruct (Z_lt_le_dec (-149) e1) as [Hn|Hn]; [|lia].
      specialize (Hm1n Hn).
      rewrite (Zdigits2_unique m2 24); [lia | lia |].
      change (24 - 1) with 23. lia. }
  exists m2. split; [exact Hm2|]. split; [lia|]. split; [lia|].
  split; [exact Hcan|].
  unfold binary_round_aux. rewrite Hshr1. fold m2.
  destruct (Z.ltb_spec m2 (2 ^ 24)) as [Hlt | Hge].
  - (* no carry: the second shift is by 0 *)
    pose proof (Hcan Hlt) as Hf.
    destruct (shr_fexp_spec m2 e1 loc_Exact) as (mrs2 & Hshr2 & Hm3);
      [lia | lia |].
    rewrite Hshr2, Hm3, Hf, Z.sub_diag. change (2 ^ 0) with 1.
    rewrite Z.div_1_r. reflexivity.
  - (* carry: the mantissa 2^24 is shifted once more *)
    assert (Heq : m2 = 2 ^ 24) by lia.
    rewrite Heq. change (2 ^ 24) with 16777216.
    unfold shr_fexp. change (Zdigits2 16777216) with 25.
    rewrite fexp_eq.
    replace (Z.max (25 + e1 - 24) (-149) - e1) with 1 by lia.
    cbn [shr shr_record_of_loc iter_pos shr_1 shr_m].
    reflexivity.
Qed.

(** *** Exact values and scaling *)

Lemma pow2Q_scale (e K : Z) :
  0 <= K -> 0 <= e + K ->
  (pow2Q e * inject_Z (2 ^ K) == inject_Z (2 ^ (e + K)))%Q.
Proof.
  intros HK HeK. destruct e as [|p|p]; cbn [pow2Q].
  - rewrite Z.add_0_l. ring.
  - rewrite <- inject_Z_mult. rewrite Z.pow_add_r by lia. reflexivity.
  - unfold Qeq, Qmult, inject_Z. cbn [Qnum Qden].
    rewrite Pos.mul_1_r, Pos2Z.inj_pow.
    replace (2 ^ K) with (2 ^ (Z.neg p + K) * 2 ^ Zpos p).
    + change (Z.pos 2) with 2. ring.
    + rewrite <- Z.pow_add_r by lia. f_equal. lia.
Qed.

Lemma pow2Q_pos (e : Z) : (0 < pow2Q e)%Q.
Proof.
  destruct e as [|p|p]; cbn [pow2Q]; try reflexivity.
  change 0%Q with (inject_Z 0). rewrite <- Zlt_Qlt.
  change (Z.pow_pos 2 p) with (2 ^ Zpos p).
  apply Z.pow_pos_nonneg; lia.
Qed.

Lemma valQ_scale (m e K : Z) :
  0 <= K -> 0 <= e + K ->
  (valQ m e * inject_Z (2 ^ K) == inject_Z (m * 2 ^ (e + K)))%Q.
Proof.
  intros HK HeK. unfold valQ.
  rewrite inject_Z_mult, <- (pow2Q_scale e K HK HeK). ring.
Qed.

(** Two exact values compare as their mantissas brought to a common
    exponent. *)
Lemma valQ_le_iff (m1 e1 m2 e2 K : Z) :
  0 <= K -> 0 <= e1 + K -> 0 <= e2 + K ->
  (valQ m1 e1 <= valQ m2 e2)%Q <-> m1 * 2 ^ (e1 + K) <= m2 * 2 ^ (e2 + K).
Proof.
  intros HK H1 H2.
  assert (HP : (0 < inject_Z (2 ^ K))%Q).
  { change 0%Q with (inject_Z 0). rewrite <- Zlt_Qlt.
    apply Z.pow_pos_nonneg; lia. }
  rewrite Zle_Qle, <- (valQ_scale m1 e1 K HK H1), <- (valQ_scale m2 e2 K HK H2).
  symmetry. apply Qmult_le_r. exact HP.
Qed.

Lemma valQ_lt_iff (m1 e1 m2 e2 K : Z) :
  0 <= K -> 0 <= e1 + K -> 0 <= e2 + K ->
  (valQ m1 e1 < valQ m2 e2)%Q <-> m1 * 2 ^ (e1 + K) < m2 * 2 ^ (e2 + K).
Proof.
  intros HK H1 H2.
  assert (HP : (0 < inject_Z (2 ^ K))%Q).
  { change 0%Q with (inject_Z 0). rewrite <- Zlt_Qlt.
    apply Z.pow_pos_nonneg; lia. }
  rewrite Zlt_Qlt, <- (valQ_scale m1 e1 K HK H1), <- (valQ_scale m2 e2 K HK H2).
  symmetry. apply Qmult_lt_r. exact HP.
Qed.

(** *** Rounding and bounds *)

Lemma bounded_intro (m e : Z) :
  0 < m -> fexp prec emax (Zdigits2 m + e) = e -> e <= 104 ->
  bounded prec emax (Z.to_pos m) e = true.
Proof.
  intros Hm Hc He. unfold bounded, canonical_mantissa.
  destruct m as [|p|p]; try lia. cbn [Z.to_pos].
  cbn [Zdigits2] in Hc. rewrite Hc, Z.eqb_refl. cbn [andb].
  apply Z.leb_le. exact He.
Qed.

Lemma pack_pos (s : bool) (m e : Z) :
  0 < m ->
  pack s m e = if e <=? 104 then S754_finite s (Z.to_pos m) e
               else S754_infinity s.
Proof. destruct m; try lia. reflexivity. Qed.

(** Rounding does not go below a normal float that the exact value
    reaches. *)
Lemma binary_round_aux_lower (s : bool) (M e : Z) (l : location) (mF eF : Z) :
  0 < M ->
  e <= fexp prec emax (Zdigits2 M + e) ->
  normalF mF eF ->
  (valQ mF eF <= valQ M e)%Q ->
  rounded_ge s (valQ mF eF) (binary_round_aux prec emax s M e l).
Proof.
  intros HM Hpre [[HmFlo HmFhi] [HeFlo HeFhi]] Hval.
  destruct (binary_round_aux_general s M e l HM Hpre)
    as (m2 & [Hm2lo Hm2hi] & Hm2max & Hm2n & Hcan & ->).
  set (e1 := fexp prec emax (Zdigits2 M + e)) in *.
  assert (He1 : e1 = Z.max (Zdigits2 M + e - 24) (-149)) by apply fexp_eq.
  pose proof (Zdigits2_bounds M HM) as [Hlo Hhi].
  pose proof (Zdigits2_pos M HM) as Hd.
  set (K := Z.max 149 (- e)).
  apply (valQ_le_iff mF eF M e K) in Hval; [|lia|lia|lia].
  rewrite pow2_23, pow2_24 in *.
  (* the rounded exponent is not below the one of the bound *)
  assert (HeF1 : eF <= e1).
  { destruct (Z_le_gt_dec eF e1) as [H|H]; [exact H|exfalso].
    assert (H1 : 2 ^ (Zdigits2 M + (e + K)) <= 2 ^ (23 + (eF + K)))
      by (apply Z.pow_le_mono_r; lia).
    rewrite (Z.pow_add_r 2 (Zdigits2 M)), (Z.pow_add_r 2 23) in H1 by lia.
    change (2 ^ 23) with 8388608 in H1.
    assert (0 < 2 ^ (e + K)) by (apply Z.pow_pos_nonneg; lia).
    assert (0 < 2 ^ (eF + K)) by (apply Z.pow_pos_nonneg; lia).
    assert (M * 2 ^ (e + K) < 2 ^ Zdigits2 M * 2 ^ (e + K))
      by (apply Z.mul_lt_mono_pos_r; lia).
    assert (8388608 * 2 ^ (eF + K) <= mF * 2 ^ (eF + K))
      by (apply Z.mul_le_mono_nonneg_r; lia).
    lia. }
  assert (Hm2F : e1 = eF -> mF <= m2).
  { intros Heq. apply Z.le_trans with (2 := Hm2lo).
    apply Z.div_le_lower_bound; [apply Z.pow_pos_nonneg; lia|].
    replace (eF + K) with ((e1 - e) + (e + K)) in Hval by lia.
    rewrite (Z.pow_add_r 2 (e1 - e) (e + K)) in Hval by lia.
    assert (0 < 2 ^ (e + K)) by (apply Z.pow_pos_nonneg; lia).
    hide_pow. nia. }
  assert (Hm2big : 8388608 <= m2).
  { destruct (Z.eq_dec e1 eF) as [Heq|Hne]; [specialize (Hm2F Heq); lia|].
    apply Hm2n. lia. }
  assert (Hshape : forall m' e', 8388608 <= m' < 16777216 -> e1 <= e' ->
            (e' = e1 -> m2 <= m') ->
            rounded_ge s (valQ mF eF) (pack s m' e')).
  { intros m' e' Hm' He' Hmm. rewrite pack_pos by lia.
    destruct (Z.leb_spec e' 104) as [Hle|Hgt]; [right | left; reflexivity].
    exists (Z.to_pos m'), e'. split; [reflexivity|]. split.
    - apply bounded_intro; [lia | | exact Hle].
      rewrite (Zdigits2_unique m' 24); [rewrite fexp_eq; lia | lia |].
      change (2 ^ (24 - 1)) with 8388608. change (2 ^ 24) with 16777216. lia.
    - rewrite Z2Pos.id by lia.
      apply (valQ_le_iff mF eF m' e' 149); [lia|lia|lia|].
      destruct (Z.eq_dec e' eF) as [Heq|Hne].
      + rewrite Heq. apply Z.mul_le_mono_nonneg_r;
          [apply Z.pow_nonneg; lia|].
        specialize (Hmm ltac:(lia)). specialize (Hm2F ltac:(lia)). lia.
      + replace (e' + 149) with ((e' - eF - 1) + 1 + (eF + 149)) by lia.
        rewrite (Z.pow_add_r 2 (e' - eF - 1 + 1)) by lia.
        rewrite (Z.pow_add_r 2 (e' - eF - 1) 1) by lia.
        change (2 ^ 1) with 2.
        assert (0 < 2 ^ (eF + 149)) by (apply Z.pow_pos_nonneg; lia).
        assert (0 < 2 ^ (e' - eF - 1)) by (apply Z.pow_pos_nonneg; lia).
        replace (m' * (2 ^ (e' - eF - 1) * 2 * 2 ^ (eF + 149)))
          with (m' * 2 * (2 ^ (e' - eF - 1) * 2 ^ (eF + 149))) by ring.
        apply Z.mul_le_mono_nonneg; try lia.
        hide_pow. nia. }
  destruct (Z.ltb_spec m2 16777216) as [Hlt|Hge].
  - apply Hshape; lia.
  - apply Hshape; lia.
Qed.

(** Rounding does not go above a normal float that the exact value
    stays under. *)
Lemma binary_round_aux_upper (s : bool) (M e : Z) (l : location) (mF eF : Z) :
  0 < M ->
  e <= fexp prec emax (Zdigits2 M + e) ->
  normalF mF eF ->
  (valQ M e < valQ mF eF)%Q ->
  rounded_le s (valQ mF eF) (binary_round_aux prec emax s M e l).
Proof.
  intros HM Hpre [[HmFlo HmFhi] [HeFlo HeFhi]] Hval.
  destruct (binary_round_aux_general s M e l HM Hpre)
    as (m2 & [Hm2lo Hm2hi] & Hm2max & Hm2n & Hcan & ->).
  set (e1 := fexp prec emax (Zdigits2 M + e)) in *.
  assert (He1 : e1 = Z.max (Zdigits2 M + e - 24) (-149)) by apply fexp_eq.
  pose proof (Zdigits2_bounds M HM) as [Hlo Hhi].
  pose proof (Zdigits2_pos M HM) as Hd.
  set (K := Z.max 149 (- e)).
  apply (valQ_lt_iff M e mF eF K) in Hval; [|lia|lia|lia].
  rewrite pow2_23, pow2_24 in *.
  assert (HeF1 : e1 <= eF).
  { destruct (Z_le_gt_dec e1 eF) as [H|H]; [exact H|exfalso].
    assert (H1 : 2 ^ (24 + (eF + K)) <= 2 ^ (Zdigits2 M - 1 + (e + K)))
      by (apply Z.pow_le_mono_r; lia).
    rewrite (Z.pow_add_r 2 (Zdigits2 M - 1)), (Z.pow_add_r 2 24) in H1 by lia.
    change (2 ^ 24) with 16777216 in H1.
    assert (0 < 2 ^ (e + K)) by (apply Z.pow_pos_nonneg; lia).
    assert (0 < 2 ^ (eF + K)) by (apply Z.pow_pos_nonneg; lia).
    assert (2 ^ (Zdigits2 M - 1) * 2 ^ (e + K) <= M * 2 ^ (e + K))
      by (apply Z.mul_le_mono_nonneg_r; lia).
    assert (mF * 2 ^ (eF + K) <= 16777216 * 2 ^ (eF + K))
      by (apply Z.mul_le_mono_nonneg_r; lia).
    lia. }
  assert (Hm2F : e1 = eF -> m2 <= mF).
  { intros Heq.
    assert (M / 2 ^ (e1 - e) < mF); [|lia].
    apply Z.div_lt_upper_bound; [apply Z.pow_pos_nonneg; lia|].
    replace (eF + K) with ((e1 - e) + (e + K)) in Hval by lia.
    rewrite (Z.pow_add_r 2 (e1 - e) (e + K)) in Hval by lia.
    assert (0 < 2 ^ (e + K)) by (apply Z.pow_pos_nonneg; lia).
    hide_pow. nia. }
  assert (Hshape : forall m' e', 0 <= m' < 16777216 -> e' <= eF ->
            (e' = eF -> m' <= mF) ->
            fexp prec emax (Zdigits2 m' + e') = e' ->
            rounded_le s (valQ mF eF) (pack s m' e')).
  { intros m' e' Hm' He' Hmm Hc.
    destruct (Z.eq_dec m' 0) as [-> | Hnz]; [left; reflexivity|].
    rewrite pack_pos by lia.
    replace (e' <=? 104) with true by (symmetry; apply Z.leb_le; lia).
    right. exists (Z.to_pos m'), e'. split; [reflexivity|]. split.
    - apply bounded_intro; [lia | exact Hc | lia].
    - rewrite Z2Pos.id by lia.
      assert (He'lo : -149 <= e') by (rewrite <- Hc, fexp_eq; lia).
      apply (valQ_le_iff m' e' mF eF 149); [lia|lia|lia|].
      destruct (Z.eq_dec e' eF) as [Heq|Hne].
      + rewrite Heq. apply Z.mul_le_mono_nonneg_r;
          [apply Z.pow_nonneg; lia|]. apply Hmm, Heq.
      + replace (eF + 149) with ((eF - e' - 1) + 1 + (e' + 149)) by lia.
        rewrite (Z.pow_add_r 2 (eF - e' - 1 + 1)) by lia.
        rewrite (Z.pow_add_r 2 (eF - e' - 1) 1) by lia.
        change (2 ^ 1) with 2.
        assert (0 < 2 ^ (e' + 149)) by (apply Z.pow_pos_nonneg; lia).
        assert (0 < 2 ^ (eF - e' - 1)) by (apply Z.pow_pos_nonneg; lia).
        replace (mF * (2 ^ (eF - e' - 1) * 2 * 2 ^ (e' + 149)))
          with (mF * 2 * (2 ^ (eF - e' - 1) * 2 ^ (e' + 149))) by ring.
        apply Z.mul_le_mono_nonneg; try lia.
        hide_pow. nia. }
  destruct (Z.ltb_spec m2 16777216) as [Hlt|Hge].
  - apply Hshape; [| exact HeF1 | exact Hm2F | apply Hcan, Hlt].
    split; [|exact Hlt].
    apply Z.le_trans with (2 := Hm2lo).
    apply Z.div_pos; [lia | apply Z.pow_pos_nonneg; lia].
  - assert (Hne : e1 <> eF) by (intros Heq; specialize (Hm2F Heq); lia).
    apply Hshape; [lia | lia | lia |].
    change (Zdigits2 8388608) with 24. rewrite fexp_eq. lia.
Qed.

(** A rounded result is a zero, an infinity or a valid float, of the
    sign given. *)
Lemma binary_round_aux_shape (s : bool) (M e : Z) (l : location) :
  0 < M ->
  e <= fexp prec emax (Zdigits2 M + e) ->
  rounded s (binary_round_aux prec emax s M e l).
Proof.
  intros HM Hpre.
  destruct (binary_round_aux_general s M e l HM Hpre)
    as (m2 & [Hm2lo Hm2hi] & Hm2max & Hm2n & Hcan & ->).
  set (e1 := fexp prec emax (Zdigits2 M + e)) in *.
  assert (He1 : -149 <= e1) by (unfold e1; rewrite fexp_eq; lia).
  assert (Hm2nn : 0 <= m2).
  { apply Z.le_trans with (2 := Hm2lo).
    apply Z.div_pos; [lia | apply Z.pow_pos_nonneg; lia]. }
  assert (Hshape : forall m' e', 0 <= m' ->
            fexp prec emax (Zdigits2 m' + e') = e' ->
            rounded s (pack s m' e')).
  { intros m' e' Hm' Hc.
    destruct (Z.eq_dec m' 0) as [-> | Hnz]; [left; reflexivity|].
    rewrite pack_pos by lia.
    destruct (Z.leb_spec e' 104) as [Hle|Hgt]; [|right; left; reflexivity].
    right. right. exists (Z.to_pos m'), e'. split; [reflexivity|].
    apply bounded_intro; [lia | exact Hc | exact Hle]. }
  destruct (Z.ltb_spec m2 (2 ^ 24)) as [Hlt|Hge].
  - apply Hshape; [exact Hm2nn | apply Hcan, Hlt].
  - apply Hshape; [rewrite pow2_23; lia|].
    change (Zdigits2 (2 ^ 23)) with 24. rewrite fexp_eq. lia.
Qed.

(** *** Valid mantissas *)

Lemma bounded_facts (m : positive) (e : Z) :
  bounded prec emax m e = true ->
  -149 <= e <= 104 /\ Zpos m < 2 ^ 24 /\ (-149 < e -> 2 ^ 23 <= Zpos m).
Proof.
  unfold bounded, canonical_mantissa. intros H.
  apply andb_true_iff in H. destruct H as [Hc He].
  apply Z.eqb_eq in Hc. apply Z.leb_le in He.
  change (emax - prec) with 104 in He.
  rewrite fexp_eq in Hc.
  pose proof (digits2_pos_bounds m) as [Hlo Hhi].
  split; [lia|]. split.
  - assert (2 ^ Zpos (digits2_pos m) <= 2 ^ 24)
      by (apply Z.pow_le_mono_r; lia). lia.
  - intros Hn. assert (Hd : Zpos (digits2_pos m) = 24) by lia.
    rewrite Hd in Hlo. exact Hlo.
Qed.

Lemma valQ_pos (m e : Z) : 0 < m -> (0 < valQ m e)%Q.
Proof.
  intros Hm. unfold valQ. apply Qmult_lt_0_compat; [|apply pow2Q_pos].
  change 0%Q with (inject_Z 0). rewrite <- Zlt_Qlt. exact Hm.
Qed.

Lemma valQ_opp (m e : Z) : (valQ (- m) e == - valQ m e)%Q.
Proof. unfold valQ. rewrite inject_Z_opp. ring. Qed.

Lemma valQ_0 (e : Z) : (valQ 0 e == 0)%Q.
Proof. unfold valQ. change (inject_Z 0) with 0%Q. ring. Qed.

Lemma valQ_add (m1 m2 e : Z) :
  (valQ (m1 + m2) e == valQ m1 e + valQ m2 e)%Q.
Proof. unfold valQ. rewrite inject_Z_plus. ring. Qed.

Lemma valQ_shift (m e n : Z) :
  0 <= n -> (valQ (m * 2 ^ n) (e - n) == valQ m e)%Q.
Proof.
  intros Hn. set (K := Z.max 0 (n - e)).
  assert (HP : ~ (inject_Z (2 ^ K) == 0)%Q).
  { intros H. assert (0 < 2 ^ K) by (apply Z.pow_pos_nonneg; lia).
    unfold Qeq in H. cbn [Qnum Qden inject_Z] in H. hide_pow. lia. }
  apply (Qmult_inj_r _ _ _ HP).
  rewrite !valQ_scale by lia.
  replace (e + K) with (n + (e - n + K)) by lia.
  rewrite (Z.pow_add_r 2 n) by lia.
  rewrite Z.mul_assoc. reflexivity.
Qed.

(** *** Alignment of a mantissa to a lower exponent *)

Lemma pos_iter_xO (m d : positive) :
  Zpos (Pos.iter xO m d) = Zpos m * 2 ^ Zpos d.
Proof.
  induction d as [|d IH] using Pos.peano_ind.
  - cbn [Pos.iter]. change (2 ^ 1) with 2. lia.
  - rewrite Pos.iter_succ, Pos2Z.inj_succ, Z.pow_succ_r by lia.
    change (Zpos (Pos.iter xO m d)~0) with (2 * Zpos (Pos.iter xO m d)).
    rewrite IH. ring.
Qed.

Lemma shl_align_spec (m : positive) (e e' : Z) :
  exists m2 e2,
    shl_align m e e' = (m2, e2) /\ e2 = Z.min e e' /\
    Zpos m2 = Zpos m * 2 ^ (e - e2).
Proof.
  unfold shl_align. destruct (e' - e) as [|d|d] eqn:Hd.
  - exists m, e. repeat split; [lia|]. rewrite Z.sub_diag. cbn. lia.
  - exists m, e. repeat split; [lia|]. rewrite Z.sub_diag. cbn. lia.
  - exists (Pos.iter xO m d), e'. repeat split; [lia|].
    rewrite pos_iter_xO. f_equal. f_equal. lia.
Qed.

Lemma Zdigits2_shift (m n : Z) :
  0 < m -> 0 <= n -> Zdigits2 (m * 2 ^ n) = Zdigits2 m + n.
Proof.
  intros Hm Hn. pose proof (Zdigits2_bounds m Hm) as [Hlo Hhi].
  pose proof (Zdigits2_pos m Hm) as Hd.
  assert (Hp : 0 < 2 ^ n) by (apply Z.pow_pos_nonneg; lia).
  apply Zdigits2_unique; [lia|].
  replace (Zdigits2 m + n - 1) with (Zdigits2 m - 1 + n) by lia.
  rewrite !Z.pow_add_r by lia. split.
  - apply Z.mul_le_mono_nonneg_r; lia.
  - apply Z.mul_lt_mono_pos_r; lia.
Qed.

(** [binary_round] first aligns its mantissa, so that no shift to the
    left is missing, and keeps the value. *)
Lemma binary_round_aligned (s : bool) (m : positive) (e : Z) :
  exists M e2,
    binary_round prec emax s m e
      = binary_round_aux prec emax s M e2 loc_Exact /\
    0 < M /\ e2 <= fexp prec emax (Zdigits2 M + e2) /\
    (valQ M e2 == valQ (Zpos m) e)%Q.
Proof.
  unfold binary_round.
  destruct (shl_align_spec m e (fexp prec emax (Zpos (digits2_pos m) + e)))
    as (m2 & e2 & -> & He2 & Hm2).
  exists (Zpos m2), e2. split; [reflexivity|]. split; [lia|].
  assert (Hn : 0 <= e - e2) by lia.
  rewrite Hm2. split.
  - rewrite Zdigits2_shift by lia. cbn [Zdigits2].
    replace (Zpos (digits2_pos m) + (e - e2) + e2)
      with (Zpos (digits2_pos m) + e) by lia. lia.
  - replace e2 with (e - (e - e2)) at 2 by lia.
    apply valQ_shift. exact Hn.
Qed.

Lemma binary_round_lower (s : bool) (m : positive) (e mF eF : Z) :
  normalF mF eF ->
  (valQ mF eF <= valQ (Zpos m) e)%Q ->
  rounded_ge s (valQ mF eF) (binary_round prec emax s m e).
Proof.
  intros HF Hval.
  destruct (binary_round_aligned s m e) as (M & e2 & -> & HM & Hpre & HvM).
  apply binary_round_aux_lower; try assumption. now rewrite HvM.
Qed.

Lemma binary_round_upper (s : bool) (m : positive) (e mF eF : Z) :
  normalF mF eF ->
  (valQ (Zpos m) e < valQ mF eF)%Q ->
  rounded_le s (valQ mF eF) (binary_round prec emax s m e).
Proof.
  intros HF Hval.
  destruct (binary_round_aligned s m e) as (M & e2 & -> & HM & Hpre & HvM).
  apply binary_round_aux_upper; try assumption. now rewrite HvM.
Qed.

Lemma binary_round_shape (s : bool) (m : positive) (e : Z) :
  rounded s (binary_round prec emax s m e).
Proof.
  destruct (binary_round_aligned s m e) as (M & e2 & -> & HM & Hpre & HvM).
  apply binary_round_aux_shape; assumption.
Qed.

(** *** Signed bounds *)

Lemma F2Q_finite (s : bool) (m : positive) (e : Z) :
  F2Q (S754_finite s m e) = valQ (if s then Zneg m else Zpos m) e.
Proof. reflexivity. Qed.

Lemma valQ_neg (m : positive) (e : Z) :
  (valQ (Zneg m) e == - valQ (Zpos m) e)%Q.
Proof. change (Zneg m) with (- Zpos m). apply valQ_opp. Qed.

Lemma f_ge_weaken (q q' : Q) (x : float) :
  (q' <= q)%Q -> f_ge q x -> f_ge q' x.
Proof.
  intros Hq. destruct x as [s|[|]| |s m e]; cbn [f_ge]; auto.
  - intros H. lra.
  - intros [Hb H]. split; [exact Hb | lra].
Qed.

Lemma f_le_weaken (q q' : Q) (x : float) :
  (q <= q')%Q -> f_le q x -> f_le q' x.
Proof.
  intros Hq. destruct x as [s|[|]| |s m e]; cbn [f_le]; auto.
  - intros H. lra.
  - intros [Hb H]. split; [exact Hb | lra].
Qed.

(** The float made of a signed integer [S] at exponent [e] stays above
    a normal float below [S * 2^e], and under one above it. *)
Lemma normalize_ge (S e : Z) (F : float) :
  normal_float F ->
  (F2Q F < valQ S e)%Q ->
  f_ge (F2Q F) (binary_normalize prec emax S e false).
Proof.
  destruct F as [| | |sF mF eF]; cbn [normal_float]; try tauto.
  intros HF Hval. rewrite F2Q_finite in *.
  pose proof (valQ_pos (Zpos mF) eF ltac:(lia)) as HFpos.
  pose proof (valQ_neg mF eF) as HFneg.
  destruct S as [|p|p]; cbn [binary_normalize].
  - cbn [f_ge]. rewrite valQ_0 in Hval. lra.
  - pose proof (valQ_pos (Zpos p) e ltac:(lia)) as Hp.
    destruct sF.
    + destruct (binary_round_shape false p e) as [-> | [-> | (m' & e' & -> & Hb)]];
        cbn [f_ge]; [lra | exact I |].
      split; [exact Hb|]. rewrite F2Q_finite.
      pose proof (valQ_pos (Zpos m') e' ltac:(lia)). lra.
    + destruct (binary_round_lower false p e (Zpos mF) eF HF)
        as [-> | (m' & e' & -> & Hb & Hv)]; [lra | exact I |].
      cbn [f_ge]. split; [exact Hb|]. rewrite F2Q_finite. exact Hv.
  - pose proof (valQ_pos (Zpos p) e ltac:(lia)) as Hp.
    pose proof (valQ_neg p e) as Hn.
    destruct sF; [|lra].
    destruct (binary_round_upper true p e (Zpos mF) eF HF)
      as [-> | (m' & e' & -> & Hb & Hv)]; [lra | cbn [f_ge]; lra |].
    cbn [f_ge]. split; [exact Hb|]. rewrite F2Q_finite.
    pose proof (valQ_neg m' e'). lra.
Qed.

Lemma normalize_le (S e : Z) (F : float) :
  normal_float F ->
  (valQ S e < F2Q F)%Q ->
  f_le (F2Q F) (binary_normalize prec emax S e false).
Proof.
  destruct F as [| | |sF mF eF]; cbn [normal_float]; try tauto.
  intros HF Hval. rewrite F2Q_finite in *.
  pose proof (valQ_pos (Zpos mF) eF ltac:(lia)) as HFpos.
  pose proof (valQ_neg mF eF) as HFneg.
  destruct S as [|p|p]; cbn [binary_normalize].
  - cbn [f_le]. rewrite valQ_0 in Hval. lra.
  - pose proof (valQ_pos (Zpos p) e ltac:(lia)) as Hp.
    destruct sF; [lra|].
    destruct (binary_round_upper false p e (Zpos mF) eF HF)
      as [-> | (m' & e' & -> & Hb & Hv)]; [lra | cbn [f_le]; lra |].
    cbn [f_le]. split; [exact Hb|]. rewrite F2Q_finite. exact Hv.
  - pose proof (valQ_pos (Zpos p) e ltac:(lia)) as Hp.
    pose proof (valQ_neg p e) as Hn.
    destruct sF.
    + destruct (binary_round_lower true p e (Zpos mF) eF HF)
        as [-> | (m' & e' & -> & Hb & Hv)]; [lra | exact I |].
      cbn [f_le]. split; [exact Hb|]. rewrite F2Q_finite.
      pose proof (valQ_neg m' e'). lra.
    + destruct (binary_round_shape true p e) as [-> | [-> | (m' & e' & -> & Hb)]];
        cbn [f_le]; [lra | exact I |].
      split; [exact Hb|]. rewrite F2Q_finite.
      pose proof (valQ_pos (Zpos m') e' ltac:(lia)).
      pose proof (valQ_neg m' e'). lra.
Qed.

(** *** Addition and subtraction *)

Lemma shl_align_fst (m : positive) (e ez : Z) :
  ez <= e -> Zpos (fst (shl_align m e ez)) = Zpos m * 2 ^ (e - ez).
Proof.
  intros H. destruct (shl_align_spec m e ez) as (m2 & e2 & -> & He2 & Hm2).
  cbn [fst]. rewrite Hm2. f_equal. f_equal. lia.
Qed.

Lemma valQ_cond_Zopp_aligned (s : bool) (m : positive) (e ez : Z) :
  ez <= e ->
  (valQ (cond_Zopp s (Zpos (fst (shl_align m e ez)))) ez
   == F2Q (S754_finite s m e))%Q.
Proof.
  intros H. rewrite shl_align_fst by exact H. rewrite F2Q_finite.
  replace ez with (e - (e - ez)) at 2 by lia.
  destruct s; cbn [cond_Zopp].
  - rewrite valQ_opp, valQ_shift by lia. symmetry. apply valQ_neg.
  - apply valQ_shift. lia.
Qed.

(** The sum of two finite floats is the rounding of their exact sum. *)
Lemma SFadd_finite (sx : bool) (mx : positive) (ex : Z)
  (sy : bool) (my : positive) (ey : Z) :
  exists S : Z,
    fadd (S754_finite sx mx ex) (S754_finite sy my ey)
      = binary_normalize prec emax S (Z.min ex ey) false /\
    (valQ S (Z.min ex ey)
     == F2Q (S754_finite sx mx ex) + F2Q (S754_finite sy my ey))%Q.
Proof.
  eexists. split; [reflexivity|].
  rewrite valQ_add.
  rewrite !valQ_cond_Zopp_aligned by lia. reflexivity.
Qed.

Lemma fadd_ge (x y : float) (qx qy : Q) (F : float) :
  f_ge qx x -> f_ge qy y -> normal_float F ->
  (F2Q F < qx + qy)%Q ->
  f_ge (F2Q F) (fadd x y).
Proof.
  intros Hx Hy HF Hq.
  destruct x as [sx|[|]| |sx mx ex]; cbn [f_ge] in Hx; try tauto;
  destruct y as [sy|[|]| |sy my ey]; cbn [f_ge] in Hy; try tauto;
  try exact I.
  - unfold fadd, SFadd. destruct sx, sy; cbn [f_ge]; lra.
  - change (fadd (S754_zero sx) (S754_finite sy my ey))
      with (S754_finite sy my ey).
    destruct Hy as [Hb Hy]. split; [exact Hb | lra].
  - change (fadd (S754_finite sx mx ex) (S754_zero sy))
      with (S754_finite sx mx ex).
    destruct Hx as [Hb Hx]. split; [exact Hb | lra].
  - destruct Hx as [_ Hx], Hy as [_ Hy].
    destruct (SFadd_finite sx mx ex sy my ey) as (S & -> & HS).
    apply normalize_ge; [exact HF|]. rewrite HS. lra.
Qed.

Lemma fadd_le (x y : float) (qx qy : Q) (F : float) :
  f_le qx x -> f_le qy y -> normal_float F ->
  (qx + qy < F2Q F)%Q ->
  f_le (F2Q F) (fadd x y).
Proof.
  intros Hx Hy HF Hq.
  destruct x as [sx|[|]| |sx mx ex]; cbn [f_le] in Hx; try tauto;
  destruct y as [sy|[|]| |sy my ey]; cbn [f_le] in Hy; try tauto;
  try exact I.
  - unfold fadd, SFadd. destruct sx, sy; cbn [f_le]; lra.
  - change (fadd (S754_zero sx) (S754_finite sy my ey))
      with (S754_finite sy my ey).
    destruct Hy as [Hb Hy]. split; [exact Hb | lra].
  - change (fadd (S754_finite sx mx ex) (S754_zero sy))
      with (S754_finite sx mx ex).
    destruct Hx as [Hb Hx]. split; [exact Hb | lra].
  - destruct Hx as [_ Hx], Hy as [_ Hy].
    destruct (SFadd_finite sx mx ex sy my ey) as (S & -> & HS).
    apply normalize_le; [exact HF|]. rewrite HS. lra.
Qed.

Lemma fsub_fadd (x y : float) : fsub x y = fadd x (fopp y).
Proof.
  destruct x as [sx|sx| |sx mx ex], y as [sy|sy| |sy my ey];
    try reflexivity;
    try (destruct sx, sy; reflexivity).
Qed.

Lemma f_ge_fopp (q : Q) (y : float) : f_le q y -> f_ge (- q) (fopp y).
Proof.
  destruct y as [s|[|]| |s m e]; cbn [f_le f_ge fopp SFopp negb]; try tauto.
  - intros H. lra.
  - intros [Hb H]. split; [exact Hb|].
    rewrite F2Q_finite in *. destruct s; cbn [negb].
    + pose proof (valQ_neg m e). lra.
    + pose proof (valQ_neg m e). lra.
Qed.

Lemma f_le_fopp (q : Q) (y : float) : f_ge q y -> f_le (- q) (fopp y).
Proof.
  destruct y as [s|[|]| |s m e]; cbn [f_le f_ge fopp SFopp negb]; try tauto.
  - intros H. lra.
  - intros [Hb H]. split; [exact Hb|].
    rewrite F2Q_finite in *. destruct s; cbn [negb].
    + pose proof (valQ_neg m e). lra.
    + pose proof (valQ_neg m e). lra.
Qed.

Lemma fsub_ge (x y : float) (qx qy : Q) (F : float) :
  f_ge qx x -> f_le qy y -> normal_float F ->
  (F2Q F < qx - qy)%Q ->
  f_ge (F2Q F) (fsub x y).
Proof.
  intros Hx Hy HF Hq. rewrite fsub_fadd.
  apply (fadd_ge x (fopp y) qx (- qy)); auto using f_ge_fopp.
Qed.

Lemma fsub_le (x y : float) (qx qy : Q) (F : float) :
  f_le qx x -> f_ge qy y -> normal_float F ->
  (qx - qy < F2Q F)%Q ->
  f_le (F2Q F) (fsub x y).
Proof.
  intros Hx Hy HF Hq. rewrite fsub_fadd.
  apply (fadd_le x (fopp y) qx (- qy)); auto using f_le_fopp.
Qed.

(** *** Comparison *)

Lemma bounded_exp_lt (m1 : positive) (e1 : Z) (m2 : positive) (e2 : Z) :
  bounded prec emax m1 e1 = true -> bounded prec emax m2 e2 = true ->
  e1 < e2 -> (valQ (Zpos m1) e1 < valQ (Zpos m2) e2)%Q.
Proof.
  intros H1 H2 Hlt.
  destruct (bounded_facts m1 e1 H1) as (He1 & Hm1 & _).
  destruct (bounded_facts m2 e2 H2) as (He2 & _ & Hm2).
  specialize (Hm2 ltac:(lia)). rewrite pow2_23 in Hm2. rewrite pow2_24 in Hm1.
  apply (valQ_lt_iff _ _ _ _ 149); [lia|lia|lia|].
  replace (e2 + 149) with ((e2 - e1 - 1) + 1 + (e1 + 149)) by lia.
  rewrite (Z.pow_add_r 2 (e2 - e1 - 1 + 1)) by lia.
  rewrite (Z.pow_add_r 2 (e2 - e1 - 1) 1) by lia.
  change (2 ^ 1) with 2.
  assert (0 < 2 ^ (e1 + 149)) by (apply Z.pow_pos_nonneg; lia).
  assert (0 < 2 ^ (e2 - e1 - 1)) by (apply Z.pow_pos_nonneg; lia).
  apply Z.lt_le_trans with (16777216 * 2 ^ (e1 + 149)).
  - apply Z.mul_lt_mono_pos_r; lia.
  - replace (Zpos m2 * (2 ^ (e2 - e1 - 1) * 2 * 2 ^ (e1 + 149)))
      with (Zpos m2 * 2 * (2 ^ (e2 - e1 - 1) * 2 ^ (e1 + 149))) by ring.
    apply Z.mul_le_mono_nonneg; try lia.
    hide_pow. nia.
Qed.

Lemma valQ_compare_same_exp (m1 m2 : positive) (e : Z) :
  (valQ (Zpos m1) e ?= valQ (Zpos m2) e)%Q = (m1 ?= m2)%positive.
Proof.
  pose proof (pow2Q_pos e) as Hp.
  destruct (Pos.compare_spec m1 m2) as [Heq | Hlt | Hgt].
  - subst. apply Qeq_alt. reflexivity.
  - apply Qlt_alt. unfold valQ. apply Qmult_lt_compat_r; [exact Hp|].
    rewrite <- Zlt_Qlt. lia.
  - apply Qgt_alt. unfold valQ. apply Qmult_lt_compat_r; [exact Hp|].
    rewrite <- Zlt_Qlt. lia.
Qed.

Lemma lex_compare (m1 : positive) (e1 : Z) (m2 : positive) (e2 : Z) :
  bounded prec emax m1 e1 = true -> bounded prec emax m2 e2 = true ->
  match e1 ?= e2 with
  | Lt => Lt
  | Gt => Gt
  | Eq => Pos.compare_cont Eq m1 m2
  end = (valQ (Zpos m1) e1 ?= valQ (Zpos m2) e2)%Q.
Proof.
  intros H1 H2. destruct (Z.compare_spec e1 e2) as [Heq | Hlt | Hgt].
  - subst. symmetry. apply valQ_compare_same_exp.
  - symmetry. apply Qlt_alt. now apply bounded_exp_lt.
  - symmetry. apply Qgt_alt. now apply bounded_exp_lt.
Qed.

(** On valid finite floats [SFcompare] is the comparison of the exact
    values. *)
Lemma SFcompare_finite (sx : bool) (mx : positive) (ex : Z)
  (sy : bool) (my : positive) (ey : Z) :
  bounded prec emax mx ex = true -> bounded prec emax my ey = true ->
  SFcompare (S754_finite sx mx ex) (S754_finite sy my ey)
  = Some (F2Q (S754_finite sx mx ex) ?= F2Q (S754_finite sy my ey))%Q.
Proof.
  intros Hx Hy. rewrite !F2Q_finite.
  pose proof (valQ_pos (Zpos mx) ex ltac:(lia)) as Hpx.
  pose proof (valQ_pos (Zpos my) ey ltac:(lia)) as Hpy.
  pose proof (valQ_neg mx ex) as Hnx.
  pose proof (valQ_neg my ey) as Hny.
  destruct sx, sy; cbn [SFcompare]; cbv iota; f_equal.
  - transitivity (CompOpp match ex ?= ey with
                      | Lt => Lt
                      | Gt => Gt
                      | Eq => Pos.compare_cont Eq mx my
                      end);
      [destruct (ex ?= ey); reflexivity|].
    rewrite lex_compare by assumption.
    destruct (Qcompare_spec (valQ (Zpos mx) ex) (valQ (Zpos my) ey))
      as [Heq | Hlt | Hgt]; cbn [CompOpp]; symmetry.
    + apply -> Qeq_alt. rewrite Hnx, Hny, Heq. reflexivity.
    + apply -> Qgt_alt. lra.
    + apply -> Qlt_alt. lra.
  - symmetry. apply -> Qlt_alt. lra.
  - symmetry. apply -> Qgt_alt. lra.
  - apply lex_compare; assumption.
Qed.

Lemma normal_float_bounded (s : bool) (m : positive) (e : Z) :
  normal_float (S754_finite s m e) -> bounded prec emax m e = true.
Proof.
  cbn [normal_float]. intros [[Hlo Hhi] He].
  apply (bounded_intro (Zpos m) e); [lia | | lia].
  rewrite (Zdigits2_unique (Zpos m) 24); [rewrite fexp_eq; lia | lia |].
  change (24 - 1) with 23. lia.
Qed.

Lemma flt_of_bounds (x y : float) (q1 q2 : Q) :
  f_le q1 x -> f_ge q2 y -> (q1 < q2)%Q -> flt x y = true.
Proof.
  intros Hx Hy Hq. unfold flt, SFltb.
  destruct x as [sx|[|]| |sx mx ex]; cbn [f_le] in Hx; try tauto;
  destruct y as [sy|[|]| |sy my ey]; cbn [f_ge] in Hy; try tauto;
  try reflexivity.
  - lra.
  - destruct Hy as [Hb Hy]. rewrite F2Q_finite in Hy. cbn [SFcompare].
    destruct sy; [|reflexivity].
    pose proof (valQ_pos (Zpos my) ey ltac:(lia)).
    pose proof (valQ_neg my ey). lra.
  - destruct Hx as [Hb Hx]. rewrite F2Q_finite in Hx. cbn [SFcompare].
    destruct sx; [reflexivity|].
    pose proof (valQ_pos (Zpos mx) ex ltac:(lia)). lra.
  - destruct Hx as [Hbx Hx], Hy as [Hby Hy].
    rewrite SFcompare_finite by assumption.
    replace (F2Q (S754_finite sx mx ex) ?= F2Q (S754_finite sy my ey))%Q
      with Lt; [reflexivity|].
    symmetry. apply -> Qlt_alt. lra.
Qed.

Lemma fge_of_bound (y c : float) (q : Q) :
  f_ge q y -> normal_float c -> (0 < F2Q c)%Q -> (F2Q c <= q)%Q ->
  fge y c = true.
Proof.
  intros Hy Hc Hpos Hq. unfold fge, SFleb.
  destruct c as [| | |sc mc ec]; cbn [normal_float] in Hc; try tauto.
  pose proof (normal_float_bounded sc mc ec Hc) as Hbc.
  rewrite F2Q_finite in *.
  assert (Hsc : sc = false).
  { destruct sc; [|reflexivity].
    pose proof (valQ_pos (Zpos mc) ec ltac:(lia)).
    pose proof (valQ_neg mc ec). lra. }
  subst sc.
  destruct y as [sy|[|]| |sy my ey]; cbn [f_ge] in Hy; try tauto.
  - lra.
  - destruct Hy as [Hby Hy].
    rewrite SFcompare_finite by assumption.
    destruct (Qcompare_spec (F2Q (S754_finite false mc ec))
                (F2Q (S754_finite sy my ey))) as [H|H|H]; try reflexivity.
    rewrite !F2Q_finite in *. cbv iota in *. lra.
Qed.

(** *** Multiplication *)

Lemma pow2Q_add (e1 e2 : Z) : (pow2Q (e1 + e2) == pow2Q e1 * pow2Q e2)%Q.
Proof.
  set (K1 := Z.max 0 (- e1)). set (K2 := Z.max 0 (- e2)).
  assert (HP : ~ (inject_Z (2 ^ (K1 + K2)) == 0)%Q).
  { intros H. assert (0 < 2 ^ (K1 + K2)) by (apply Z.pow_pos_nonneg; lia).
    unfold Qeq in H. cbn [Qnum Qden inject_Z] in H. hide_pow. lia. }
  apply (Qmult_inj_r _ _ _ HP).
  rewrite pow2Q_scale by lia.
  rewrite (Z.pow_add_r 2 K1 K2) by lia. rewrite inject_Z_mult.
  transitivity ((pow2Q e1 * inject_Z (2 ^ K1))
                * (pow2Q e2 * inject_Z (2 ^ K2)))%Q; [|ring].
  rewrite !pow2Q_scale by lia. rewrite <- inject_Z_mult.
  rewrite <- Z.pow_add_r by lia.
  replace (e1 + e2 + (K1 + K2)) with (e1 + K1 + (e2 + K2)) by lia.
  reflexivity.
Qed.

Lemma valQ_mul (m1 e1 m2 e2 : Z) :
  (valQ (m1 * m2) (e1 + e2) == valQ m1 e1 * valQ m2 e2)%Q.
Proof.
  unfold valQ. rewrite inject_Z_mult, pow2Q_add. ring.
Qed.

Lemma Zdigits2_ge_24 (m : Z) : 2 ^ 23 <= m -> 24 <= Zdigits2 m.
Proof.
  intros Hm. rewrite pow2_23 in Hm.
  pose proof (Zdigits2_bounds m ltac:(lia)) as [_ Hhi].
  destruct (Z_le_gt_dec 24 (Zdigits2 m)) as [H|H]; [exact H|].
  assert (2 ^ Zdigits2 m <= 2 ^ 23).
  { apply Z.pow_le_mono_r; [lia|]. lia. }
  rewrite pow2_23 in *. lia.
Qed.

Lemma f_nonneg_cases (x : float) (q : Q) :
  f_ge 0 x -> f_le q x ->
  (exists s, x = S754_zero s) \/
  (exists m e, x = S754_finite false m e /\ bounded prec emax m e = true /\
               (valQ (Zpos m) e <= q)%Q).
Proof.
  destruct x as [s|[|]| |s m e]; cbn [f_ge f_le]; try tauto.
  - intros _ _. left. now exists s.
  - intros [Hb Hlo] [_ Hhi]. right. rewrite F2Q_finite in *.
    destruct s.
    + pose proof (valQ_pos (Zpos m) e ltac:(lia)).
      pose proof (valQ_neg m e). lra.
    + exists m, e. auto.
Qed.

(** The product of two valid mantissas needs no shift to the left. *)
Lemma mul_no_left_shift (mx : positive) (ex : Z) (my : positive) (ey : Z) :
  bounded prec emax mx ex = true -> bounded prec emax my ey = true ->
  ex + ey <= fexp prec emax (Zdigits2 (Zpos (mx * my)) + (ex + ey)).
Proof.
  intros Hbx Hby.
  destruct (bounded_facts mx ex Hbx) as (Hex & Hmx & Hnx).
  destruct (bounded_facts my ey Hby) as (Hey & Hmy & Hny).
  rewrite fexp_eq.
  destruct (Z_le_gt_dec (ex + ey) (-149)) as [Hs|Hs]; [lia|].
  assert (Hbig : 2 ^ 23 <= Zpos (mx * my)).
  { rewrite Pos2Z.inj_mul. rewrite pow2_23 in *.
    destruct (Z_lt_le_dec (-149) ex) as [Hc|Hc].
    - specialize (Hnx Hc). nia.
    - assert (Hc' : -149 < ey) by lia. specialize (Hny Hc'). nia. }
  pose proof (Zdigits2_ge_24 _ Hbig). lia.
Qed.

(** The product of two non-negative floats is non-negative and stays
    under a normal float above the exact product. *)
Lemma fmul_nonneg_le (x y : float) (qx qy : Q) (F : float) :
  f_ge 0 x -> f_le qx x -> f_ge 0 y -> f_le qy y ->
  normal_float F -> (0 < F2Q F)%Q -> (qx * qy < F2Q F)%Q ->
  f_ge 0 (fmul x y) /\ f_le (F2Q F) (fmul x y).
Proof.
  intros Hx0 Hx Hy0 Hy HF HFpos Hq.
  destruct (f_nonneg_cases x qx Hx0 Hx) as [[sx ->] | (mx & ex & -> & Hbx & Hvx)];
  destruct (f_nonneg_cases y qy Hy0 Hy) as [[sy ->] | (my & ey & -> & Hby & Hvy)];
  try (cbn [fmul SFmul f_ge f_le]; split; lra).
  destruct F as [| | |sF mF eF]; cbn [normal_float] in HF; try tauto.
  rewrite F2Q_finite in *.
  assert (HsF : sF = false).
  { destruct sF; [|reflexivity].
    pose proof (valQ_pos (Zpos mF) eF ltac:(lia)).
    pose proof (valQ_neg mF eF). lra. }
  subst sF. cbv iota in *.
  pose proof (valQ_pos (Zpos mx) ex ltac:(lia)) as Hpx.
  pose proof (valQ_pos (Zpos my) ey ltac:(lia)) as Hpy.
  destruct (bounded_facts mx ex Hbx) as (Hex & Hmx & Hnx).
  destruct (bounded_facts my ey Hby) as (Hey & Hmy & Hny).
  change (fmul (S754_finite false mx ex) (S754_finite false my ey))
    with (binary_round_aux prec emax false (Zpos (mx * my)) (ex + ey) loc_Exact).
  pose proof (mul_no_left_shift mx ex my ey Hbx Hby) as Hpre.
  assert (Hval : (valQ (Zpos (mx * my)) (ex + ey) < valQ (Zpos mF) eF)%Q).
  { rewrite Pos2Z.inj_mul, valQ_mul.
    apply Qle_lt_trans with (2 := Hq).
    apply Qle_trans with (valQ (Zpos mx) ex * qy)%Q.
    - apply Qmult_le_l; [exact Hpx | exact Hvy].
    - apply Qmult_le_compat_r; [exact Hvx | lra]. }
  destruct (binary_round_aux_upper false _ _ loc_Exact (Zpos mF) eF
              (Pos2Z.is_pos _) Hpre HF Hval)
    as [-> | (m' & e' & -> & Hb & Hv)].
  - cbn [f_ge f_le]. split; lra.
  - cbn [f_ge f_le]. rewrite F2Q_finite.
    pose proof (valQ_pos (Zpos m') e' ltac:(lia)).
    split; split; try exact Hb; lra.
Qed.

(** *** Division *)

Lemma pow2Q_nonneg_exp (n : Z) : 0 <= n -> (pow2Q n == inject_Z (2 ^ n))%Q.
Proof.
  intros Hn. rewrite <- (Z.add_0_r n) at 2.
  rewrite <- (pow2Q_scale n 0) by lia. change (inject_Z (2 ^ 0)) with 1%Q. ring.
Qed.

Lemma valQ_rescale (m e K : Z) :
  0 <= e + K -> (valQ m e * pow2Q K == inject_Z (m * 2 ^ (e + K)))%Q.
Proof.
  intros H. unfold valQ.
  rewrite inject_Z_mult, <- (pow2Q_nonneg_exp (e + K) H), pow2Q_add. ring.
Qed.

Lemma valQ_le_iff' (m1 e1 m2 e2 K : Z) :
  0 <= e1 + K -> 0 <= e2 + K ->
  (valQ m1 e1 <= valQ m2 e2)%Q <-> m1 * 2 ^ (e1 + K) <= m2 * 2 ^ (e2 + K).
Proof.
  intros H1 H2.
  rewrite Zle_Qle, <- (valQ_rescale m1 e1 K H1), <- (valQ_rescale m2 e2 K H2).
  symmetry. apply Qmult_le_r. apply pow2Q_pos.
Qed.

Lemma SFdiv_core_spec (mx : positive) (ex : Z) (my : positive) (ey : Z) :
  exists q e' l,
    SFdiv_core_binary prec emax (Zpos mx) ex (Zpos my) ey = (q, e', l) /\
    e' = Z.min (fexp prec emax (Zdigits2 (Zpos mx) + ex
                                - (Zdigits2 (Zpos my) + ey))) (ex - ey) /\
    q = Zpos mx * 2 ^ (ex - ey - e') / Zpos my.
Proof.
  unfold SFdiv_core_binary.
  set (e' := Z.min _ (ex - ey)).
  assert (Hs : 0 <= ex - ey - e') by lia.
  set (m' := match ex - ey - e' with
             | Z0 => Zpos mx
             | Zpos _ => Z.shiftl (Zpos mx) (ex - ey - e')
             | Zneg _ => 0
             end).
  assert (Hm' : m' = Zpos mx * 2 ^ (ex - ey - e')).
  { unfold m'. destruct (ex - ey - e') as [|p|p] eqn:E; try lia.
    rewrite Z.shiftl_mul_pow2 by lia. reflexivity. }
  destruct (Z.div_eucl m' (Zpos my)) as [q r] eqn:Hdiv.
  exists q, e', (new_location (Zpos my) r).
  split; [reflexivity|]. split; [reflexivity|].
  rewrite <- Hm'. unfold Z.div. now rewrite Hdiv.
Qed.

(** The quotient of two positive floats stays above a normal float
    [F] with [F * y <= x]. *)
Lemma fdiv_finite_lower (mx : positive) (ex : Z) (my : positive) (ey : Z)
  (mF eF : Z) :
  bounded prec emax mx ex = true -> bounded prec emax my ey = true ->
  normalF mF eF ->
  (valQ mF eF * valQ (Zpos my) ey <= valQ (Zpos mx) ex)%Q ->
  rounded_ge false (valQ mF eF)
    (fdiv (S754_finite false mx ex) (S754_finite false my ey)).
Proof.
  intros Hbx Hby HF Hval.
  destruct (SFdiv_core_spec mx ex my ey) as (q & e' & l & Hcore & He' & Hq).
  unfold fdiv, SFdiv. rewrite Hcore. cbn [xorb].
  destruct (bounded_facts mx ex Hbx) as (Hex & _ & _).
  destruct (bounded_facts my ey Hby) as (Hey & _ & _).
  destruct HF as [[HmFlo HmFhi] [HeFlo HeFhi]].
  pose proof (Zdigits2_bounds (Zpos mx) ltac:(lia)) as [Hxlo Hxhi].
  pose proof (Zdigits2_bounds (Zpos my) ltac:(lia)) as [Hylo Hyhi].
  pose proof (Zdigits2_pos (Zpos mx) ltac:(lia)) as Hdx.
  pose proof (Zdigits2_pos (Zpos my) ltac:(lia)) as Hdy.
  set (d1 := Zdigits2 (Zpos mx)) in *. set (d2 := Zdigits2 (Zpos my)) in *.
  rewrite fexp_eq in He'.
  set (s := ex - ey - e') in *.
  assert (Hs : 0 <= s) by (unfold s; lia).
  assert (Hps : 0 < 2 ^ s) by (apply Z.pow_pos_nonneg; lia).
  rewrite pow2_23, pow2_24 in *.
  (* a quotient above the subnormal range has a full mantissa *)
  assert (HA : -149 < e' -> 8388608 <= q).
  { intros Hn. rewrite Hq. apply Z.div_le_lower_bound; [lia|].
    assert (Hs' : 24 - d1 + d2 <= s) by (unfold s; lia).
    assert (H1 : 2 ^ (23 + d2) <= 2 ^ (d1 - 1 + s))
      by (apply Z.pow_le_mono_r; lia).
    rewrite (Z.pow_add_r 2 23 d2), (Z.pow_add_r 2 (d1 - 1) s) in H1 by lia.
    change (2 ^ 23) with 8388608 in H1.
    assert (2 ^ (d1 - 1) * 2 ^ s <= Zpos mx * 2 ^ s)
      by (apply Z.mul_le_mono_nonneg_r; lia).
    assert (Zpos my * 8388608 <= 2 ^ d2 * 8388608)
      by (apply Z.mul_le_mono_nonneg_r; lia).
    lia. }
  (* the quotient is not below the bound, at the exponent of the quotient *)
  assert (HB : e' <= eF -> mF * 2 ^ (eF - e') <= q).
  { intros Hle. rewrite Hq. apply Z.div_le_lower_bound; [lia|].
    rewrite <- valQ_mul in Hval.
    apply (valQ_le_iff' _ _ _ _ (- (e' + ey))) in Hval; [|lia|unfold s in Hs; lia].
    replace (eF + ey + - (e' + ey)) with (eF - e') in Hval by lia.
    replace (ex + - (e' + ey)) with s in Hval by (unfold s; lia).
    lia. }
  assert (Hqpos : 8388608 <= q).
  { destruct (Z_le_gt_dec e' eF) as [Hle|Hgt].
    - specialize (HB Hle).
      assert (0 < 2 ^ (eF - e')) by (apply Z.pow_pos_nonneg; lia).
      hide_pow. nia.
    - apply HA. lia. }
  apply binary_round_aux_lower.
  - lia.
  - rewrite fexp_eq.
    pose proof (Zdigits2_ge_24 q ltac:(rewrite pow2_23; exact Hqpos)). lia.
  - repeat split; rewrite ?pow2_23, ?pow2_24; lia.
  - set (K := Z.max 149 (- e')).
    apply (valQ_le_iff mF eF q e' K); [lia|lia|lia|].
    destruct (Z_le_gt_dec e' eF) as [Hle|Hgt].
    + specialize (HB Hle).
      replace (eF + K) with ((eF - e') + (e' + K)) by lia.
      rewrite (Z.pow_add_r 2 (eF - e') (e' + K)) by lia.
      rewrite Z.mul_assoc. apply Z.mul_le_mono_nonneg_r;
        [apply Z.pow_nonneg; lia | exact HB].
    + replace (e' + K) with ((e' - eF - 1) + 1 + (eF + K)) by lia.
      rewrite (Z.pow_add_r 2 (e' - eF - 1 + 1)) by lia.
      rewrite (Z.pow_add_r 2 (e' - eF - 1) 1) by lia.
      change (2 ^ 1) with 2.
      assert (0 < 2 ^ (eF + K)) by (apply Z.pow_pos_nonneg; lia).
      assert (0 < 2 ^ (e' - eF - 1)) by (apply Z.pow_pos_nonneg; lia).
      replace (q * (2 ^ (e' - eF - 1) * 2 * 2 ^ (eF + K)))
        with (q * 2 * (2 ^ (e' - eF - 1) * 2 ^ (eF + K))) by ring.
      apply Z.mul_le_mono_nonneg; try lia.
      hide_pow. nia.
Qed.

Lemma normalize_ge_pos (S e : Z) (F : float) :
  normal_float F -> (0 < F2Q F)%Q ->
  (F2Q F <= valQ S e)%Q ->
  f_ge (F2Q F) (binary_normalize prec emax S e false).
Proof.
  destruct F as [| | |sF mF eF]; cbn [normal_float]; try tauto.
  intros HF HFpos Hval. rewrite F2Q_finite in *.
  assert (HsF : sF = false).
  { destruct sF; [|reflexivity].
    pose proof (valQ_pos (Zpos mF) eF ltac:(lia)).
    pose proof (valQ_neg mF eF). lra. }
  subst sF. cbv iota in *.
  destruct S as [|p|p]; cbn [binary_normalize].
  - rewrite valQ_0 in Hval. lra.
  - destruct (binary_round_lower false p e (Zpos mF) eF HF Hval)
      as [-> | (m' & e' & -> & Hb & Hv)]; [exact I|].
    cbn [f_ge]. split; [exact Hb|]. rewrite F2Q_finite. exact Hv.
  - pose proof (valQ_pos (Zpos p) e ltac:(lia)).
    pose proof (valQ_neg p e). lra.
Qed.

Lemma fadd_ge_pos (x y : float) (qx qy : Q) (F : float) :
  f_ge qx x -> f_ge qy y -> normal_float F -> (0 < F2Q F)%Q ->
  (F2Q F <= qx + qy)%Q ->
  f_ge (F2Q F) (fadd x y).
Proof.
  intros Hx Hy HF HFpos Hq.
  destruct x as [sx|[|]| |sx mx ex]; cbn [f_ge] in Hx; try tauto;
  destruct y as [sy|[|]| |sy my ey]; cbn [f_ge] in Hy; try tauto;
  try exact I.
  - lra.
  - change (fadd (S754_zero sx) (S754_finite sy my ey))
      with (S754_finite sy my ey).
    destruct Hy as [Hb Hy]. split; [exact Hb | lra].
  - change (fadd (S754_finite sx mx ex) (S754_zero sy))
      with (S754_finite sx mx ex).
    destruct Hx as [Hb Hx]. split; [exact Hb | lra].
  - destruct Hx as [_ Hx], Hy as [_ Hy].
    destruct (SFadd_finite sx mx ex sy my ey) as (S & -> & HS).
    apply normalize_ge_pos; [exact HF | exact HFpos |]. rewrite HS. lra.
Qed.

Lemma f_pos_cases (x : float) (q : Q) :
  (0 < q)%Q -> f_ge q x ->
  x = S754_infinity false \/
  (exists m e, x = S754_finite false m e /\ bounded prec emax m e = true /\
               (q <= valQ (Zpos m) e)%Q).
Proof.
  intros Hq. destruct x as [s|[|]| |s m e]; cbn [f_ge]; try tauto.
  - intros H. lra.
  - intros [Hb H]. right. rewrite F2Q_finite in H. destruct s.
    + pose proof (valQ_pos (Zpos m) e ltac:(lia)).
      pose proof (valQ_neg m e). lra.
    + exists m, e. auto.
Qed.

Lemma fdiv_pos_ge (x y : float) (qx qy0 qy : Q) (F : float) :
  (0 < qx)%Q -> f_ge qx x ->
  (0 < qy0)%Q -> f_ge qy0 y -> f_le qy y ->
  normal_float F -> (0 < F2Q F)%Q ->
  (F2Q F * qy <= qx)%Q ->
  f_ge (F2Q F) (fdiv x y).
Proof.
  intros Hqx Hx Hqy0 Hy0 Hy HF HFpos Hq.
  destruct (f_pos_cases y qy0 Hqy0 Hy0) as [-> | (my & ey & -> & Hby & Hvy0)];
    [cbn [f_le] in Hy; tauto|].
  cbn [f_le] in Hy. destruct Hy as [_ Hvy]. rewrite F2Q_finite in Hvy.
  destruct (f_pos_cases x qx Hqx Hx) as [-> | (mx & ex & -> & Hbx & Hvx)];
    [exact I|].
  destruct F as [| | |sF mF eF]; cbn [normal_float] in HF; try tauto.
  rewrite F2Q_finite in *.
  assert (HsF : sF = false).
  { destruct sF; [|reflexivity].
    pose proof (valQ_pos (Zpos mF) eF ltac:(lia)).
    pose proof (valQ_neg mF eF). lra. }
  subst sF. cbv iota in *.
  destruct (fdiv_finite_lower mx ex my ey (Zpos mF) eF Hbx Hby HF)
    as [-> | (m' & e' & -> & Hb & Hv)].
  - apply Qle_trans with (2 := Hvx). apply Qle_trans with (2 := Hq).
    apply Qmult_le_l; [exact HFpos | exact Hvy].
  - exact I.
  - cbn [f_ge]. split; [exact Hb|]. rewrite F2Q_finite. exact Hv.
Qed.

(** *** The zoom and the half-extent of the window *)

Lemma abs_unit (s : float) :
  unit_value s -> f_ge 0 (abs s) /\ f_le 1 (abs s).
Proof.
  intros [Hlo Hhi]. unfold abs, abs_macro, fgt, SFltb.
  change (of_int 0) with (S754_zero false).
  destruct s as [sg|[|]| |sg m e]; cbn [f_ge f_le] in *; try tauto.
  - cbn [SFcompare fopp SFopp f_ge f_le]. split; lra.
  - destruct Hlo as [Hb Hlo], Hhi as [_ Hhi]. rewrite F2Q_finite in *.
    pose proof (valQ_pos (Zpos m) e ltac:(lia)).
    pose proof (valQ_neg m e).
    destruct sg; cbn [SFcompare fopp SFopp negb f_ge f_le];
      rewrite ?F2Q_finite; cbv iota in *; split; split;
      try exact Hb; lra.
Qed.

(** [abs] of a number is not negative. *)
Lemma abs_nonneg (s : float) : number s -> f_ge 0 (abs s).
Proof.
  intros [Hv Hn]. unfold abs, abs_macro, fgt, SFltb.
  change (of_int 0) with (S754_zero false).
  destruct s as [sg|sg| |sg m e]; cbn [is_nan] in Hn; try discriminate Hn.
  - cbn [SFcompare fopp SFopp f_ge]. lra.
  - destruct sg; exact I.
  - cbn [valid_binary] in Hv.
    pose proof (valQ_pos (Zpos m) e ltac:(lia)).
    destruct sg; cbn [SFcompare fopp SFopp negb f_ge];
      rewrite F2Q_finite; cbv iota; split; try exact Hv; lra.
Qed.

(** Neither is its product with a positive float. *)
Lemma fmul_pos_nonneg (mx : positive) (ex : Z) (y : float) :
  bounded prec emax mx ex = true -> f_ge 0 y ->
  f_ge 0 (fmul (S754_finite false mx ex) y).
Proof.
  intros Hbx Hy.
  destruct y as [sy|[|]| |sy my ey]; cbn [f_ge] in Hy; try tauto;
    try exact I; try (change (0 <= 0)%Q; lra).
  destruct Hy as [Hby Hy]. rewrite F2Q_finite in Hy.
  {
    assert (Hsy : sy = false).
    { destruct sy; [|reflexivity].
      pose proof (valQ_pos (Zpos my) ey ltac:(lia)).
      pose proof (valQ_neg my ey). lra. }
    subst sy.
    change (fmul (S754_finite false mx ex) (S754_finite false my ey))
      with (binary_round_aux prec emax false (Zpos (mx * my)) (ex + ey)
              loc_Exact).
    destruct (binary_round_aux_shape false (Zpos (mx * my)) (ex + ey) loc_Exact
                (Pos2Z.is_pos _) (mul_no_left_shift mx ex my ey Hbx Hby))
      as [-> | [-> | (m' & e' & -> & Hb)]]; cbn [f_ge]; [lra | exact I |].
    split; [exact Hb|]. rewrite F2Q_finite.
    pose proof (valQ_pos (Zpos m') e' ltac:(lia)). lra. }
Qed.

(** The product of two positive floats stays above a normal float under
    the exact product. *)
Lemma fmul_pos_ge (x y : float) (qx qy : Q) (F : float) :
  (0 < qx)%Q -> f_ge qx x -> (0 < qy)%Q -> f_ge qy y ->
  normal_float F -> (0 < F2Q F)%Q -> (F2Q F <= qx * qy)%Q ->
  f_ge (F2Q F) (fmul x y).
Proof.
  intros Hqx Hx Hqy Hy HF HFpos Hq.
  destruct (f_pos_cases x qx Hqx Hx) as [-> | (mx & ex & -> & Hbx & Hvx)];
  destruct (f_pos_cases y qy Hqy Hy) as [-> | (my & ey & -> & Hby & Hvy)];
    try exact I.
  destruct F as [| | |sF mF eF]; cbn [normal_float] in HF; try tauto.
  rewrite F2Q_finite in *.
  assert (HsF : sF = false).
  { destruct sF; [|reflexivity].
    pose proof (valQ_pos (Zpos mF) eF ltac:(lia)).
    pose proof (valQ_neg mF eF). lra. }
  subst sF. cbv iota in *.
  change (fmul (S754_finite false mx ex) (S754_finite false my ey))
    with (binary_round_aux prec emax false (Zpos (mx * my)) (ex + ey) loc_Exact).
  pose proof (mul_no_left_shift mx ex my ey Hbx Hby) as Hpre.
  assert (Hval : (valQ (Zpos mF) eF <= valQ (Zpos (mx * my)) (ex + ey))%Q).
  { rewrite Pos2Z.inj_mul, valQ_mul.
    apply Qle_trans with (1 := Hq).
    apply Qle_trans with (qx * valQ (Zpos my) ey)%Q.
    - apply Qmult_le_l; [exact Hqx | exact Hvy].
    - apply Qmult_le_compat_r; [exact Hvx | lra]. }
  destruct (binary_round_aux_lower false _ _ loc_Exact (Zpos mF) eF
              (Pos2Z.is_pos _) Hpre HF Hval)
    as [-> | (m' & e' & -> & Hb & Hv)].
  - exact I.
  - cbn [f_ge]. rewrite F2Q_finite. split; [exact Hb | exact Hv].
Qed.

(** A float that a comparison finds above 0, or above a positive float,
    lies above a positive rational. *)
Lemma positive_bound (z : float) (q : Q) :
  f_le q z -> fgt z (of_int 0) = true ->
  exists q0 : Q, (0 < q0)%Q /\ f_ge q0 z.
Proof.
  intros Hle Hgt. unfold fgt, SFltb in Hgt.
  change (of_int 0) with (S754_zero false) in Hgt.
  destruct z as [s|[|]| |s m e]; cbn [f_le] in Hle; try tauto;
    cbn [SFcompare] in Hgt; try discriminate Hgt.
  destruct s; [discriminate Hgt|].
  destruct Hle as [Hb _]. exists (valQ (Zpos m) e).
  split; [apply valQ_pos; lia|].
  cbn [f_ge]. rewrite F2Q_finite. split; [exact Hb | lra].
Qed.

Lemma lower_bound_of_fge (z c : float) (q : Q) :
  f_le q z -> normal_float c -> (0 < F2Q c)%Q -> fge z c = true ->
  f_ge (F2Q c) z.
Proof.
  intros Hle Hc Hpos Hge. unfold fge, SFleb in Hge.
  destruct c as [| | |sc mc ec]; cbn [normal_float] in Hc; try tauto.
  pose proof (normal_float_bounded sc mc ec Hc) as Hbc.
  assert (Hsc : sc = false).
  { destruct sc; [|reflexivity]. rewrite F2Q_finite in Hpos.
    pose proof (valQ_pos (Zpos mc) ec ltac:(lia)).
    pose proof (valQ_neg mc ec). lra. }
  subst sc.
  destruct z as [s|[|]| |s m e]; cbn [f_le] in Hle; try tauto.
  - cbn [SFcompare] in Hge. discriminate Hge.
  - cbn [SFcompare] in Hge. discriminate Hge.
  - destruct Hle as [Hb _].
    rewrite SFcompare_finite in Hge by assumption.
    cbn [f_ge]. split; [exact Hb|].
    destruct (Qcompare_spec (F2Q (S754_finite false mc ec))
                (F2Q (S754_finite s m e))) as [H|H|H];
      [rewrite H; lra | lra | discriminate Hge].
Qed.

(** A float between two rationals is finite. *)
Lemma bounds_finite (q q' : Q) (x : float) :
  f_ge q x -> f_le q' x -> is_finite x = true.
Proof.
  destruct x as [s|[|]| |s m e]; cbn [f_ge f_le is_finite]; tauto.
Qed.

(** The zoom is at least 200 when the macro gives the magnitude of a
    number: when both evaluations of its argument give the same value. *)
Lemma zoom_lower (s : float) :
  number s ->
  f_ge (F2Q (of_int 200)) (fadd (fmul (of_int 5000) (abs s)) (of_int 200)).
Proof.
  intros Hs.
  apply (fadd_ge_pos _ _ 0 (F2Q (of_int 200)));
    [| closed | closed | closed | closed].
  change (of_int 5000) with (S754_finite false 10240000 (-11)).
  apply fmul_pos_nonneg; [reflexivity | apply abs_nonneg, Hs].
Qed.

(** [5000*m + 200] for a factor [m] in [0, 1]: between 200 and 5202. *)
Lemma zoom_value_nonneg (m : float) :
  f_ge 0 m -> f_le 1 m ->
  f_ge (F2Q (of_int 200)) (fadd (fmul (of_int 5000) m) (of_int 200)) /\
  f_le (F2Q (of_int 5202)) (fadd (fmul (of_int 5000) m) (of_int 200)).
Proof.
  intros Ha0 Ha1.
  assert (Hp : f_ge 0 (fmul (of_int 5000) m) /\
               f_le (F2Q (of_int 5001)) (fmul (of_int 5000) m)).
  { apply (fmul_nonneg_le _ _ (F2Q (of_int 5000)) 1);
      [closed | closed | exact Ha0 | exact Ha1 | closed | closed | closed]. }
  destruct Hp as [Hp0 Hp1].
  split.
  - apply (fadd_ge_pos _ _ 0 (F2Q (of_int 200)));
      [exact Hp0 | closed | closed | closed | closed].
  - apply (fadd_le _ _ (F2Q (of_int 5001)) (F2Q (of_int 200)));
      [exact Hp1 | closed | closed | closed].
Qed.

(** For the opposite of a factor in [0, 1]: between -4802 and 201. *)
Lemma zoom_value_neg (m : float) :
  f_ge 0 m -> f_le 1 m ->
  f_ge (F2Q (of_int (-4802)))
       (fadd (fmul (of_int 5000) (fopp m)) (of_int 200)) /\
  f_le (F2Q (of_int 201))
       (fadd (fmul (of_int 5000) (fopp m)) (of_int 200)).
Proof.
  intros Ha0 Ha1. rewrite fmul_fopp_r.
  assert (Hp : f_ge 0 (fmul (of_int 5000) m) /\
               f_le (F2Q (of_int 5001)) (fmul (of_int 5000) m)).
  { apply (fmul_nonneg_le _ _ (F2Q (of_int 5000)) 1);
      [closed | closed | exact Ha0 | exact Ha1 | closed | closed | closed]. }
  destruct Hp as [Hp0 Hp1].
  split.
  - apply (fadd_ge _ _ (- F2Q (of_int 5001)) (F2Q (of_int 200)));
      [apply f_ge_fopp, Hp1 | closed | closed | closed].
  - apply (fadd_le _ _ (- 0) (F2Q (of_int 200)));
      [apply f_le_fopp, Hp0 | closed | closed | closed].
Qed.

(** For a sine in [-1, 1] the zoom of the same value read twice lies
    between 200 and 5202. *)
Lemma zoom_in_range (s : float) :
  unit_value s ->
  f_ge (F2Q (of_int 200)) (fadd (fmul (of_int 5000) (abs s)) (of_int 200)) /\
  f_le (F2Q (of_int 5202)) (fadd (fmul (of_int 5000) (abs s)) (of_int 200)).
Proof.
  intros Hs. destruct (abs_unit s Hs) as [Ha0 Ha1].
  apply zoom_value_nonneg; assumption.
Qed.

(** The opposite of a value in [-1, 1] is one. *)
Lemma unit_value_fopp (s : float) : unit_value s -> unit_value (fopp s).
Proof.
  intros [Hlo Hhi]. split.
  - apply (f_ge_weaken (- (1))); [lra | apply f_ge_fopp, Hhi].
  - apply (f_le_weaken (- (-1))); [lra | apply f_le_fopp, Hlo].
Qed.

(** A value in [-1, 1] lies in [0, 1] or is the opposite of one that
    does. *)
Lemma unit_value_cases (m : float) :
  unit_value m ->
  (f_ge 0 m /\ f_le 1 m) \/
  (exists m', m = fopp m' /\ f_ge 0 m' /\ f_le 1 m').
Proof.
  intros [Hlo Hhi].
  destruct m as [s|[|]| |s m e]; cbn [f_ge f_le] in Hlo, Hhi; try tauto.
  - left. cbn [f_ge f_le]. split; lra.
  - destruct Hlo as [Hb Hlo], Hhi as [_ Hhi]. rewrite F2Q_finite in *.
    pose proof (valQ_pos (Zpos m) e ltac:(lia)) as Hp.
    pose proof (valQ_neg m e) as Hn.
    destruct s; cbv iota in *.
    + right. exists (S754_finite false m e).
      split; [reflexivity|]. cbn [f_ge f_le]. rewrite F2Q_finite.
      split; split; try exact Hb; lra.
    + left. cbn [f_ge f_le]. rewrite F2Q_finite.
      split; split; try exact Hb; lra.
Qed.

(** Whatever its test sees, the macro gives the value of the branch or
    its opposite. *)
Lemma abs_macro_unit (s1 s2 : float) :
  unit_value s2 -> unit_value (abs_macro s1 s2).
Proof.
  intros Hs. unfold abs_macro.
  destruct (fgt s1 (of_int 0)); [exact Hs | apply unit_value_fopp, Hs].
Qed.

(** So the zoom lies between -4802 and 5202 for a sine in [-1, 1],
    whatever the two readings of the clock. *)
Lemma zoom_value_range (m : float) :
  unit_value m ->
  f_ge (F2Q (of_int (-4802))) (fadd (fmul (of_int 5000) m) (of_int 200)) /\
  f_le (F2Q (of_int 5202)) (fadd (fmul (of_int 5000) m) (of_int 200)).
Proof.
  intros Hm.
  destruct (unit_value_cases m Hm) as [[H0 H1] | (m' & -> & H0 & H1)].
  - destruct (zoom_value_nonneg m H0 H1) as [Hlo Hhi].
    split; [|exact Hhi].
    apply (f_ge_weaken (F2Q (of_int 200))); [closed | exact Hlo].
  - destruct (zoom_value_neg m' H0 H1) as [Hlo Hhi].
    split; [exact Hlo|].
    apply (f_le_weaken (F2Q (of_int 201))); [closed | exact Hhi].
Qed.

(** For a strictly positive zoom of at most 5202 the half-extent
    [1./zoOm/zoomAdj] is at least 9/128. *)
Lemma half_extent_lower (z : float) (q0 : Q) :
  (0 < q0)%Q -> f_ge q0 z -> f_le (F2Q (of_int 5202)) z ->
  f_ge (F2Q (lit 9 128)) (half_extent z).
Proof.
  intros Hq0 Hlo Hhi. unfold half_extent.
  assert (Hh : f_ge (F2Q (lit 1 8192)) (fdiv (of_int 1) z)).
  { apply (fdiv_pos_ge _ _ (F2Q (of_int 1)) q0 (F2Q (of_int 5202)));
      [closed | closed | exact Hq0 | exact Hlo | exact Hhi
      | closed | closed | closed]. }
  apply (fdiv_pos_ge _ _ (F2Q (lit 1 8192)) (F2Q zoomAdj) (F2Q zoomAdj));
    [closed | exact Hh | closed | closed | closed | closed | closed | closed].
Qed.

(** Then [xmin <= -127/128], [xmax >= -29/32], [ymin <= 9/32] and
    [ymax >= 3/8] around [(-0.94299, 0.3162)]. *)
Lemma zoom_window_bounds (z : float) (q0 : Q) :
  (0 < q0)%Q -> f_ge q0 z -> f_le (F2Q (of_int 5202)) z ->
  f_le (F2Q (lit (-127) 128))
       (xmin (zoom_window pixelblaze_re pixelblaze_im z)) /\
  f_ge (F2Q (lit (-29) 32))
       (xmax (zoom_window pixelblaze_re pixelblaze_im z)) /\
  f_le (F2Q (lit 9 32)) (ymin (zoom_window pixelblaze_re pixelblaze_im z)) /\
  f_ge (F2Q (lit 3 8)) (ymax (zoom_window pixelblaze_re pixelblaze_im z)).
Proof.
  intros Hq0 Hlo Hhi.
  pose proof (half_extent_lower z q0 Hq0 Hlo Hhi) as Hw.
  unfold zoom_window, with_steps. cbn [xmin xmax ymin ymax].
  set (w := half_extent z) in *.
  split; [|split; [|split]].
  - apply (fadd_le _ _ (F2Q (of_int (-1))) 0); [| closed | closed | closed].
    apply (fsub_le _ _ (F2Q pixelblaze_re) (F2Q (lit 9 128)));
      [closed | exact Hw | closed | closed].
  - apply (fadd_ge _ _ (F2Q (lit (-7) 8)) 0); [| closed | closed | closed].
    apply (fadd_ge _ _ (F2Q pixelblaze_re) (F2Q (lit 9 128)));
      [closed | exact Hw | closed | closed].
  - apply (fadd_le _ _ (F2Q (lit 1 4)) (F2Q yadj));
      [| closed | closed | closed].
    apply (fsub_le _ _ (F2Q pixelblaze_im) (F2Q (lit 9 128)));
      [closed | exact Hw | closed | closed].
  - apply (fadd_ge _ _ (F2Q (lit 3 8)) (F2Q yadj));
      [| closed | closed | closed].
    apply (fadd_ge _ _ (F2Q pixelblaze_im) (F2Q (lit 9 128)));
      [closed | exact Hw | closed | closed].
Qed.

(** So the window has a positive extent on both axes. *)
Lemma zoom_window_ok_range (z : float) (q0 : Q) :
  (0 < q0)%Q -> f_ge q0 z -> f_le (F2Q (of_int 5202)) z ->
  window_ok (zoom_window pixelblaze_re pixelblaze_im z).
Proof.
  intros Hq0 Hlo Hhi.
  destruct (zoom_window_bounds z q0 Hq0 Hlo Hhi) as (Hx0 & Hx1 & Hy0 & Hy1).
  unfold window_ok.
  split; [|split; [|split; reflexivity]].
  - change (fgt ?a ?b) with (flt b a).
    apply (flt_of_bounds _ _ (F2Q (lit (-127) 128)) (F2Q (lit (-29) 32)));
      [exact Hx0 | exact Hx1 | closed].
  - change (fgt ?a ?b) with (flt b a).
    apply (flt_of_bounds _ _ (F2Q (lit 9 32)) (F2Q (lit 3 8)));
      [exact Hy0 | exact Hy1 | closed].
Qed.

(** ** Window animator: the Mandelbrot sketches *)

Lemma zoom_window_steps (reAl imAg zoOm : float) :
  dx (zoom_window reAl imAg zoOm)
    = fdiv (fsub (xmax (zoom_window reAl imAg zoOm))
                 (xmin (zoom_window reAl imAg zoOm))) (of_int matrixWidth) /\
  dy (zoom_window reAl imAg zoOm)
    = fdiv (fsub (ymax (zoom_window reAl imAg zoOm))
                 (ymin (zoom_window reAl imAg zoOm))) (of_int matrixHeight).
Proof. split; reflexivity. Qed.

(** C8: the zoom goes below 200 when the clock ticks inside [abs].  The
    comment of [resize] reads "Change zoom to 200 up to 5200", and the
    macro [abs] evaluates [sin(millis()/2000.)] twice.  When the first
    evaluation, for the test, is above 0 and the second, in the branch,
    is a value of [-1/10000] or less, the branch value is used as it is:
    the zoom that [resize] stores is [5000*sin(t2/2000) + 200], below
    200, and the test [zoOm >= 200] fails. *)
Theorem zoom_below_200_when_clock_ticks (sinf : float -> float) (t1 t2 : Z) :
  fgt (sinf (fdiv (of_int t1) (of_int 2000))) (of_int 0) = true ->
  f_le (-1 # 10000) (sinf (fdiv (of_int t2) (of_int 2000))) ->
  Mandelbrot.zoOm (Mandelbrot.resize sinf t1 t2)
    = fadd (fmul (of_int 5000) (sinf (fdiv (of_int t2) (of_int 2000))))
           (of_int 200) /\
  flt (Mandelbrot.zoOm (Mandelbrot.resize sinf t1 t2)) (of_int 200) = true /\
  fge (Mandelbrot.zoOm (Mandelbrot.resize sinf t1 t2)) (of_int 200) = false.
Proof.
  intros Htest Hhi.
  cbn [Mandelbrot.resize Mandelbrot.zoOm]. unfold Mandelbrot.zoom, abs_macro.
  rewrite Htest.
  set (s2 := sinf (fdiv (of_int t2) (of_int 2000))) in *.
  assert (Hz : f_le (F2Q (lit 1999 10))
                 (fadd (fmul (of_int 5000) s2) (of_int 200))).
  { rewrite <- (fopp_involutive s2), fmul_fopp_r.
    apply (fadd_le _ _ (- F2Q (lit 1 2)) (F2Q (of_int 200)));
      [| closed | closed | closed].
    apply f_le_fopp.
    apply (fmul_pos_ge _ _ (F2Q (of_int 5000)) (1 # 10000));
      [closed | closed | reflexivity | | closed | closed | closed].
    apply (f_ge_weaken (- (-1 # 10000))); [closed|].
    apply f_ge_fopp, Hhi. }
  set (z := fadd (fmul (of_int 5000) s2) (of_int 200)) in *.
  assert (Hlt : flt z (of_int 200) = true).
  { apply (flt_of_bounds _ _ (F2Q (lit 1999 10)) (F2Q (of_int 200)));
      [exact Hz | closed | closed]. }
  split; [reflexivity|]. split; [exact Hlt|].
  unfold flt, SFltb in Hlt. unfold fge, SFleb.
  destruct z as [s|[|]| |s m e]; cbn [f_le] in Hz; try tauto;
    try reflexivity; try discriminate Hlt.
  change (of_int 200) with (S754_finite false 13107200 (-16)) in *.
  destruct Hz as [Hb _].
  rewrite SFcompare_finite in Hlt by (exact Hb || reflexivity).
  rewrite SFcompare_finite by (exact Hb || reflexivity).
  destruct (Qcompare_spec (F2Q (S754_finite s m e))
              (F2Q (S754_finite false 13107200 (-16)))) as [H|H|H];
    try discriminate Hlt.
  destruct (Qcompare_spec (F2Q (S754_finite false 13107200 (-16)))
              (F2Q (S754_finite s m e))) as [H'|H'|H'];
    [rewrite H' in H; exfalso; lra | exfalso; lra | reflexivity].
Qed.

(** The input on which C8 fails: the clock reads 6283 ms for the test of
    the macro and 6284 ms in its branch, on either side of
    [2000*pi]; the zoom stored is 197.96. *)
Lemma zoom_below_200_when_clock_ticks_witness :
  fgt (sin_near_pi (fdiv (of_int 6283) (of_int 2000))) (of_int 0) = true /\
  unit_value (sin_near_pi (fdiv (of_int 6283) (of_int 2000))) /\
  unit_value (sin_near_pi (fdiv (of_int 6284) (of_int 2000))) /\
  flt (Mandelbrot.zoOm (Mandelbrot.resize sin_near_pi 6283 6284)) (of_int 200)
    = true /\
  fge (Mandelbrot.zoOm (Mandelbrot.resize sin_near_pi 6283 6284)) (of_int 200)
    = false /\
  fgt (Mandelbrot.zoOm (Mandelbrot.resize sin_near_pi 6283 6284))
      (lit 19796 100) = true /\
  flt (Mandelbrot.zoOm (Mandelbrot.resize sin_near_pi 6283 6284))
      (lit 19797 100) = true.
Proof.
  split; [reflexivity|]. split; [closed|]. split; [closed|].
  destruct (zoom_below_200_when_clock_ticks sin_near_pi 6283 6284)
    as (_ & Hlt & Hge); [reflexivity | closed |].
  split; [exact Hlt|]. split; [exact Hge|]. split; reflexivity.
Defined.

(** C7, as stated, fails: the zoom [10^12] is strictly positive, and the
    window of Mandelbrot-minimal around [(-0.5, 0.1)] collapses to a
    point, [xmax = xmin] and [ymax = ymin]. *)
Lemma window_collapses_at_huge_zoom :
  fgt huge_zoom (of_int 0) = true /\
  xmax (zoom_window MandelbrotMinimal.reAl0 MandelbrotMinimal.imAg0 huge_zoom)
    = xmin (zoom_window MandelbrotMinimal.reAl0 MandelbrotMinimal.imAg0
              huge_zoom) /\
  ymax (zoom_window MandelbrotMinimal.reAl0 MandelbrotMinimal.imAg0 huge_zoom)
    = ymin (zoom_window MandelbrotMinimal.reAl0 MandelbrotMinimal.imAg0
              huge_zoom) /\
  ~ window_ok
      (win (MandelbrotMinimal.resize MandelbrotMinimal.reAl0
              MandelbrotMinimal.imAg0 huge_zoom)).
Proof.
  split; [vm_compute; reflexivity|].
  split; [vm_compute; reflexivity|].
  split; [vm_compute; reflexivity|].
  intros (Hx & _). vm_compute in Hx. discriminate Hx.
Qed.

(** C7, as the code has it: after [resize] the window has
    [xmax > xmin], [ymax > ymin], [dx = (xmax-xmin)/width] and
    [dy = (ymax-ymin)/height]
    - in Julia and Julia-palette, at every time;
    - in Mandelbrot-minimal, for its zoom 550 around [(-0.5, 0.1)];
    - around [(-0.94299, 0.3162)], for every strictly positive zoom of
      at most 5202;
    - hence in Mandelbrot, when [sin] returns a value in [-1, 1],
      whenever the zoom that [resize] stored is strictly positive,
      whatever the two readings of the clock in [abs]; and always when
      the two readings are the same.
    The two equations on [dx] and [dy] hold for every zoom. *)
Theorem window_invariant :
  (forall sinf t1 t2,
     window_ok (win (Julia.resize sinf t1 t2)) /\
     window_ok (win (JuliaPalette.resize sinf t1 t2))) /\
  window_ok
    (win (MandelbrotMinimal.resize MandelbrotMinimal.reAl0
            MandelbrotMinimal.imAg0 MandelbrotMinimal.zoOm0)) /\
  (forall (z : float) (q0 : Q), (0 < q0)%Q -> f_ge q0 z -> f_le 5202 z ->
     window_ok (zoom_window pixelblaze_re pixelblaze_im z)) /\
  (forall sinf t1 t2,
     unit_value (sinf (fdiv (of_int t2) (of_int 2000))) ->
     fgt (Mandelbrot.zoOm (Mandelbrot.resize sinf t1 t2)) (of_int 0) = true ->
     window_ok (Mandelbrot.win (Mandelbrot.resize sinf t1 t2))) /\
  (forall sinf t,
     unit_value (sinf (fdiv (of_int t) (of_int 2000))) ->
     fgt (Mandelbrot.zoOm (Mandelbrot.resize sinf t t)) (of_int 0) = true /\
     window_ok (Mandelbrot.win (Mandelbrot.resize sinf t t))) /\
  (forall reAl imAg zoOm,
     dx (zoom_window reAl imAg zoOm)
       = fdiv (fsub (xmax (zoom_window reAl imAg zoOm))
                    (xmin (zoom_window reAl imAg zoOm)))
              (of_int matrixWidth) /\
     dy (zoom_window reAl imAg zoOm)
       = fdiv (fsub (ymax (zoom_window reAl imAg zoOm))
                    (ymin (zoom_window reAl imAg zoOm)))
              (of_int matrixHeight)).
Proof.
  split; [|split; [|split; [|split; [|split]]]].
  - intros sinf t1 t2. split; unfold window_ok; repeat split.
  - unfold window_ok; repeat split.
  - intros z q0 Hq0 Hlo Hhi. apply (zoom_window_ok_range z q0 Hq0 Hlo).
    apply (f_le_weaken 5202); [closed | exact Hhi].
  - intros sinf t1 t2 Hs Hpos.
    cbn [Mandelbrot.resize Mandelbrot.win Mandelbrot.zoOm] in *.
    unfold Mandelbrot.zoom in *.
    destruct (zoom_value_range _ (abs_macro_unit
                (sinf (fdiv (of_int t1) (of_int 2000))) _ Hs)) as [_ Hhi].
    destruct (positive_bound _ _ Hhi Hpos) as (q0 & Hq0 & Hlo).
    apply (zoom_window_ok_range _ q0 Hq0 Hlo Hhi).
  - intros sinf t Hs. destruct (zoom_in_range _ Hs) as [Hlo Hhi].
    cbn [Mandelbrot.resize Mandelbrot.win Mandelbrot.zoOm].
    unfold Mandelbrot.zoom.
    change (abs_macro ?x ?x) with (abs x).
    split.
    + change (fgt ?a ?b) with (flt b a).
      apply (flt_of_bounds _ _ 0 (F2Q (of_int 200)));
        [closed | exact Hlo | closed].
    + apply (zoom_window_ok_range _ (F2Q (of_int 200)));
        [closed | exact Hlo | exact Hhi].
  - exact zoom_window_steps.
Qed.

Lemma window_invariant_witness :
  window_ok (zoom_window pixelblaze_re pixelblaze_im (of_int 452)) /\
  window_ok (Mandelbrot.win (Mandelbrot.resize sin_near_pi 6283 6284)) /\
  window_ok (Mandelbrot.win (Mandelbrot.resize sin_near_0 0 0)).
Proof.
  destruct window_invariant as (_ & _ & Hrange & Htick & Hsame & _).
  split; [|split].
  - apply (Hrange (of_int 452) 452%Q); closed.
  - apply Htick; closed.
  - apply Hsame. closed.
Defined.

(** ** Escape-time evaluator: infinite coordinates *)

(** The square of a number is a zero, a positive number or [+inf]. *)
Lemma square_shape (u : float) :
  number u ->
  fmul u u = S754_zero false \/ fmul u u = S754_infinity false \/
  exists m e, fmul u u = S754_finite false m e.
Proof.
  intros [Hv Hn].
  destruct u as [s|s| |s m e]; cbn [is_nan] in Hn; try discriminate Hn.
  - left. destruct s; reflexivity.
  - right. left. destruct s; reflexivity.
  - cbn [valid_binary] in Hv.
    assert (Hf : fmul (S754_finite s m e) (S754_finite s m e)
                 = binary_round_aux prec emax false (Zpos (m * m)) (e + e)
                     loc_Exact).
    { unfold fmul, SFmul. now rewrite xorb_nilpotent. }
    rewrite Hf.
    destruct (binary_round_aux_shape false (Zpos (m * m)) (e + e) loc_Exact
                (Pos2Z.is_pos _) (mul_no_left_shift m e m e Hv Hv))
      as [-> | [-> | (m' & e' & -> & _)]]; eauto.
Qed.

Lemma infinite_escaped (limit x y : float) :
  number x -> number y ->
  is_finite x = false \/ is_finite y = false ->
  is_finite limit = true ->
  escaped limit (x, y) = true.
Proof.
  intros Hx Hy Hinf Hl. unfold escaped. cbn [fst snd].
  assert (Hlen : fadd (fmul x x) (fmul y y) = S754_infinity false).
  { destruct Hinf as [H | H].
    - destruct Hx as [_ Hn].
      destruct x as [s|s| |s m e]; try discriminate.
      replace (fmul (S754_infinity s) (S754_infinity s))
        with (S754_infinity false) by (destruct s; reflexivity).
      destruct (square_shape y Hy) as [-> | [-> | (m & e & ->)]]; reflexivity.
    - destruct Hy as [_ Hn].
      destruct y as [s|s| |s m e]; try discriminate.
      replace (fmul (S754_infinity s) (S754_infinity s))
        with (S754_infinity false) by (destruct s; reflexivity).
      destruct (square_shape x Hx) as [-> | [-> | (m & e & ->)]]; reflexivity. }
  rewrite Hlen.
  destruct limit as [s|s| |s m e]; try discriminate; reflexivity.
Qed.

(** X19: an infinite coordinate counts 0.  When one coordinate of the
    starting point is an infinity and the other is a number, the squared
    magnitude is [+inf] and exceeds every finite limit at the first
    test: the count is 0, the colour of index 0. *)
Theorem infinite_start_counts_0 (maxIt : Z) (limit cre cim x y : float) :
  1 <= maxIt ->
  number x -> number y ->
  is_finite x = false \/ is_finite y = false ->
  is_finite limit = true ->
  escape_time maxIt limit cre cim x y = Some 0.
Proof.
  intros Hmax Hx Hy Hinf Hl.
  pose proof (infinite_escaped limit x y Hx Hy Hinf Hl) as Hesc.
  unfold escape_time.
  now rewrite (while_loop_exit_at_start maxIt limit cre cim x y Hmax Hesc).
Qed.

Lemma infinite_start_counts_0_witness :
  escape_time 15 (of_int 16) (of_int 0) (of_int 0)
    (S754_infinity true) (of_int 1) = Some 0.
Proof.
  apply infinite_start_counts_0;
    [lia | split; reflexivity | split; reflexivity | left; reflexivity
    | reflexivity].
Defined.

(** ** Window animator: the range of the zoom *)

(** Two valid floats of the same value are the same float. *)
Lemma float_of_value (m : positive) (e : Z) (mc : positive) (ec : Z) :
  bounded prec emax m e = true -> bounded prec emax mc ec = true ->
  (valQ (Zpos m) e == valQ (Zpos mc) ec)%Q ->
  m = mc /\ e = ec.
Proof.
  intros Hb Hbc Heq. pose proof (lex_compare m e mc ec Hb Hbc) as H.
  apply Qeq_alt in Heq. rewrite Heq in H.
  destruct (Z.compare_spec e ec) as [He | He | He]; try discriminate H.
  split; [|exact He]. apply Pos.compare_eq. exact H.
Qed.

(** A float that is at most a positive normal float [c] is [c] itself or
    lies under a smaller rational. *)
Lemma f_le_split (p c : float) :
  f_ge 0 p -> f_le (F2Q c) p -> normal_float c -> (0 < F2Q c)%Q ->
  p = c \/ exists q, (q < F2Q c)%Q /\ f_le q p.
Proof.
  intros H0 Hle Hc Hpos.
  destruct (f_nonneg_cases p (F2Q c) H0 Hle)
    as [[s ->] | (m & e & -> & Hb & Hv)].
  - right. exists 0%Q. split; [exact Hpos | cbn [f_le]; lra].
  - destruct c as [| | |sc mc ec]; cbn [normal_float] in Hc; try tauto.
    pose proof (normal_float_bounded sc mc ec Hc) as Hbc.
    rewrite F2Q_finite in *.
    assert (Hsc : sc = false).
    { destruct sc; [|reflexivity].
      pose proof (valQ_pos (Zpos mc) ec ltac:(lia)).
      pose proof (valQ_neg mc ec). lra. }
    subst sc. cbv iota in *.
    destruct (Qlt_le_dec (valQ (Zpos m) e) (valQ (Zpos mc) ec)) as [Hlt | Hge].
    + right. exists (valQ (Zpos m) e). split; [exact Hlt|].
      cbn [f_le]. split; [exact Hb|]. rewrite F2Q_finite. lra.
    + left. destruct (float_of_value m e mc ec Hb Hbc) as [-> ->];
        [lra | reflexivity].
Qed.

Lemma fle_of_bound (y c : float) (q : Q) :
  f_le q y -> normal_float c -> (0 < F2Q c)%Q -> (q <= F2Q c)%Q ->
  fge c y = true.
Proof.
  intros Hy Hc Hpos Hq. unfold fge, SFleb.
  destruct c as [| | |sc mc ec]; cbn [normal_float] in Hc; try tauto.
  pose proof (normal_float_bounded sc mc ec Hc) as Hbc.
  rewrite F2Q_finite in *.
  assert (Hsc : sc = false).
  { destruct sc; [|reflexivity].
    pose proof (valQ_pos (Zpos mc) ec ltac:(lia)).
    pose proof (valQ_neg mc ec). lra. }
  subst sc.
  destruct y as [sy|[|]| |sy my ey]; cbn [f_le] in Hy; try tauto;
    try reflexivity.
  destruct Hy as [Hby Hy].
  rewrite SFcompare_finite by assumption.
  destruct (Qcompare_spec (F2Q (S754_finite sy my ey))
              (F2Q (S754_finite false mc ec))) as [H|H|H]; try reflexivity.
  rewrite !F2Q_finite in *. cbv iota in *. lra.
Qed.

(** For a factor in [0, 1] the zoom is at most 5200: the product
    [5000 * m] is 5000 or lies under it, and so does its rounding. *)
Lemma zoom_upper_nonneg (m : float) :
  f_ge 0 m -> f_le 1 m ->
  f_le (F2Q (of_int 5200)) (fadd (fmul (of_int 5000) m) (of_int 200)).
Proof.
  intros Ha0 Ha1.
  assert (H1 : (F2Q (of_int 1) == 1)%Q) by reflexivity.
  assert (H5000 : (F2Q (of_int 5000) == 5000)%Q) by reflexivity.
  assert (H5200 : (F2Q (of_int 5200) == 5200)%Q) by reflexivity.
  assert (Hp : f_ge 0 (fmul (of_int 5000) m) /\
               f_le (F2Q (of_int 5000)) (fmul (of_int 5000) m)).
  { destruct (f_le_split m (of_int 1) Ha0) as [-> | (q & Hq & Hle)];
      [apply (f_le_weaken 1); [closed | exact Ha1]
      | closed | closed | closed |].
    apply (fmul_nonneg_le _ _ 5000 q);
      [closed | closed | exact Ha0 | exact Hle | closed | closed |].
    rewrite H5000. rewrite H1 in Hq. lra. }
  destruct Hp as [Hp0 Hp1].
  destruct (f_le_split _ (of_int 5000) Hp0) as [-> | (q & Hq & Hle)];
    [exact Hp1 | closed | closed | closed |].
  apply (fadd_le _ _ q 200); [exact Hle | closed | closed |].
  rewrite H5200. rewrite H5000 in Hq. lra.
Qed.

(** And so it is for a factor in [-1, 1], where it is also at least
    -4802. *)
Lemma zoom_upper (m : float) :
  unit_value m ->
  f_ge (F2Q (of_int (-4802))) (fadd (fmul (of_int 5000) m) (of_int 200)) /\
  f_le (F2Q (of_int 5200)) (fadd (fmul (of_int 5000) m) (of_int 200)).
Proof.
  intros Hm. split; [apply zoom_value_range, Hm|].
  destruct (unit_value_cases m Hm) as [[H0 H1] | (m' & -> & H0 & H1)].
  - apply zoom_upper_nonneg; assumption.
  - destruct (zoom_value_neg m' H0 H1) as [_ Hhi].
    apply (f_le_weaken (F2Q (of_int 201))); [closed | exact Hhi].
Qed.

(** X20: the zoom goes "to 200 up to 5200", as the comment of [resize]
    says, on its upper side: whatever the two readings of the clock in
    [abs], when [sin] returns a value in [-1, 1] in the branch the zoom
    that [resize] stores is a finite number and at most 5200; the two
    roundings never take it above.  When the two readings are the same
    it is at least 200 as well. *)
Theorem zoom_at_most_5200 (sinf : float -> float) (t1 t2 : Z) :
  unit_value (sinf (fdiv (of_int t2) (of_int 2000))) ->
  fge (of_int 5200) (Mandelbrot.zoOm (Mandelbrot.resize sinf t1 t2)) = true /\
  is_finite (Mandelbrot.zoOm (Mandelbrot.resize sinf t1 t2)) = true /\
  (t1 = t2 ->
   fge (Mandelbrot.zoOm (Mandelbrot.resize sinf t1 t2)) (of_int 200) = true).
Proof.
  intros Hs.
  cbn [Mandelbrot.resize Mandelbrot.zoOm]. unfold Mandelbrot.zoom.
  destruct (zoom_upper _ (abs_macro_unit
              (sinf (fdiv (of_int t1) (of_int 2000))) _ Hs)) as [Hlo Hhi].
  split; [|split].
  - apply (fle_of_bound _ (of_int 5200) (F2Q (of_int 5200)) Hhi); closed.
  - apply (bounds_finite _ _ _ Hlo Hhi).
  - intros ->. change (abs_macro ?x ?x) with (abs x).
    destruct (zoom_in_range _ Hs) as [Hlo' _].
    apply (fge_of_bound _ (of_int 200) (F2Q (of_int 200)) Hlo'); closed.
Qed.

Lemma zoom_at_most_5200_witness :
  unit_value (sin_near_pi (fdiv (of_int 6284) (of_int 2000))) /\
  fge (of_int 5200) (Mandelbrot.zoOm (Mandelbrot.resize sin_near_pi 6283 6284))
    = true /\
  is_finite (Mandelbrot.zoOm (Mandelbrot.resize sin_near_pi 6283 6284))
    = true.
Proof.
  assert (H : unit_value (sin_near_pi (fdiv (of_int 6284) (of_int 2000))))
    by closed.
  destruct (zoom_at_most_5200 sin_near_pi 6283 6284 H) as (Hle & Hfin & _).
  split; [exact H|]. split; [exact Hle | exact Hfin].
Defined.

(** The bounds on the zoom that the properties of the window need, from
    what is known of a pass of [resize]: a sine in [-1, 1] and a zoom
    above [c], or the same reading twice. *)
Lemma resize_zoom_positive (sinf : float -> float) (t1 t2 : Z) :
  unit_value (sinf (fdiv (of_int t2) (of_int 2000))) ->
  fgt (Mandelbrot.zoOm (Mandelbrot.resize sinf t1 t2)) (of_int 0) = true
  \/ t1 = t2 ->
  exists q0 : Q,
    (0 < q0)%Q /\
    f_ge q0 (Mandelbrot.zoOm (Mandelbrot.resize sinf t1 t2)) /\
    f_le (F2Q (of_int 5202)) (Mandelbrot.zoOm (Mandelbrot.resize sinf t1 t2)).
Proof.
  intros Hs Hpos.
  cbn [Mandelbrot.resize Mandelbrot.zoOm] in *. unfold Mandelbrot.zoom in *.
  destruct (zoom_value_range _ (abs_macro_unit
              (sinf (fdiv (of_int t1) (of_int 2000))) _ Hs)) as [_ Hhi].
  destruct Hpos as [Hpos | ->].
  - destruct (positive_bound _ _ Hhi Hpos) as (q0 & Hq0 & Hlo).
    exists q0. auto.
  - destruct (zoom_in_range _ Hs) as [Hlo _].
    exists (F2Q (of_int 200)). split; [closed|]. split; [exact Hlo | exact Hhi].
Qed.

Lemma resize_zoom_above_200 (sinf : float -> float) (t1 t2 : Z) :
  unit_value (sinf (fdiv (of_int t2) (of_int 2000))) ->
  fge (Mandelbrot.zoOm (Mandelbrot.resize sinf t1 t2)) (of_int 200) = true
  \/ t1 = t2 ->
  f_ge (F2Q (of_int 200)) (Mandelbrot.zoOm (Mandelbrot.resize sinf t1 t2)) /\
  f_le (F2Q (of_int 5202)) (Mandelbrot.zoOm (Mandelbrot.resize sinf t1 t2)).
Proof.
  intros Hs Hpos.
  cbn [Mandelbrot.resize Mandelbrot.zoOm] in *. unfold Mandelbrot.zoom in *.
  destruct (zoom_value_range _ (abs_macro_unit
              (sinf (fdiv (of_int t1) (of_int 2000))) _ Hs)) as [_ Hhi].
  split; [|exact Hhi].
  destruct Hpos as [Hpos | ->].
  - apply (lower_bound_of_fge _ (of_int 200) _ Hhi); [closed | closed | exact Hpos].
  - apply (zoom_in_range _ Hs).
Qed.

(** X21: the animation does not lose its target.  When [sin] returns a
    value in [-1, 1] and the zoom that [resize] stored is strictly
    positive, whatever the two readings of the clock in [abs] (and
    always when the two readings are the same), the location
    [(reAl, imAg) = (-0.94299, 0.3162)] that [resize] zooms on lies
    strictly inside the window: [xmin < reAl < xmax] and
    [ymin < imAg < ymax], the shift [yadj] notwithstanding. *)
Theorem location_stays_in_view (sinf : float -> float) (t1 t2 : Z) :
  unit_value (sinf (fdiv (of_int t2) (of_int 2000))) ->
  fgt (Mandelbrot.zoOm (Mandelbrot.resize sinf t1 t2)) (of_int 0) = true
  \/ t1 = t2 ->
  flt (xmin (Mandelbrot.win (Mandelbrot.resize sinf t1 t2)))
      (Mandelbrot.reAl (Mandelbrot.resize sinf t1 t2)) = true /\
  flt (Mandelbrot.reAl (Mandelbrot.resize sinf t1 t2))
      (xmax (Mandelbrot.win (Mandelbrot.resize sinf t1 t2))) = true /\
  flt (ymin (Mandelbrot.win (Mandelbrot.resize sinf t1 t2)))
      (Mandelbrot.imAg (Mandelbrot.resize sinf t1 t2)) = true /\
  flt (Mandelbrot.imAg (Mandelbrot.resize sinf t1 t2))
      (ymax (Mandelbrot.win (Mandelbrot.resize sinf t1 t2))) = true.
Proof.
  intros Hs Hpos.
  destruct (resize_zoom_positive sinf t1 t2 Hs Hpos) as (q0 & Hq0 & Hlo & Hhi).
  cbn [Mandelbrot.resize Mandelbrot.win Mandelbrot.reAl Mandelbrot.imAg
       Mandelbrot.zoOm] in *.
  destruct (zoom_window_bounds _ q0 Hq0 Hlo Hhi) as (Hx0 & Hx1 & Hy0 & Hy1).
  split; [|split; [|split]].
  - apply (flt_of_bounds _ _ (F2Q (lit (-127) 128)) (F2Q pixelblaze_re));
      [exact Hx0 | closed | closed].
  - apply (flt_of_bounds _ _ (F2Q pixelblaze_re) (F2Q (lit (-29) 32)));
      [closed | exact Hx1 | closed].
  - apply (flt_of_bounds _ _ (F2Q (lit 9 32)) (F2Q pixelblaze_im));
      [exact Hy0 | closed | closed].
  - apply (flt_of_bounds _ _ (F2Q pixelblaze_im) (F2Q (lit 3 8)));
      [closed | exact Hy1 | closed].
Qed.

Lemma location_stays_in_view_witness :
  unit_value (sin_near_pi (fdiv (of_int 6284) (of_int 2000))) /\
  fgt (Mandelbrot.zoOm (Mandelbrot.resize sin_near_pi 6283 6284)) (of_int 0)
    = true /\
  flt (xmin (Mandelbrot.win (Mandelbrot.resize sin_near_pi 6283 6284)))
      (Mandelbrot.reAl (Mandelbrot.resize sin_near_pi 6283 6284)) = true /\
  flt (Mandelbrot.reAl (Mandelbrot.resize sin_near_pi 6283 6284))
      (xmax (Mandelbrot.win (Mandelbrot.resize sin_near_pi 6283 6284))) = true.
Proof.
  assert (H : unit_value (sin_near_pi (fdiv (of_int 6284) (of_int 2000))))
    by closed.
  assert (Hpos : fgt (Mandelbrot.zoOm (Mandelbrot.resize sin_near_pi 6283 6284))
                     (of_int 0) = true) by reflexivity.
  destruct (location_stays_in_view sin_near_pi 6283 6284 H (or_introl Hpos))
    as (Hx0 & Hx1 & _).
  split; [exact H|]. split; [exact Hpos|]. split; [exact Hx0 | exact Hx1].
Defined.

(** *** Division: an upper bound *)

Lemma binary_round_aux_zero (s : bool) (l : location) :
  binary_round_aux prec emax s 0 (-149) l = S754_zero s \/
  binary_round_aux prec emax s 0 (-149) l = S754_finite s 1 (-149).
Proof. destruct l as [|[| |]]; vm_compute; auto. Qed.

Lemma valQ_mono (m1 m2 e : Z) : m1 <= m2 -> (valQ m1 e <= valQ m2 e)%Q.
Proof.
  intros H. unfold valQ. apply Qmult_le_compat_r.
  - rewrite <- Zle_Qle. exact H.
  - apply Qlt_le_weak, pow2Q_pos.
Qed.

(** The quotient of two positive floats stays under a normal float [F]
    with [x < F * y], when the divisor is below 2^24. *)
Lemma fdiv_finite_upper (mx : positive) (ex : Z) (my : positive) (ey : Z)
  (mF eF : Z) :
  bounded prec emax mx ex = true -> bounded prec emax my ey = true ->
  ey <= 0 ->
  normalF mF eF ->
  (valQ (Zpos mx) ex < valQ mF eF * valQ (Zpos my) ey)%Q ->
  rounded_le false (valQ mF eF)
    (fdiv (S754_finite false mx ex) (S754_finite false my ey)).
Proof.
  intros Hbx Hby Hey0 HF Hval.
  destruct (SFdiv_core_spec mx ex my ey) as (q & e' & l & Hcore & He' & Hq).
  unfold fdiv, SFdiv. rewrite Hcore. cbn [xorb].
  destruct (bounded_facts mx ex Hbx) as (Hex & _ & _).
  destruct (bounded_facts my ey Hby) as (Hey & _ & _).
  pose proof HF as [[HmFlo HmFhi] [HeFlo HeFhi]].
  pose proof (Zdigits2_bounds (Zpos mx) ltac:(lia)) as [Hxlo Hxhi].
  pose proof (Zdigits2_bounds (Zpos my) ltac:(lia)) as [Hylo Hyhi].
  pose proof (Zdigits2_pos (Zpos mx) ltac:(lia)) as Hdx.
  pose proof (Zdigits2_pos (Zpos my) ltac:(lia)) as Hdy.
  set (d1 := Zdigits2 (Zpos mx)) in *. set (d2 := Zdigits2 (Zpos my)) in *.
  rewrite fexp_eq in He'.
  set (s := ex - ey - e') in *.
  assert (Hs : 0 <= s) by (unfold s; lia).
  assert (Hps : 0 < 2 ^ s) by (apply Z.pow_pos_nonneg; lia).
  assert (He'lo : -149 <= e') by lia.
  rewrite pow2_23, pow2_24 in *.
  (* a quotient above the subnormal range has a full mantissa *)
  assert (HA : -149 < e' -> 8388608 <= q).
  { intros Hn. rewrite Hq. apply Z.div_le_lower_bound; [lia|].
    assert (Hs' : 24 - d1 + d2 <= s) by (unfold s; lia).
    assert (H1 : 2 ^ (23 + d2) <= 2 ^ (d1 - 1 + s))
      by (apply Z.pow_le_mono_r; lia).
    rewrite (Z.pow_add_r 2 23 d2), (Z.pow_add_r 2 (d1 - 1) s) in H1 by lia.
    change (2 ^ 23) with 8388608 in H1.
    assert (2 ^ (d1 - 1) * 2 ^ s <= Zpos mx * 2 ^ s)
      by (apply Z.mul_le_mono_nonneg_r; lia).
    assert (Zpos my * 8388608 <= 2 ^ d2 * 8388608)
      by (apply Z.mul_le_mono_nonneg_r; lia).
    lia. }
  assert (Hq0 : 0 <= q) by (rewrite Hq; apply Z.div_pos; lia).
  destruct (Z.eq_dec q 0) as [Hz | Hnz].
  - (* the quotient underflows to 0 or to the least subnormal *)
    assert (e' = -149) as -> by (destruct (Z.eq_dec e' (-149)); [assumption|];
                                 specialize (HA ltac:(lia)); lia).
    rewrite Hz.
    destruct (binary_round_aux_zero false l) as [-> | ->];
      [left; reflexivity | right].
    exists 1%positive, (-149). split; [reflexivity|].
    split; [reflexivity|].
    apply (valQ_le_iff 1 (-149) mF eF 149); [lia | lia | lia |].
    change (2 ^ (-149 + 149)) with 1.
    assert (0 < 2 ^ (eF + 149)) by (apply Z.pow_pos_nonneg; lia).
    nia.
  - apply binary_round_aux_upper.
    + lia.
    + rewrite fexp_eq.
      destruct (Z.eq_dec e' (-149)) as [-> | Hne]; [lia|].
      specialize (HA ltac:(lia)).
      pose proof (Zdigits2_ge_24 q ltac:(rewrite pow2_23; exact HA)). lia.
    + exact HF.
    + pose proof (valQ_pos (Zpos my) ey ltac:(lia)) as Hy.
      apply (Qmult_lt_r _ _ (valQ (Zpos my) ey) Hy).
      apply Qle_lt_trans with (2 := Hval).
      rewrite <- valQ_mul.
      rewrite <- (valQ_shift (Zpos mx) ex s Hs).
      replace (ex - s) with (e' + ey) by (unfold s; lia).
      apply valQ_mono. rewrite Hq, Z.mul_comm.
      apply Z.mul_div_le. lia.
Qed.

Lemma fdiv_fopp_l (u v : float) : fdiv (fopp u) v = fopp (fdiv u v).
Proof.
  destruct u as [su|su| |su mu eu], v as [sv|sv| |sv mv ev];
    unfold fdiv, SFdiv; cbn [fopp SFopp];
    rewrite ?xorb_negb_l; try reflexivity.
  destruct (SFdiv_core_binary prec emax (Zpos mu) eu (Zpos mv) ev)
    as [[mz ez] lz].
  apply binary_round_aux_fopp.
Qed.

(** A float between 0 and [qx], divided by a positive float [y] below
    2^24, stays between 0 and a normal float above [qx / y]. *)
Lemma fdiv_nonneg_le (x : float) (my : positive) (ey : Z) (qx : Q)
  (F : float) :
  f_ge 0 x -> f_le qx x ->
  bounded prec emax my ey = true -> ey <= 0 ->
  normal_float F -> (0 < F2Q F)%Q ->
  (qx < F2Q F * valQ (Zpos my) ey)%Q ->
  f_ge 0 (fdiv x (S754_finite false my ey)) /\
  f_le (F2Q F) (fdiv x (S754_finite false my ey)).
Proof.
  intros Hx0 Hx Hby Hey HF HFpos Hq.
  destruct (f_nonneg_cases x qx Hx0 Hx) as [[sx ->] | (mx & ex & -> & Hbx & Hvx)].
  - unfold fdiv, SFdiv. cbn [f_ge f_le]. split; lra.
  - destruct F as [| | |sF mF eF]; cbn [normal_float] in HF; try tauto.
    rewrite F2Q_finite in *.
    assert (HsF : sF = false).
    { destruct sF; [|reflexivity].
      pose proof (valQ_pos (Zpos mF) eF ltac:(lia)).
      pose proof (valQ_neg mF eF). lra. }
    subst sF. cbv iota in *.
    destruct (fdiv_finite_upper mx ex my ey (Zpos mF) eF Hbx Hby Hey HF)
      as [-> | (m' & e' & -> & Hb & Hv)].
    + lra.
    + cbn [f_ge f_le]. split; lra.
    + cbn [f_ge f_le]. rewrite F2Q_finite.
      pose proof (valQ_pos (Zpos m') e' ltac:(lia)).
      split; split; try exact Hb; lra.
Qed.

(** The same for a divisor known by its bounds. *)
Lemma fdiv_pos_le (x y : float) (qx qy0 qy : Q) (F : float) :
  f_ge 0 x -> f_le qx x ->
  (0 < qy0)%Q -> f_ge qy0 y -> f_le qy y -> (qy < 16777216)%Q ->
  normal_float F -> (0 < F2Q F)%Q ->
  (qx < F2Q F * qy0)%Q ->
  f_ge 0 (fdiv x y) /\ f_le (F2Q F) (fdiv x y).
Proof.
  intros Hx0 Hx Hq0 Hy0 Hy Hbig HF HFpos Hq.
  destruct (f_pos_cases y qy0 Hq0 Hy0) as [-> | (my & ey & -> & Hby & Hvy)];
    [contradiction|].
  destruct Hy as [_ Hy]. rewrite F2Q_finite in Hy.
  assert (Hey : ey <= 0).
  { destruct (Z_le_gt_dec ey 0) as [H|H]; [exact H|exfalso].
    destruct (bounded_facts my ey Hby) as (He & _ & Hm).
    specialize (Hm ltac:(lia)). rewrite pow2_23 in Hm.
    assert (Hv : (valQ 16777216 0 <= valQ (Zpos my) ey)%Q).
    { apply (valQ_le_iff _ _ _ _ 0); [lia | lia | lia |].
      rewrite !Z.add_0_r. change (2 ^ 0) with 1.
      assert (2 ^ 1 <= 2 ^ ey) by (apply Z.pow_le_mono_r; lia).
      change (2 ^ 1) with 2 in *. nia. }
    assert (Hc : (valQ 16777216 0 == 16777216)%Q) by reflexivity.
    rewrite Hc in Hv. lra. }
  apply (fdiv_nonneg_le _ _ _ qx); try assumption.
  apply Qlt_le_trans with (1 := Hq).
  apply Qmult_le_l; [exact HFpos | exact Hvy].
Qed.

(** For a zoom between 200 and 5202 the half-extent [1./zoOm/zoomAdj]
    is at most 3.15. *)
Lemma half_extent_upper (z : float) :
  f_ge (F2Q (of_int 200)) z -> f_le (F2Q (of_int 5202)) z ->
  f_ge 0 (half_extent z) /\ f_le (F2Q (lit 315 100)) (half_extent z).
Proof.
  intros Hlo Hhi. unfold half_extent.
  assert (Hh : f_ge 0 (fdiv (of_int 1) z) /\
               f_le (F2Q (lit 1 199)) (fdiv (of_int 1) z)).
  { apply (fdiv_pos_le _ _ 1 (F2Q (of_int 200)) (F2Q (of_int 5202)));
      [closed | closed | closed | exact Hlo | exact Hhi
      | closed | closed | closed | closed]. }
  destruct Hh as [Hh0 Hh1].
  change zoomAdj with (S754_finite false 13743895 (-33)).
  apply (fdiv_nonneg_le _ _ _ (F2Q (lit 1 199)));
    [exact Hh0 | exact Hh1 | closed | closed | closed | closed | closed].
Qed.

(** Around [(-0.94299, 0.3162)], for a zoom between 200 and 5202:
    [-5 <= xmin], [xmax <= 3], [-4 <= ymin] and [ymax <= 4]. *)
Lemma zoom_window_outer (z : float) :
  f_ge (F2Q (of_int 200)) z -> f_le (F2Q (of_int 5202)) z ->
  f_ge (F2Q (of_int (-5)))
       (xmin (zoom_window pixelblaze_re pixelblaze_im z)) /\
  f_le (F2Q (of_int 3)) (xmax (zoom_window pixelblaze_re pixelblaze_im z)) /\
  f_ge (F2Q (of_int (-4)))
       (ymin (zoom_window pixelblaze_re pixelblaze_im z)) /\
  f_le (F2Q (of_int 4)) (ymax (zoom_window pixelblaze_re pixelblaze_im z)).
Proof.
  intros Hlo Hhi.
  destruct (half_extent_upper _ Hlo Hhi) as [Hw0 Hw1].
  unfold zoom_window, with_steps. cbn [xmin xmax ymin ymax].
  set (w := half_extent z) in *.
  split; [|split; [|split]].
  - apply (fadd_ge _ _ (F2Q (lit (-9) 2)) 0); [| closed | closed | closed].
    apply (fsub_ge _ _ (F2Q pixelblaze_re) (F2Q (lit 315 100)));
      [closed | exact Hw1 | closed | closed].
  - apply (fadd_le _ _ (F2Q (lit 5 2)) 0); [| closed | closed | closed].
    apply (fadd_le _ _ (F2Q pixelblaze_re) (F2Q (lit 315 100)));
      [closed | exact Hw1 | closed | closed].
  - apply (fadd_ge _ _ (F2Q (of_int (-3))) (F2Q yadj));
      [| closed | closed | closed].
    apply (fsub_ge _ _ (F2Q pixelblaze_im) (F2Q (lit 315 100)));
      [closed | exact Hw1 | closed | closed].
  - apply (fadd_le _ _ (F2Q (lit 7 2)) (F2Q yadj));
      [| closed | closed | closed].
    apply (fadd_le _ _ (F2Q pixelblaze_im) (F2Q (lit 315 100)));
      [closed | exact Hw1 | closed | closed].
Qed.

(** X22: the animation does not zoom out of a bounded region.  When
    [sin] returns a value in [-1, 1] and the zoom that [resize] stored
    is at least 200, whatever the two readings of the clock in [abs]
    (and always when the two readings are the same), the four bounds of
    the window are finite numbers with [-5 <= xmin <= -0.99],
    [-0.91 <= xmax <= 3], [-4 <= ymin <= 0.29] and
    [0.37 <= ymax <= 4]. *)
Theorem window_stays_bounded (sinf : float -> float) (t1 t2 : Z) :
  unit_value (sinf (fdiv (of_int t2) (of_int 2000))) ->
  fge (Mandelbrot.zoOm (Mandelbrot.resize sinf t1 t2)) (of_int 200) = true
  \/ t1 = t2 ->
  (f_ge (-5) (xmin (Mandelbrot.win (Mandelbrot.resize sinf t1 t2))) /\
   f_le (-99 # 100) (xmin (Mandelbrot.win (Mandelbrot.resize sinf t1 t2)))) /\
  (f_ge (-91 # 100) (xmax (Mandelbrot.win (Mandelbrot.resize sinf t1 t2))) /\
   f_le 3 (xmax (Mandelbrot.win (Mandelbrot.resize sinf t1 t2)))) /\
  (f_ge (-4) (ymin (Mandelbrot.win (Mandelbrot.resize sinf t1 t2))) /\
   f_le (29 # 100) (ymin (Mandelbrot.win (Mandelbrot.resize sinf t1 t2)))) /\
  (f_ge (37 # 100) (ymax (Mandelbrot.win (Mandelbrot.resize sinf t1 t2))) /\
   f_le 4 (ymax (Mandelbrot.win (Mandelbrot.resize sinf t1 t2)))) /\
  is_finite (xmin (Mandelbrot.win (Mandelbrot.resize sinf t1 t2))) = true /\
  is_finite (xmax (Mandelbrot.win (Mandelbrot.resize sinf t1 t2))) = true /\
  is_finite (ymin (Mandelbrot.win (Mandelbrot.resize sinf t1 t2))) = true /\
  is_finite (ymax (Mandelbrot.win (Mandelbrot.resize sinf t1 t2))) = true.
Proof.
  intros Hs Hz.
  destruct (resize_zoom_above_200 sinf t1 t2 Hs Hz) as [Hlo Hhi].
  cbn [Mandelbrot.resize Mandelbrot.win Mandelbrot.zoOm] in *.
  destruct (zoom_window_outer _ Hlo Hhi) as (Hx0 & Hx1 & Hy0 & Hy1).
  destruct (zoom_window_bounds _ (F2Q (of_int 200)) ltac:(closed) Hlo Hhi)
    as (Ix0 & Ix1 & Iy0 & Iy1).
  set (w := zoom_window pixelblaze_re pixelblaze_im
              (Mandelbrot.zoom sinf t1 t2)) in *.
  assert (Jx0 : f_ge (-5) (xmin w))
    by (apply (f_ge_weaken (F2Q (of_int (-5)))); [closed | exact Hx0]).
  assert (Kx0 : f_le (-99 # 100) (xmin w))
    by (apply (f_le_weaken (F2Q (lit (-127) 128))); [closed | exact Ix0]).
  assert (Jx1 : f_ge (-91 # 100) (xmax w))
    by (apply (f_ge_weaken (F2Q (lit (-29) 32))); [closed | exact Ix1]).
  assert (Kx1 : f_le 3 (xmax w))
    by (apply (f_le_weaken (F2Q (of_int 3))); [closed | exact Hx1]).
  assert (Jy0 : f_ge (-4) (ymin w))
    by (apply (f_ge_weaken (F2Q (of_int (-4)))); [closed | exact Hy0]).
  assert (Ky0 : f_le (29 # 100) (ymin w))
    by (apply (f_le_weaken (F2Q (lit 9 32))); [closed | exact Iy0]).
  assert (Jy1 : f_ge (37 # 100) (ymax w))
    by (apply (f_ge_weaken (F2Q (lit 3 8))); [closed | exact Iy1]).
  assert (Ky1 : f_le 4 (ymax w))
    by (apply (f_le_weaken (F2Q (of_int 4))); [closed | exact Hy1]).
  repeat split; try assumption;
    eauto using bounds_finite.
Qed.

Lemma window_stays_bounded_witness :
  unit_value (sin_near_0 (fdiv (of_int 0) (of_int 2000))) /\
  f_ge (-5) (xmin (Mandelbrot.win (Mandelbrot.resize sin_near_0 0 0))) /\
  f_le (-99 # 100) (xmin (Mandelbrot.win (Mandelbrot.resize sin_near_0 0 0))) /\
  is_finite (xmin (Mandelbrot.win (Mandelbrot.resize sin_near_0 0 0))) = true.
Proof.
  assert (H : unit_value (sin_near_0 (fdiv (of_int 0) (of_int 2000))))
    by closed.
  assert (Hz : fge (Mandelbrot.zoOm (Mandelbrot.resize sin_near_0 0 0))
                   (of_int 200) = true) by reflexivity.
  destruct (window_stays_bounded sin_near_0 0 0 H (or_introl Hz))
    as ((Hlo & Hhi) & _ & _ & _ & Hfin & _).
  split; [exact H|]. split; [exact Hlo|]. split; [exact Hhi | exact Hfin].
Defined.

(** The step of a window whose extent lies between 1/16 and 9 lies
    between 1/256 and 1. *)
Lemma step_bounds (lo hi : float) (qh uh ql ul : Q) :
  f_ge qh hi -> f_le uh hi -> f_le ql lo -> f_ge ul lo ->
  (F2Q (lit 1 16) < qh - ql)%Q -> (uh - ul < F2Q (of_int 9))%Q ->
  f_ge (F2Q (lit 1 256)) (fdiv (fsub hi lo) (of_int 16)) /\
  f_le (F2Q (of_int 1)) (fdiv (fsub hi lo) (of_int 16)).
Proof.
  intros Hqh Huh Hql Hul Hq Hu.
  assert (He0 : f_ge (F2Q (lit 1 16)) (fsub hi lo)).
  { apply (fsub_ge _ _ qh ql); [exact Hqh | exact Hql | closed | exact Hq]. }
  assert (He1 : f_le (F2Q (of_int 9)) (fsub hi lo)).
  { apply (fsub_le _ _ uh ul); [exact Huh | exact Hul | closed | exact Hu]. }
  split.
  - apply (fdiv_pos_ge _ _ (F2Q (lit 1 16)) (F2Q (of_int 16))
             (F2Q (of_int 16)));
      [closed | exact He0 | closed | closed | closed | closed | closed
      | closed].
  - change (of_int 16) with (S754_finite false 8388608 (-19)).
    apply (fdiv_nonneg_le _ _ _ (F2Q (of_int 9)));
      [| exact He1 | closed | closed | closed | closed | closed].
    apply (f_ge_weaken (F2Q (lit 1 16))); [closed | exact He0].
Qed.

(** X24: the steps of the sweep are positive numbers.  When [sin]
    returns a value in [-1, 1] and the zoom that [resize] stored is at
    least 200, whatever the two readings of the clock in [abs] (and
    always when the two readings are the same), the steps [dx] and [dy]
    that [resize] computes are finite numbers between 1/256 and 1:
    never zero, negative, infinite or NaN. *)
Theorem steps_stay_positive (sinf : float -> float) (t1 t2 : Z) :
  unit_value (sinf (fdiv (of_int t2) (of_int 2000))) ->
  fge (Mandelbrot.zoOm (Mandelbrot.resize sinf t1 t2)) (of_int 200) = true
  \/ t1 = t2 ->
  (f_ge (1 # 256) (dx (Mandelbrot.win (Mandelbrot.resize sinf t1 t2))) /\
   f_le 1 (dx (Mandelbrot.win (Mandelbrot.resize sinf t1 t2)))) /\
  (f_ge (1 # 256) (dy (Mandelbrot.win (Mandelbrot.resize sinf t1 t2))) /\
   f_le 1 (dy (Mandelbrot.win (Mandelbrot.resize sinf t1 t2)))) /\
  flt (of_int 0) (dx (Mandelbrot.win (Mandelbrot.resize sinf t1 t2)))
    = true /\
  flt (of_int 0) (dy (Mandelbrot.win (Mandelbrot.resize sinf t1 t2)))
    = true /\
  is_finite (dx (Mandelbrot.win (Mandelbrot.resize sinf t1 t2))) = true /\
  is_finite (dy (Mandelbrot.win (Mandelbrot.resize sinf t1 t2))) = true.
Proof.
  intros Hs Hz.
  destruct (resize_zoom_above_200 sinf t1 t2 Hs Hz) as [Hlo Hhi].
  cbn [Mandelbrot.resize Mandelbrot.win Mandelbrot.zoOm] in *.
  destruct (zoom_window_outer _ Hlo Hhi) as (Hx0 & Hx1 & Hy0 & Hy1).
  destruct (zoom_window_bounds _ (F2Q (of_int 200)) ltac:(closed) Hlo Hhi)
    as (Ix0 & Ix1 & Iy0 & Iy1).
  set (w := zoom_window pixelblaze_re pixelblaze_im
              (Mandelbrot.zoom sinf t1 t2)) in *.
  assert (Hdx : f_ge (F2Q (lit 1 256)) (dx w) /\
                f_le (F2Q (of_int 1)) (dx w)).
  { apply (step_bounds (xmin w) (xmax w) _ _ _ _ Ix1 Hx1 Ix0 Hx0); closed. }
  assert (Hdy : f_ge (F2Q (lit 1 256)) (dy w) /\
                f_le (F2Q (of_int 1)) (dy w)).
  { apply (step_bounds (ymin w) (ymax w) _ _ _ _ Iy1 Hy1 Iy0 Hy0); closed. }
  destruct Hdx as [Hdx0 Hdx1], Hdy as [Hdy0 Hdy1].
  split; [split|split; [split|split; [|split; [|split]]]].
  - apply (f_ge_weaken (F2Q (lit 1 256))); [closed | exact Hdx0].
  - apply (f_le_weaken (F2Q (of_int 1))); [closed | exact Hdx1].
  - apply (f_ge_weaken (F2Q (lit 1 256))); [closed | exact Hdy0].
  - apply (f_le_weaken (F2Q (of_int 1))); [closed | exact Hdy1].
  - apply (flt_of_bounds _ _ 0 (F2Q (lit 1 256))); [closed | exact Hdx0 | closed].
  - apply (flt_of_bounds _ _ 0 (F2Q (lit 1 256))); [closed | exact Hdy0 | closed].
  - apply (bounds_finite _ _ _ Hdx0 Hdx1).
  - apply (bounds_finite _ _ _ Hdy0 Hdy1).
Qed.

Lemma steps_stay_positive_witness :
  unit_value (sin_near_0 (fdiv (of_int 0) (of_int 2000))) /\
  f_ge (1 # 256) (dx (Mandelbrot.win (Mandelbrot.resize sin_near_0 0 0))) /\
  f_le 1 (dx (Mandelbrot.win (Mandelbrot.resize sin_near_0 0 0))) /\
  flt (of_int 0) (dx (Mandelbrot.win (Mandelbrot.resize sin_near_0 0 0)))
    = true.
Proof.
  assert (H : unit_value (sin_near_0 (fdiv (of_int 0) (of_int 2000))))
    by closed.
  destruct (steps_stay_positive sin_near_0 0 0 H (or_intror eq_refl))
    as ((Hlo & Hhi) & _ & Hpos & _).
  split; [exact H|]. split; [exact Hlo|]. split; [exact Hhi | exact Hpos].
Defined.

(** ** Window animator: the constant of the Julia sketches *)

(** A twentieth of a value in [-1, 1] lies between [-F] and [F], where
    [F] is [1/20] as single precision rounds it. *)
Lemma twentieth_unit (s : float) :
  unit_value s ->
  f_ge (- F2Q (lit 1 20)) (fdiv s (of_int 20)) /\
  f_le (F2Q (lit 1 20)) (fdiv s (of_int 20)).
Proof.
  intros [Hlo Hhi].
  assert (Hpos : forall x, f_ge 0 x -> f_le 1 x ->
            f_ge 0 (fdiv x (of_int 20)) /\
            f_le (F2Q (lit 1 20)) (fdiv x (of_int 20))).
  { intros x H0 H1.
    change (of_int 20) with (S754_finite false 10485760 (-19)).
    apply (fdiv_nonneg_le x _ _ 1); [exact H0 | exact H1 | | | | |]; closed. }
  assert (HF : (0 < F2Q (lit 1 20))%Q) by closed.
  destruct s as [sg|sg| |sg m e]; cbn [f_ge f_le] in Hlo, Hhi.
  - change (of_int 20) with (S754_finite false 10485760 (-19)).
    unfold fdiv, SFdiv. cbn [f_ge f_le]. split; lra.
  - destruct sg; contradiction.
  - contradiction.
  - destruct Hlo as [Hb Hlo], Hhi as [_ Hhi]. rewrite F2Q_finite in *.
    pose proof (valQ_pos (Zpos m) e ltac:(lia)) as Hp.
    pose proof (valQ_neg m e) as Hn.
    destruct sg; cbv iota in *.
    + change (S754_finite true m e) with (fopp (S754_finite false m e)).
      rewrite fdiv_fopp_l.
      destruct (Hpos (S754_finite false m e)) as [H0 H1].
      { cbn [f_ge]. rewrite F2Q_finite. split; [exact Hb | lra]. }
      { cbn [f_le]. rewrite F2Q_finite. split; [exact Hb | lra]. }
      split.
      * apply f_ge_fopp, H1.
      * apply (f_le_weaken (- 0)); [lra|]. apply f_le_fopp, H0.
    + destruct (Hpos (S754_finite false m e)) as [H0 H1].
      { cbn [f_ge]. rewrite F2Q_finite. split; [exact Hb | lra]. }
      { cbn [f_le]. rewrite F2Q_finite. split; [exact Hb | lra]. }
      split; [|exact H1].
      apply (f_ge_weaken 0); [lra | exact H0].
Qed.

(** X23: the constant of the Julia sketches stays in a small box.
    Whatever the two readings of the clock, when [sin] returns values in
    [-1, 1] the constant [(reAl, imAg)] that [resize] stores is a pair of
    finite numbers with [-1 <= reAl <= -0.89] and
    [0.26 <= imAg <= 0.37]: it moves by at most a twentieth around
    [(-0.94299, 0.3162)]. *)
Theorem julia_constant_box (sinf : float -> float) (t1 t2 : Z) :
  unit_value (sinf (fdiv (of_int t1) (of_int 305))) ->
  unit_value (sinf (fdiv (of_int t2) (of_int 405))) ->
  f_ge (-1) (fst (julia_constant_at sinf t1 t2)) /\
  f_le (-89 # 100) (fst (julia_constant_at sinf t1 t2)) /\
  f_ge (26 # 100) (snd (julia_constant_at sinf t1 t2)) /\
  f_le (37 # 100) (snd (julia_constant_at sinf t1 t2)) /\
  julia_constant sinf t1 = julia_constant_at sinf t1 t1.
Proof.
  intros Hre Him.
  destruct (twentieth_unit _ Hre) as [Hr0 Hr1].
  destruct (twentieth_unit _ Him) as [Hi0 Hi1].
  unfold julia_constant_at. cbn [fst snd].
  split; [|split; [|split; [|split; [|reflexivity]]]].
  - apply (f_ge_weaken (F2Q (of_int (-1)))); [closed|].
    apply (fadd_ge _ _ (F2Q pixelblaze_re) (- F2Q (lit 1 20)));
      [closed | exact Hr0 | closed | closed].
  - apply (f_le_weaken (F2Q (lit (-891) 1000))); [closed|].
    apply (fadd_le _ _ (F2Q pixelblaze_re) (F2Q (lit 1 20)));
      [closed | exact Hr1 | closed | closed].
  - apply (f_ge_weaken (F2Q (lit 261 1000))); [closed|].
    apply (fadd_ge _ _ (F2Q pixelblaze_im) (- F2Q (lit 1 20)));
      [closed | exact Hi0 | closed | closed].
  - apply (f_le_weaken (F2Q (lit 369 1000))); [closed|].
    apply (fadd_le _ _ (F2Q pixelblaze_im) (F2Q (lit 1 20)));
      [closed | exact Hi1 | closed | closed].
Qed.

Lemma julia_constant_box_witness :
  unit_value (sin_near_0 (fdiv (of_int 0) (of_int 305))) /\
  f_ge (-1) (fst (julia_constant_at sin_near_0 0 1)) /\
  f_le (-89 # 100) (fst (julia_constant_at sin_near_0 0 1)).
Proof.
  assert (H : unit_value (sin_near_0 (fdiv (of_int 0) (of_int 305)))).
  { vm_compute. split; discriminate. }
  assert (H' : unit_value (sin_near_0 (fdiv (of_int 1) (of_int 405)))).
  { vm_compute. repeat split; first [reflexivity | discriminate]. }
  destruct (julia_constant_box sin_near_0 0 1 H H') as (H1 & H2 & _).
  split; [exact H | split; [exact H1 | exact H2]].
Defined.
